(** * The container monitor of the convox agent (containers.go, monitor.go)

    A shallow embedding of the agent's container monitor: the registry of
    captured environments and sink handles, the stream buffer, the
    lifecycle handlers, the log subscriber with its reconnect loop, the
    line parser and the batched forwarder.

    Every method of [Monitor] is embedded as a program over three kinds of
    steps: an access to the monitor's memory, a call to something outside
    the agent (the Docker client, a sink, the clock, a Go channel), and the
    start of a goroutine.  One interpreter runs a program alone on a given
    memory; an interleaving semantics runs a pool of them on shared
    memory. *)

From Stdlib Require Import String Ascii List ZArith Lia Bool DecimalString.
From stdpp Require Import base gmap strings list fin_maps.

Local Open Scope string_scope.
Local Open Scope list_scope.

(** ** Go's strings, as far as the agent uses them *)

Module GoString.

(** [len(s)]: Go strings are byte sequences and so are Rocq's. *)
Definition len (s : string) : Z := Z.of_nat (String.length s).

(** [s[lo:hi]], which panics unless [0 <= lo <= hi <= len(s)]. *)
Definition slice (s : string) (lo hi : Z) : option string :=
  if ((0 <=? lo) && (lo <=? hi) && (hi <=? len s))%Z
  then Some (substring (Z.to_nat lo) (Z.to_nat (hi - lo)) s)
  else None.

(** [strings.HasPrefix(s, prefix)]. *)
Definition HasPrefix (s pre : string) : bool := String.prefix pre s.

(** The text before and after the first occurrence of the byte [sep]. *)
Fixpoint cut (sep : ascii) (s : string) : option (string * string) :=
  match s with
  | EmptyString => None
  | String c r =>
      if Ascii.eqb c sep then Some (EmptyString, r)
      else match cut sep r with
           | Some (h, t) => Some (String c h, t)
           | None => None
           end
  end.

(** [strings.SplitN(s, sep, 2)] for a one-byte separator: two parts when
    the separator occurs, the whole string alone otherwise. *)
Definition SplitN2 (s : string) (sep : ascii) : list string :=
  match cut sep s with
  | Some (h, t) => [h; t]
  | None => [s]
  end.

(** [strings.Split(s, sep)] for a one-byte separator: one part more than
    there are separators, so the empty string gives one empty part. *)
Fixpoint Split (s : string) (sep : ascii) : list string :=
  match s with
  | EmptyString => [EmptyString]
  | String c r =>
      if Ascii.eqb c sep then EmptyString :: Split r sep
      else match Split r sep with
           | h :: t => String c h :: t
           | [] => [String c EmptyString]
           end
  end.

(** [strings.Join(parts, sep)]. *)
Fixpoint Join (parts : list string) (sep : string) : string :=
  match parts with
  | [] => EmptyString
  | [p] => p
  | p :: rest => p +:+ sep +:+ Join rest sep
  end.

(** [parts[lo:hi]] on a slice of strings. *)
Definition slice_list {A} (l : list A) (lo hi : Z) : option (list A) :=
  if ((0 <=? lo) && (lo <=? hi) && (hi <=? Z.of_nat (length l)))%Z
  then Some (firstn (Z.to_nat (hi - lo)) (skipn (Z.to_nat lo) l))
  else None.

End GoString.

(** ** Wall-clock time *)

(** A [time.Time] as the civil reading the agent formats and the sinks
    receive: the fields of the date and of the clock, the nanoseconds and
    the zone offset in seconds east of UTC. *)
Record Time := mkTime {
  year : Z; month : Z; day : Z;
  hour : Z; minute : Z; second : Z;
  nanosecond : Z; zone : Z
}.

Module GoTime.

Definition decimal (n : Z) : string := NilZero.string_of_int (Z.to_int n).

Fixpoint zeros (n : nat) : string :=
  match n with O => EmptyString | S n' => String "0" (zeros n') end.

(** A number printed on at least [w] digits. *)
Definition pad (w : nat) (n : Z) : string :=
  let d := decimal n in zeros (w - String.length d) +:+ d.

(** [t.Format("2006-01-02 15:04:05")]. *)
Definition Format_legacy (t : Time) : string :=
  pad 4 (year t) +:+ "-" +:+ pad 2 (month t) +:+ "-" +:+ pad 2 (day t) +:+ " " +:+
  pad 2 (hour t) +:+ ":" +:+ pad 2 (minute t) +:+ ":" +:+ pad 2 (second t).

End GoTime.

(** ** Errors *)

(** The values of Go's [error] the monitor tells apart: Docker's
    [*docker.NoSuchContainer], [io.EOF], and any other error with its text. *)
Inductive error :=
| NoSuchContainer (ID : string)
| EOF
| errorString (msg : string).

Definition Error (e : error) : string :=
  match e with
  | NoSuchContainer ID => "No such container: " +:+ ID
  | EOF => "EOF"
  | errorString msg => msg
  end.

(** ** Go's fmt, as far as the agent uses it *)

Module GoFmt.

(** An operand of a formatting call; [nil] is a nil [error]. *)
Inductive operand :=
| str (s : string)
| int (z : Z)
| err (e : error)
| nil.

Definition decimal (z : Z) : string := NilZero.string_of_int (Z.to_int z).

Definition dquote : ascii := ascii_of_nat 34.
Definition backslash : ascii := ascii_of_nat 92.

Definition hex_digit (n : nat) : ascii :=
  ascii_of_nat (if Nat.ltb n 10 then 48 + n else 87 + n).

(** One byte of a quoted string.  Quotes and backslashes are escaped,
    control bytes are written with their escape, every other byte is
    kept. *)
Definition quote_byte (c : ascii) : string :=
  let n := nat_of_ascii c in
  let esc (x : ascii) := String backslash (String x EmptyString) in
  if Ascii.eqb c dquote then esc dquote
  else if Ascii.eqb c backslash then esc backslash
  else if Nat.eqb n 7 then esc "a"%char
  else if Nat.eqb n 8 then esc "b"%char
  else if Nat.eqb n 9 then esc "t"%char
  else if Nat.eqb n 10 then esc "n"%char
  else if Nat.eqb n 11 then esc "v"%char
  else if Nat.eqb n 12 then esc "f"%char
  else if Nat.eqb n 13 then esc "r"%char
  else if Nat.ltb n 32 || Nat.eqb n 127
       then String backslash
              (String "x"%char (String (hex_digit (n / 16)) (String (hex_digit (n mod 16)) EmptyString)))
  else String c EmptyString.

Fixpoint quote_bytes (s : string) : string :=
  match s with
  | EmptyString => EmptyString
  | String c r => quote_byte c +:+ quote_bytes r
  end.

(** [strconv.Quote]. *)
Definition Quote (s : string) : string :=
  String dquote (quote_bytes s +:+ String dquote EmptyString).

(** What Go prints for an operand the verb does not fit. *)
Definition bad_verb (v : ascii) (x : operand) : string :=
  "%!" +:+ String v EmptyString +:+
  match x with
  | str s => "(string=" +:+ s +:+ ")"
  | int z => "(int=" +:+ decimal z +:+ ")"
  | err e => "(*errors.errorString=" +:+ Error e +:+ ")"
  | nil => "(<nil>)"
  end.

Definition verb (v : ascii) (x : operand) : string :=
  if Ascii.eqb v "s" then
    match x with str s => s | err e => Error e | _ => bad_verb v x end
  else if Ascii.eqb v "d" then
    match x with int z => decimal z | _ => bad_verb v x end
  else if Ascii.eqb v "q" then
    match x with str s => Quote s | err e => Quote (Error e) | _ => bad_verb v x end
  else bad_verb v x.

(** [fmt.Sprintf] for directives made of a percent sign and one verb
    byte, which are the ones the agent writes: [%s], [%d], [%q].  An
    operand that is missing is reported the way Go reports it. *)
Fixpoint Sprintf (format : string) (a : list operand) : string :=
  match format with
  | EmptyString => EmptyString
  | String c EmptyString =>
      if Ascii.eqb c "%" then "%!(NOVERB)" else String c EmptyString
  | String c (String v rest as tl) =>
      if Ascii.eqb c "%" then
        if Ascii.eqb v "%" then String "%" (Sprintf rest a)
        else match a with
             | [] => "%!" +:+ String v EmptyString +:+ "(MISSING)" +:+ Sprintf rest []
             | x :: a' => verb v x +:+ Sprintf rest a'
             end
      else String c (Sprintf tl a)
  end.

End GoFmt.

(** ASCII letters change case; every other byte is kept. *)
Module GoCase.

Definition upper (c : ascii) : ascii :=
  let n := nat_of_ascii c in
  if Nat.leb 97 n && Nat.leb n 122 then ascii_of_nat (n - 32) else c.

Definition lower (c : ascii) : ascii :=
  let n := nat_of_ascii c in
  if Nat.leb 65 n && Nat.leb n 90 then ascii_of_nat (n + 32) else c.

Fixpoint map_bytes (f : ascii -> ascii) (s : string) : string :=
  match s with
  | EmptyString => EmptyString
  | String c r => String (f c) (map_bytes f r)
  end.

(** [strings.ToUpper] and [strings.ToLower]. *)
Definition ToUpper : string -> string := map_bytes upper.
Definition ToLower : string -> string := map_bytes lower.

End GoCase.

(** ** Docker, the sinks and Kinesis: the values exchanged *)

(** [docker.APIContainers], an entry of a container listing. *)
Record APIContainers := mkAPIContainers { ac_ID : string; ac_Image : string }.

(** [docker.Container], the result of an inspection. *)
Record Container := mkContainer {
  ct_ID : string; ct_Name : string; ct_Path : string; ct_Args : list string;
  ct_Image : string; ct_Created : Time;
  ct_Config_Image : string; ct_Config_Env : list string;
  ct_Config_Labels : list (string * string);
  ct_State_Running : bool
}.

(** [docker.APIEvents]. *)
Record APIEvents := mkAPIEvents { ev_Status : string; ev_ID : string; ev_Time : Z }.

(** [logger.Context], what a per-container sink is opened with. *)
Record Context := mkContext {
  cx_awslogs_group : string;
  cx_ContainerID : string; cx_ContainerName : string;
  cx_ContainerEntrypoint : string; cx_ContainerArgs : list string;
  cx_ContainerImageID : string; cx_ContainerImageName : string;
  cx_ContainerCreated : Time; cx_ContainerEnv : list string;
  cx_ContainerLabels : list (string * string)
}.

(** [logger.Logger]: the handle of an open per-container sink. *)
Record Logger := mkLogger { handle : nat }.

(** [logger.Message]. *)
Record Message := mkMessage {
  ContainerID : string; Line : string; Timestamp : Time
}.

(** [kinesis.PutRecordsResultEntry]; both fields are pointers in Go. *)
Record PutRecordsResultEntry := mkEntry {
  ErrorCode : option string; ErrorMessage : option string
}.

(** [kinesis.PutRecordsOutput]. *)
Record PutRecordsOutput := mkOutput { Records : list PutRecordsResultEntry }.

(** [kinesis.PutRecordsRequestEntry]: the data and the clock reading the
    partition key is made from. *)
Record PutRecordsRequestEntry := mkRequestEntry { Data : string; PartitionKey : Time }.

(** ** The monitor's memory *)

(** A captured environment, [map[string]string].  Reading a key that is
    absent gives the empty string. *)
Abbreviation Env := (gmap string string).

Definition env_at (env : Env) (k : string) : string := default EmptyString (env !! k).

(** [type Monitor struct], without the Docker client (calls to it are
    steps of the programs below) and without the lock (every method that
    takes it is one atomic step). *)
Record Monitor := mkMonitor {
  envs : gmap string Env;
  logDrivers : gmap string string;
  agentId : string; agentImage : string; agentVersion : string;
  amiId : string; az : string; instanceId : string; instanceType : string;
  region : string;
  dockerDriver : string; dockerServerVersion : string; ecsAgentImage : string;
  kernelVersion : string; convoxVersion : string;
  lines : gmap string (list string);
  loggers : gmap string Logger
}.

Definition with_envs (f : gmap string Env -> gmap string Env) (m : Monitor) : Monitor :=
  mkMonitor (f (envs m)) (logDrivers m) (agentId m) (agentImage m) (agentVersion m)
    (amiId m) (az m) (instanceId m) (instanceType m) (region m) (dockerDriver m)
    (dockerServerVersion m) (ecsAgentImage m) (kernelVersion m) (convoxVersion m)
    (lines m) (loggers m).

Definition with_lines (f : gmap string (list string) -> gmap string (list string))
    (m : Monitor) : Monitor :=
  mkMonitor (envs m) (logDrivers m) (agentId m) (agentImage m) (agentVersion m)
    (amiId m) (az m) (instanceId m) (instanceType m) (region m) (dockerDriver m)
    (dockerServerVersion m) (ecsAgentImage m) (kernelVersion m) (convoxVersion m)
    (f (lines m)) (loggers m).

Definition with_loggers (f : gmap string Logger -> gmap string Logger)
    (m : Monitor) : Monitor :=
  mkMonitor (envs m) (logDrivers m) (agentId m) (agentImage m) (agentVersion m)
    (amiId m) (az m) (instanceId m) (instanceType m) (region m) (dockerDriver m)
    (dockerServerVersion m) (ecsAgentImage m) (kernelVersion m) (convoxVersion m)
    (lines m) (f (loggers m)).

Definition with_agentId (s : string) (m : Monitor) : Monitor :=
  mkMonitor (envs m) (logDrivers m) s (agentImage m) (agentVersion m)
    (amiId m) (az m) (instanceId m) (instanceType m) (region m) (dockerDriver m)
    (dockerServerVersion m) (ecsAgentImage m) (kernelVersion m) (convoxVersion m)
    (lines m) (loggers m).

Definition with_agentImage (s : string) (m : Monitor) : Monitor :=
  mkMonitor (envs m) (logDrivers m) (agentId m) s (agentVersion m)
    (amiId m) (az m) (instanceId m) (instanceType m) (region m) (dockerDriver m)
    (dockerServerVersion m) (ecsAgentImage m) (kernelVersion m) (convoxVersion m)
    (lines m) (loggers m).

Definition with_agentVersion (s : string) (m : Monitor) : Monitor :=
  mkMonitor (envs m) (logDrivers m) (agentId m) (agentImage m) s
    (amiId m) (az m) (instanceId m) (instanceType m) (region m) (dockerDriver m)
    (dockerServerVersion m) (ecsAgentImage m) (kernelVersion m) (convoxVersion m)
    (lines m) (loggers m).

(** The monitor [NewMonitor] builds when the instance metadata service is
    not consulted: empty maps, the placeholder identity, and what the
    Docker daemon told about itself. *)
Definition NewMonitor (driver serverVersion img kernel : string) : Monitor :=
  mkMonitor ∅ ∅ "unknown" "convox/agent:dev" "dev"
    "ami-dev" "us-dev-1b" "i-dev" "d1.dev" "us-dev-1"
    driver serverVersion img kernel "" ∅ ∅.

(** ** The registry and the stream buffer: the methods under the lock *)

Module Registry.

(** [getEnv]: the environment and whether the id is registered. *)
Definition getEnv (m : Monitor) (id : string) : option Env := envs m !! id.

Definition setEnv (m : Monitor) (id : string) (env : Env) : Monitor :=
  with_envs (fun es => <[id := env]> es) m.

Definition getLogger (m : Monitor) (id : string) : option Logger := loggers m !! id.

Definition setLogger (m : Monitor) (id : string) (l : Logger) : Monitor :=
  with_loggers (fun ls => <[id := l]> ls) m.

(** [m.lines[stream]], the nil slice when the stream is unknown. *)
Definition pending (m : Monitor) (stream : string) : list string :=
  default [] (lines m !! stream).

Definition addLine (m : Monitor) (stream : string) (data : string) : Monitor :=
  with_lines (fun ls => <[stream := pending m stream ++ [data]]> ls) m.

(** [getLines]: the drained entries ([nil] is the empty list) and the
    monitor after the drain. *)
Definition getLines (m : Monitor) (stream : string) : list string * Monitor :=
  let nl := length (pending m stream) in
  if Nat.eqb nl 0 then ([], m)
  else
    let nl := if Nat.ltb 500 nl then 500 else nl in
    (firstn nl (pending m stream),
     with_lines (fun ls => <[stream := skipn nl (pending m stream)]> ls) m).

(** [streams]: the keys of the buffer, in the order the map yields them. *)
Definition streams (m : Monitor) : list string := (map_to_list (lines m)).*1.

End Registry.

(** ** Programs *)

(** An access to the monitor's memory.  The methods that take the lock are
    one step each; a field read or written outside the lock is a step of
    its own. *)
Inductive mem : Type -> Type :=
| m_getEnv (id : string) : mem (option Env)
| m_setEnv (id : string) (env : Env) : mem unit
| m_getLogger (id : string) : mem (option Logger)
| m_setLogger (id : string) (l : Logger) : mem unit
| m_addLine (stream data : string) : mem unit
| m_getLines (stream : string) : mem (list string)
| m_streams : mem (list string)
| m_read {X : Type} (f : Monitor -> X) : mem X
| m_write (f : Monitor -> Monitor) : mem unit.

Definition mem_sem {X} (op : mem X) (m : Monitor) : X * Monitor :=
  match op in mem X return X * Monitor with
  | m_getEnv id => (Registry.getEnv m id, m)
  | m_setEnv id env => (tt, Registry.setEnv m id env)
  | m_getLogger id => (Registry.getLogger m id, m)
  | m_setLogger id l => (tt, Registry.setLogger m id l)
  | m_addLine stream data => (tt, Registry.addLine m stream data)
  | m_getLines stream => Registry.getLines m stream
  | m_streams => (Registry.streams m, m)
  | m_read f => (f m, m)
  | m_write f => (tt, f m)
  end.

(** A call that leaves the agent; its answer is the world's. *)
Inductive ext : Type -> Type :=
(* the Docker client *)
| ListContainers (status : option string) : ext (list APIContainers + error)
| InspectContainer (id : string) : ext (Container + error)
| client_Logs (id : string) (since : Time) (w : nat) : ext (option error)
(* the per-container sink *)
| awslogs_New (ctx : Context) : ext (Logger + error)
| Logger_Log (l : Logger) (msg : Message) : ext (option error)
| Logger_Close (l : Logger) : ext (option error)
(* the batch sink *)
| Kinesis_PutRecords (stream : string) (records : list PutRecordsRequestEntry)
    : ext (option PutRecordsOutput * option error)
(* the error reporter *)
| rollbar_Error (err : error) (extra : list (string * string)) : ext unit
(* the operating system *)
| time_Now : ext Time
| time_Sleep (seconds : nat) : ext unit
| time_Tick : ext unit
| ioutil_WriteFile (path data : string) : ext (option error)
| fmt_Println (l : string) : ext unit
| os_Getenv (key : string) : ext string
(* channels, pipes and wait groups *)
| chan_recv : ext (option APIEvents)
| io_Pipe : ext nat
| make_chan : ext nat
| new_WaitGroup : ext nat
| wg_Wait (wg : nat) : ext unit
| wg_Done (wg : nat) : ext unit
| chan_closed (ch : nat) : ext bool
| chan_close (ch : nat) : ext unit
| ReadString (r : nat) : ext (string * option error)
| pipe_Close (w : nat) : ext (option error).

(** Where a program stops short of its end: a panic, [log.Fatal], or the
    bound to which a loop without end is unfolded. *)
Inductive fault :=
| slice_bounds_out_of_range
| nil_pointer_dereference
| log_Fatal (err : error)
| unfolded.

Inductive prog (A : Type) : Type :=
| Ret (a : A)
| Abort (f : fault)
| Mem {X : Type} (op : mem X) (k : X -> prog A)
| Call {X : Type} (c : ext X) (k : X -> prog A)
| Go (t : prog unit) (k : prog A).

Arguments Ret {A} a.
Arguments Abort {A} f.
Arguments Mem {A X} op k.
Arguments Call {A X} c k.
Arguments Go {A} t k.

Fixpoint bind {A B} (p : prog A) (f : A -> prog B) : prog B :=
  match p with
  | Ret a => f a
  | Abort e => Abort e
  | Mem op k => Mem op (fun x => bind (k x) f)
  | Call c k => Call c (fun x => bind (k x) f)
  | Go t k => Go t (bind k f)
  end.

Definition mem_ {X} (op : mem X) : prog X := Mem op Ret.
Definition call {X} (c : ext X) : prog X := Call c Ret.
Definition go (t : prog unit) : prog unit := Go t (Ret tt).

(** A Go value that may panic when it is computed. *)
Definition checked {A} (f : fault) (o : option A) : prog A :=
  match o with Some a => Ret a | None => Abort f end.

#[global] Instance prog_ret : MRet prog := @Ret.
#[global] Instance prog_bind : MBind prog := fun A B f p => bind p f.

(** *** One program alone *)

(** A call with the answer it got. *)
Record called := Called { c_type : Type; c_call : ext c_type; c_answer : c_type }.
Arguments Called {c_type} c_call c_answer.

(** The world: what the [n]-th call of a run is answered. *)
Definition world := forall X, ext X -> nat -> X.

Record result (A : Type) := mkResult {
  outcome : A + fault;
  memory : Monitor;
  calls : list called;
  started : list (prog unit)
}.
Arguments mkResult {A}.
Arguments outcome {A}.
Arguments memory {A}.
Arguments calls {A}.
Arguments started {A}.

(** A call recorded in front of what follows it, a goroutine started
    before what follows it. *)
Definition record {A} (c : called) (r : result A) : result A :=
  mkResult (outcome r) (memory r) (c :: calls r) (started r).

Definition spawn {A} (t : prog unit) (r : result A) : result A :=
  mkResult (outcome r) (memory r) (calls r) (t :: started r).

(** [run p w n m]: the program [p] run to its end from the memory [m], its
    calls numbered from [n]; the goroutines it starts are collected, not
    run. *)
Fixpoint run {A} (p : prog A) (w : world) (n : nat) (m : Monitor) : result A :=
  match p with
  | Ret a => mkResult (inl a) m [] []
  | Abort f => mkResult (inr f) m [] []
  | Mem op k => let '(x, m') := mem_sem op m in run (k x) w n m'
  | Call c k => let x := w _ c n in record (Called c x) (run (k x) w (S n) m)
  | Go t k => spawn t (run k w n m)
  end.

(** ** The monitor's methods *)

Import GoString GoFmt.

Definition nonempty (s : string) : bool := negb (String.eqb s EmptyString).

(** The prefix every line the agent writes about itself carries. *)
Definition identity (m : Monitor) : string * string := (agentVersion m, instanceId m).

(** [logSystemf] (monitor.go): the line goes to standard output and, when
    the agent's own container has a sink, to that sink. *)
Definition logSystemf (format : string) (a : list operand) : prog unit :=
  '(ver, inst) ← mem_ (m_read identity);
  let line := Sprintf format a in
  let l := Sprintf "agent:%s/%s %s" [str ver; str inst; str line] in
  call (fmt_Println l);;
  id ← mem_ (m_read agentId);
  lg ← mem_ (m_read (fun m => loggers m !! id));
  match lg with
  | Some awslogger =>
      now ← call time_Now;
      call (Logger_Log awslogger (mkMessage id l now));;
      mret tt
  | None => mret tt
  end.

(** [logAppEvent] (monitor.go): the message goes to the container's sink
    when it has one and to its Kinesis stream when its environment names
    one.  Both maps are read without the lock. *)
Definition logAppEvent (id message : string) : prog unit :=
  '(ver, inst) ← mem_ (m_read identity);
  let msg := Sprintf "agent:%s/%s %s" [str ver; str inst; str message] in
  ts ← call time_Now;
  lg ← mem_ (m_read (fun m => loggers m !! id));
  match lg with
  | Some awslogger => call (Logger_Log awslogger (mkMessage id msg ts));; mret tt
  | None => mret tt
  end;;
  stream ← mem_ (m_read (fun m => envs m !! id ≫= fun env : Env => env !! "KINESIS"));
  match stream with
  | Some stream =>
      mem_ (m_addLine stream (Sprintf "%s %s" [str (GoTime.Format_legacy ts); str msg]))
  | None => mret tt
  end.

(** The fields [ReportError] sends along with the error. *)
Definition extraData (m : Monitor) (clientId : string) : list (string * string) :=
  [("agentId", agentId m); ("agentImage", agentImage m);
   ("clientId", clientId);
   ("amiId", amiId m); ("az", az m); ("instanceId", instanceId m);
   ("instanceType", instanceType m); ("region", region m);
   ("dockerDriver", dockerDriver m);
   ("dockerServerVersion", dockerServerVersion m);
   ("ecsAgentImage", ecsAgentImage m);
   ("kernelVersion", kernelVersion m)].

(** [ReportError] (monitor.go). *)
Definition ReportError (e : error) : prog unit :=
  logSystemf "monitor ReportError err=%q" [err e];;
  m ← mem_ (m_read (fun m => m));
  clientId ← call (os_Getenv "CLIENT_ID");
  call (rollbar_Error e (extraData m clientId)).

(** [ucfirst] (monitor.go). *)
Definition ucfirst (s : string) : string :=
  if String.eqb s EmptyString then EmptyString
  else GoCase.ToUpper (substring 0 1 s) +:+ GoCase.ToLower (substring 1 (String.length s - 1) s).

(** [StartAWSLogger]. *)
Definition StartAWSLogger (container : Container) (logGroup : string)
    : prog (Logger + error) :=
  let ctx :=
    mkContext logGroup (ct_ID container) (ct_Name container) (ct_Path container)
      (ct_Args container) (ct_Image container) (ct_Config_Image container)
      (ct_Created container) (ct_Config_Env container) (ct_Config_Labels container) in
  r ← call (awslogs_New ctx);
  match r with
  | inr e => logSystemf "container StartAWSLogger err=%q" [err e];; mret (inr e)
  | inl logger => mem_ (m_setLogger (ct_ID container) logger);; mret (inl logger)
  end.

(** The loop of [handleCreate] over [container.Config.Env]: an entry
    without an equals sign is skipped, a later entry overrides an earlier
    one of the same name. *)
Definition capture (Env_ : list string) : Env :=
  fold_left
    (fun env e =>
       match SplitN2 e "=" with
       | [k; v] => <[k := v]> env
       | _ => env
       end)
    Env_ ∅.

(** [handleCreate]. *)
Definition handleCreate (id : string) : prog unit :=
  logSystemf "container handleCreate at=start id=%s" [str id];;
  r ← call (InspectContainer id);
  match r with
  | inr e =>
      logSystemf
        "container handleCreate id=%s client.inspectContainer count#DockerInspectError=1 err=%q"
        [str id; err e]
  | inl container =>
      let env := capture (ct_Config_Env container) in
      mem_ (m_setEnv id env);;
      (if nonempty (env_at env "LOG_GROUP") then
         r ← StartAWSLogger container (env_at env "LOG_GROUP");
         match r with
         | inr aerr =>
             (* the source passes [err], which is nil here, not [aerr] *)
             logSystemf "container handleCreate StartAWSLogger logGroup=%s process=%s err=%q"
               [str (env_at env "LOG_GROUP"); str (env_at env "PROCESS"); nil]
         | inl awslogger =>
             logSystemf "container handleCreate StartAWSLogger logGroup=%s process=%s"
               [str (env_at env "LOG_GROUP"); str (env_at env "PROCESS")];;
             mem_ (m_setLogger id awslogger)
         end
       else mret tt);;
      short ← checked slice_bounds_out_of_range (slice id 0 12);
      msg ← (let p := env_at env "PROCESS" in
             if nonempty p then
               short ← checked slice_bounds_out_of_range (slice id 0 12);
               mret (Sprintf "Starting %s process %s" [str p; str short])
             else mret (Sprintf "Starting process %s" [str short]));
      logAppEvent id msg
  end.

(** The shape [handleDie], [handleKill], [handleOom] and [handleStop]
    share: the message without the process name is formatted first, the
    one with it when the captured environment names the process. *)
Definition announce (id plain named : string) : prog unit :=
  short ← checked slice_bounds_out_of_range (slice id 0 12);
  env ← mem_ (m_getEnv id);
  msg ← match env with
        | Some env =>
            let p := env_at env "PROCESS" in
            if nonempty p then
              short ← checked slice_bounds_out_of_range (slice id 0 12);
              mret (Sprintf named [str p; str short])
            else mret (Sprintf plain [str short])
        | None => mret (Sprintf plain [str short])
        end;
  logAppEvent id msg.

Definition handleDie (id : string) : prog unit :=
  logSystemf "container handleDie at=start id=%s" [str id];;
  announce id "Dead process %s" "Dead %s process %s".

Definition handleKill (id : string) : prog unit :=
  logSystemf "container handleKill at=start id=%s" [str id];;
  announce id "Stopped process %s via SIGKILL" "Stopped %s process %s via SIGKILL".

Definition handleOom (id : string) : prog unit :=
  logSystemf "container handleOom at=start id=%s" [str id];;
  announce id "Stopped process %s due to OOM" "Stopped %s process %s due to OOM".

Definition handleStop (id : string) : prog unit :=
  logSystemf "container handleStop at=start id=%s" [str id];;
  announce id "Stopped process %s via SIGTERM" "Stopped %s process %s via SIGTERM".

(** One of the three writes of [updateCgroups]. *)
Definition write_limit (id file bytes : string) : prog unit :=
  e ← call (ioutil_WriteFile
              (Sprintf "/cgroup/memory/docker/%s/" [str id] +:+ file) bytes);
  match e with
  | Some e =>
      logSystemf "container updateCgroups id=%s cgroup=%s value=%s err=%q"
        [str id; str file; str bytes; err e];;
      ReportError e
  | None => mret tt
  end.

(** [updateCgroups]. *)
Definition updateCgroups (id : string) : prog unit :=
  env ← mem_ (m_getEnv id);
  match env with
  | Some env =>
      if String.eqb (env_at env "SWAP") "1" then
        logSystemf "container updateCgroups at=start id=%s" [str id];;
        call (time_Sleep 1);;
        let bytes := "18446744073709551615" in
        write_limit id "memory.memsw.limit_in_bytes" bytes;;
        write_limit id "memory.soft_limit_in_bytes" bytes;;
        write_limit id "memory.limit_in_bytes" bytes
      else mret tt
  | None => mret tt
  end.

(** The app name [parseAndForwardLine] works out of the captured
    environment (lines 418 to 438): [APP] when it is set, else the log
    group, or without one the Kinesis stream, less its last two
    dash-separated segments. *)
Definition appName (env : Env) : string :=
  let app := env_at env "APP" in
  let kinesis := env_at env "KINESIS" in
  let logGroup := env_at env "LOG_GROUP" in
  if String.eqb app EmptyString then
    let logResource := if String.eqb logGroup EmptyString then kinesis else logGroup in
    let parts := Split logResource "-" in
    if Nat.ltb 2 (length parts)
    then Join (firstn (length parts - 2) parts) "-"
    else app
  else app.

(** Loops without a bound of their own are unfolded a given number of
    times; a goroutine that reaches the bound is cut there. *)
Inductive control := continue | break.

Section Handlers.

(** [time.Parse(time.RFC3339Nano, value)], Go's own. *)
Variable time_Parse : string -> Time + error.

(** How many rounds of a loop without end are unfolded. *)
Variable rounds : nat.

(** [parseAndForwardLine]. *)
Definition parseAndForwardLine (id line : string) : prog unit :=
  line ← checked slice_bounds_out_of_range (slice line 0 (len line - 1));
  now ← call time_Now;
  '(ts, line) ←
    match SplitN2 line " " with
    | [stamp; rest] =>
        match time_Parse stamp with
        | inr e =>
            logSystemf "container subscribeLogs parseAndForwardLine time.Parse err=%q" [err e];;
            mret (now, line)
        | inl t => mret (t, rest)
        end
    | _ => mret (now, line)
    end;
  found ← mem_ (m_getEnv id);
  let env : Env := default ∅ found in
  let app := appName env in
  let process := env_at env "PROCESS" in
  let release := env_at env "RELEASE" in
  short ← checked slice_bounds_out_of_range (slice id 0 12);
  let l := Sprintf "%s:%s/%s %s" [str process; str release; str short; str line] in
  lg ← mem_ (m_getLogger id);
  match lg with
  | Some awslogger =>
      e ← call (Logger_Log awslogger (mkMessage id l ts));
      match e with
      | Some e => logSystemf "container subscribeLogs awslogger.Log err=%q" [err e]
      | None => mret tt
      end
  | None => mret tt
  end;;
  let k := env_at env "KINESIS" in
  if nonempty k
  then mem_ (m_addLine k (Sprintf "%s %s" [str (GoTime.Format_legacy ts); str l]))
  else mret tt.

(** The loop of [readLines]. *)
Fixpoint readLines_for (n : nat) (id : string) (r exit : nat) : prog unit :=
  match n with
  | O => Abort unfolded
  | S n =>
      closed ← call (chan_closed exit);
      if closed : bool then
        logSystemf "container subscribeLogs readLines id=%s at=end exit=true" [str id]
      else
        '(line, e) ← call (ReadString r);
        match e with
        | Some EOF | None =>
            (if nonempty line then parseAndForwardLine id line else mret tt);;
            readLines_for n id r exit
        | Some e =>
            logSystemf "container subscribeLogs readLines id=%s at=end err=%q" [str id; err e]
        end
  end.

(** [readLines]; the deferred [wg.Done()] comes last. *)
Definition readLines (id : string) (r wg exit : nat) : prog unit :=
  logSystemf "container subscribeLogs readLines id=%s at=start" [str id];;
  readLines_for rounds id r exit;;
  call (wg_Done wg).

(** [followDockerLogs]. *)
Definition followDockerLogs (id : string) (w wg exit : nat) : prog unit :=
  logSystemf "container subscribeLogs followDockerLogs id=%s at=start" [str id];;
  since ← call time_Now;
  e ← call (client_Logs id since w);
  match e with
  | Some _ =>
      logSystemf "container subscribeLogs followDockerLogs id=%s count#DockerLogsError=1" [str id]
  | None => mret tt
  end;;
  e ← call (pipe_Close w);
  match e with
  | Some _ => logSystemf "container subscribeLogs w.Close id=%s count#DockerLogsError=1" [str id]
  | None => mret tt
  end;;
  call (chan_close exit);;
  logSystemf "container subscribeLogs followDockerLogs id=%s at=end" [str id];;
  call (wg_Done wg).

(** The type switch of [subscribeLogs] on the result of the inspection
    (lines 305 to 328): whether the loop goes round again. *)
Definition reconcile (id : string) (r : Container + error) : prog control :=
  match r with
  | inl c =>
      if negb (ct_State_Running c) then mret break
      else
        logSystemf "container subscribeLogs id=%s count#DockerLogsRetry=1" [str id];;
        mret continue
  | inr (NoSuchContainer _ as e) =>
      ReportError e;;
      mret break
  | inr e =>
      logSystemf
        "container subscribeLogs id=%s err=%q count#DockerInspectError=1 count#DockerLogsRetry=1"
        [str id; err e];;
      ReportError e;;
      mret continue
  end.

(** The loop [retry] of [subscribeLogs]. *)
Fixpoint retry (n : nat) (id : string) : prog unit :=
  match n with
  | O => Abort unfolded
  | S n =>
      wg ← call new_WaitGroup;
      exit ← call make_chan;
      pipe ← call io_Pipe;
      go (readLines id pipe wg exit);;
      go (followDockerLogs id pipe wg exit);;
      call (wg_Wait wg);;
      r ← call (InspectContainer id);
      c ← reconcile id r;
      match c with
      | continue => retry n id
      | break => mret tt
      end
  end.

(** What [subscribeLogs] does once the loop is left. *)
Definition closeLogger (id : string) : prog unit :=
  lg ← mem_ (m_getLogger id);
  match lg with
  | Some awslogger =>
      e ← call (Logger_Close awslogger);
      match e with
      | Some e =>
          logSystemf "container subscribeLogs id=%s awslogger.Close err=%q" [str id; err e];;
          ReportError e
      | None => logSystemf "container subscribeLogs id=%s awslogger.Close" [str id]
      end
  | None => mret tt
  end.

(** [subscribeLogs]. *)
Definition subscribeLogs (id : string) : prog unit :=
  logSystemf "container subscribeLogs id=%s at=start" [str id];;
  retry rounds id;;
  closeLogger id;;
  logSystemf "container subscribeLogs id=%s at=end" [str id].

(** [handleStart]. *)
Definition handleStart (id : string) : prog unit :=
  logSystemf "container handleStart at=start id=%s" [str id];;
  updateCgroups id;;
  agent ← mem_ (m_read agentId);
  (if negb (String.eqb id agent) then
     env ← mem_ (m_getEnv id);
     match env with
     | Some env =>
         if nonempty (env_at env "LOG_GROUP") then subscribeLogs id else mret tt
     | None => mret tt
     end
   else mret tt);;
  logSystemf "container handleStart at=end id=%s" [str id].

(** Whether [handleRunning] takes the image for the agent's own. *)
Definition agent_image (img : string) : bool :=
  HasPrefix img "goodeggs/convox-agent" || HasPrefix img "agent/agent".

(** The loop of [handleRunning] over the listing. *)
Fixpoint handleRunning_range (containers : list APIContainers) : prog unit :=
  match containers with
  | [] => mret tt
  | container :: rest =>
      let img := ac_Image container in
      (if agent_image img then
         mem_ (m_write (with_agentId (ac_ID container)));;
         mem_ (m_write (with_agentImage img));;
         match SplitN2 img ":" with
         | [_; version] => mem_ (m_write (with_agentVersion version))
         | _ => mret tt
         end
       else
         logSystemf "container handleRunning id=%s" [str (ac_ID container)];;
         handleCreate (ac_ID container);;
         go (handleStart (ac_ID container)));;
      handleRunning_range rest
  end.

(** [handleRunning]. *)
Definition handleRunning : prog unit :=
  logSystemf "container handleRunning at=start" [];;
  r ← call (ListContainers None);
  match r with
  | inr e => Abort (log_Fatal e)
  | inl containers =>
      handleRunning_range containers;;
      logSystemf "container handleRunning at=end" []
  end.

(** The loop of [handleExited] over the listing. *)
Fixpoint handleExited_range (containers : list APIContainers) : prog unit :=
  match containers with
  | [] => mret tt
  | container :: rest =>
      logSystemf "container handleExited id=%s" [str (ac_ID container)];;
      handleDie (ac_ID container);;
      handleExited_range rest
  end.

(** [handleExited]. *)
Definition handleExited : prog unit :=
  logSystemf "container handleExited at=start" [];;
  r ← call (ListContainers (Some "exited"));
  match r with
  | inr e => Abort (log_Fatal e)
  | inl containers =>
      handleExited_range containers;;
      logSystemf "container handleExited at=end" []
  end.

(** The [switch] of [handleEvents] on the status of an event: [create]
    is handled on the spot, the five other known kinds in a goroutine
    each, any other kind not at all. *)
Definition dispatch (event : APIEvents) : prog unit :=
  let id := ev_ID event in
  let status := ev_Status event in
  if String.eqb status "create" then handleCreate id
  else if String.eqb status "die" then go (handleDie id)
  else if String.eqb status "kill" then go (handleKill id)
  else if String.eqb status "oom" then go (handleOom id)
  else if String.eqb status "start" then go (handleStart id)
  else if String.eqb status "stop" then go (handleStop id)
  else mret tt.

(** The body of the loop of [handleEvents] for one event. *)
Definition handleEvent (event : APIEvents) : prog unit :=
  let id := ev_ID event in
  let shortId := if (12 <? len id)%Z then substring 0 12 id else id in
  dispatch event;;
  let metric := "DockerEvent" +:+ ucfirst (ev_Status event) in
  env ← mem_ (m_getEnv id);
  let plain :=
    Sprintf "container handleEvents id=%s time=%d count#%s=1"
      [str id; int (ev_Time event); str metric] in
  let msg :=
    match env with
    | Some env =>
        let p := env_at env "PROCESS" in
        if nonempty p then
          Sprintf "container handleEvents id=%s process=%s time=%d count#%s=1"
            [str id; str p; int (ev_Time event); str metric]
        else plain
    | None => plain
    end in
  logSystemf msg [].

(** The loop of [handleEvents]: it ends when the channel is closed. *)
Fixpoint handleEvents_range (n : nat) : prog unit :=
  match n with
  | O => Abort unfolded
  | S n =>
      next ← call chan_recv;
      match next with
      | Some event => handleEvent event;; handleEvents_range n
      | None => mret tt
      end
  end.

(** [handleEvents]. *)
Definition handleEvents : prog unit :=
  logSystemf "container handleEvents at=start" [];;
  handleEvents_range rounds.

(** The requests of [streamLogs] for a batch, each with a clock reading
    of its own for the partition key. *)
Fixpoint requests (l : list string) : prog (list PutRecordsRequestEntry) :=
  match l with
  | [] => mret []
  | line :: rest =>
      now ← call time_Now;
      records ← requests rest;
      mret (mkRequestEntry line now :: records)
  end.

(** The loop of [streamLogs] over the records of the answer: how many
    carry an error code, and the text of the last of them. *)
Fixpoint tally (rs : list PutRecordsResultEntry) (errorCount : Z) (errorMsg : string)
    : prog (Z * string) :=
  match rs with
  | [] => mret (errorCount, errorMsg)
  | r :: rest =>
      match ErrorCode r with
      | Some code =>
          message ← checked nil_pointer_dereference (ErrorMessage r);
          tally rest (errorCount + 1)%Z (Sprintf "%s - %s" [str code; str message])
      | None => tally rest errorCount errorMsg
      end
  end.

(** The body of the inner loop of [streamLogs], for one stream. *)
Definition streamLogs_stream (stream : string) : prog unit :=
  l ← mem_ (m_getLines stream);
  match l with
  | [] => mret tt
  | _ =>
      records ← requests l;
      '(res, e) ← call (Kinesis_PutRecords stream records);
      match e with
      | Some e =>
          logSystemf "container streamLogs stream=%s count#KinesisPutRecordsError=1 err=%q"
            [str stream; err e]
      | None => mret tt
      end;;
      res ← checked nil_pointer_dereference res;
      '(errorCount, errorMsg) ← tally (Records res) 0%Z EmptyString;
      if (0 <? errorCount)%Z then
        logSystemf
          "container streamLogs stream=%s count#KinesisRecordsSuccesses=%d count#KinesisRecordsErrors=%d err=%q"
          [str stream; int (Z.of_nat (length (Records res))); int errorCount; str errorMsg]
      else mret tt
  end.

Fixpoint streamLogs_range (streams : list string) : prog unit :=
  match streams with
  | [] => mret tt
  | stream :: rest => streamLogs_stream stream;; streamLogs_range rest
  end.

(** One tick of [streamLogs]. *)
Definition streamLogs_tick : prog unit :=
  streams ← mem_ m_streams;
  streamLogs_range streams.

(** [streamLogs]: a tick every 100 ms. *)
Fixpoint streamLogs_for (n : nat) : prog unit :=
  match n with
  | O => Abort unfolded
  | S n => call time_Tick;; streamLogs_tick;; streamLogs_for n
  end.

Definition streamLogs : prog unit := streamLogs_for rounds.

End Handlers.

Arguments logSystemf : simpl never.
Arguments logAppEvent : simpl never.
Arguments ReportError : simpl never.
Arguments StartAWSLogger : simpl never.
Arguments handleCreate : simpl never.
Arguments announce : simpl never.
Arguments handleDie : simpl never.
Arguments handleKill : simpl never.
Arguments handleOom : simpl never.
Arguments handleStop : simpl never.
Arguments write_limit : simpl never.
Arguments updateCgroups : simpl never.
Arguments appName : simpl never.
Arguments parseAndForwardLine : simpl never.
Arguments readLines : simpl never.
Arguments followDockerLogs : simpl never.
Arguments reconcile : simpl never.
Arguments closeLogger : simpl never.
Arguments subscribeLogs : simpl never.
Arguments handleStart : simpl never.
Arguments handleRunning : simpl never.
Arguments handleExited : simpl never.
Arguments dispatch : simpl never.
Arguments handleEvent : simpl never.
Arguments handleEvents : simpl never.
Arguments streamLogs_stream : simpl never.
Arguments streamLogs_tick : simpl never.
Arguments streamLogs : simpl never.
Arguments capture : simpl never.
Arguments ucfirst : simpl never.

(** * Properties *)

(** ** The stream buffer *)

Section StreamBuffer.

Import Registry.

(** [n] drains of one stream in a row, nothing written in between. *)
Fixpoint drain (n : nat) (m : Monitor) (stream : string) : Monitor :=
  match n with
  | O => m
  | S n => drain n (getLines m stream).2 stream
  end.

(** The lines a producer adds one after the other. *)
Definition addLines (m : Monitor) (stream : string) (ds : list string) : Monitor :=
  fold_left (fun m d => addLine m stream d) ds m.

Lemma pending_with_lines_eq m stream l :
  pending (with_lines (fun ls => <[stream := l]> ls) m) stream = l.
Proof. unfold pending; simpl. by rewrite lookup_insert_eq. Qed.

Lemma pending_with_lines_ne m stream other l :
  stream ≠ other ->
  pending (with_lines (fun ls => <[stream := l]> ls) m) other = pending m other.
Proof. intros Hne. unfold pending; simpl. by rewrite lookup_insert_ne. Qed.

Lemma getLines_take m stream :
  (getLines m stream).1 = firstn 500 (pending m stream).
Proof.
  unfold getLines.
  destruct (Nat.eqb_spec (length (pending m stream)) 0) as [H0 | H0]; simpl.
  - apply length_zero_iff_nil in H0. by rewrite H0.
  - destruct (Nat.ltb_spec 500 (length (pending m stream))); simpl; [done |].
    by rewrite !firstn_all2 by lia.
Qed.

Lemma getLines_drop m stream :
  pending (getLines m stream).2 stream = skipn 500 (pending m stream).
Proof.
  unfold getLines.
  destruct (Nat.eqb_spec (length (pending m stream)) 0) as [H0 | H0]; simpl.
  - apply length_zero_iff_nil in H0. by rewrite H0.
  - rewrite pending_with_lines_eq.
    destruct (Nat.ltb_spec 500 (length (pending m stream))); simpl; [done |].
    by rewrite !skipn_all2 by lia.
Qed.

Lemma getLines_other m stream other :
  stream ≠ other -> pending (getLines m stream).2 other = pending m other.
Proof.
  intros Hne. unfold getLines.
  destruct (Nat.eqb (length (pending m stream)) 0); simpl; [done |].
  by apply pending_with_lines_ne.
Qed.

Lemma drain_pending n m stream :
  pending (drain n m stream) stream = skipn (500 * n) (pending m stream).
Proof.
  revert m; induction n as [| n IH]; intros m.
  - by rewrite Nat.mul_0_r.
  - simpl drain. rewrite IH, getLines_drop, skipn_skipn.
    f_equal. lia.
Qed.

Lemma addLines_pending ds m stream :
  pending (addLines m stream ds) stream = pending m stream ++ ds.
Proof.
  unfold addLines. revert m; induction ds as [| d ds IH]; intros m; simpl.
  - by rewrite app_nil_r.
  - rewrite IH. unfold addLine at 1. rewrite pending_with_lines_eq.
    by rewrite <- app_assoc.
Qed.

(** C4.  A drain of any stream of any buffer returns the 500 oldest
    pending lines, or all of them when there are fewer, in the order
    [addLine] received them; it leaves the rest and no other stream is
    touched; on an empty stream it returns nothing and changes nothing;
    and drains in a row empty a stream nobody writes to, after as many
    drains as the pending lines fill batches of 500, and for good. *)
Theorem getLines_drains_oldest_first (m : Monitor) (stream : string) :
  let r := getLines m stream in
  length r.1 <= 500
  /\ r.1 = firstn 500 (pending m stream)
  /\ pending r.2 stream = skipn 500 (pending m stream)
  /\ r.1 ++ pending r.2 stream = pending m stream
  /\ (forall other, other <> stream -> pending r.2 other = pending m other)
  /\ (forall ds, (getLines (addLines m stream ds) stream).1
                 = firstn 500 (pending m stream ++ ds))
  /\ (pending m stream = [] -> r = ([], m))
  /\ (forall k, pending (drain ((length (pending m stream) + 499) / 500 + k) m stream) stream
                = []).
Proof.
  cbv zeta. repeat split.
  - rewrite getLines_take, length_firstn. lia.
  - apply getLines_take.
  - apply getLines_drop.
  - rewrite getLines_take, getLines_drop. apply firstn_skipn.
  - intros other Hne. by apply getLines_other.
  - intros ds. by rewrite getLines_take, addLines_pending.
  - intros Hnil. unfold getLines. by rewrite Hnil.
  - intros k. rewrite drain_pending. apply skipn_all2.
    pose proof (Nat.div_mod_eq (length (pending m stream) + 499) 500) as Hd.
    pose proof (Nat.mod_upper_bound (length (pending m stream) + 499) 500).
    lia.
Qed.

(** A buffer of 1200 lines is emptied by three drains of 500, 500 and
    200 lines. *)
Lemma getLines_drains_oldest_first_witness :
  let m := addLines (NewMonitor "" "" "" "") "s" (repeat "x" 1200) in
  pending m "s" <> []
  /\ length (getLines m "s").1 = 500
  /\ length (getLines (drain 2 m "s") "s").1 = 200
  /\ pending (drain 3 m "s") "s" = [].
Proof.
  cbv zeta.
  pose proof (getLines_drains_oldest_first
                (addLines (NewMonitor "" "" "" "") "s" (repeat "x" 1200)) "s") as H.
  cbv zeta in H. destruct H as (_ & _ & _ & _ & _ & _ & _ & H).
  split; [by vm_compute |]. split; [by vm_compute |]. split; [by vm_compute |].
  exact (H 0).
Defined.

End StreamBuffer.

(** ** The app name *)

Section AppName.

(** A string in which the byte [sep] does not occur. *)
Fixpoint free (sep : ascii) (s : string) : bool :=
  match s with
  | EmptyString => true
  | String c r => negb (Ascii.eqb c sep) && free sep r
  end.

Lemma Split_nonempty s sep : Split s sep <> [].
Proof.
  destruct s as [| c r]; simpl; [done |].
  destruct (Ascii.eqb c sep); [done |].
  by destruct (Split r sep).
Qed.

Lemma Split_free s sep : free sep s = true -> Split s sep = [s].
Proof.
  induction s as [| c r IH]; simpl; [done |].
  intros [Hc Hr]%andb_prop. apply negb_true_iff in Hc. rewrite Hc.
  by rewrite IH.
Qed.

Lemma Split_app p rest sep :
  free sep p = true ->
  Split (p +:+ String sep rest) sep = p :: Split rest sep.
Proof.
  induction p as [| c r IH]; simpl.
  - intros _. by rewrite Ascii.eqb_refl.
  - intros [Hc Hr]%andb_prop. apply negb_true_iff in Hc. rewrite Hc.
    by rewrite IH.
Qed.

(** Splitting undoes joining: the segments of a string are the only
    dash-free strings that joined by dashes give it. *)
Lemma Split_Join parts sep :
  parts <> [] ->
  forallb (free sep) parts = true ->
  Split (Join parts (String sep EmptyString)) sep = parts.
Proof.
  induction parts as [| p rest IH]; [done |].
  intros _ [Hp Hrest]%andb_prop.
  destruct rest as [| q rest].
  - simpl. by apply Split_free.
  - change (Join (p :: q :: rest) (String sep EmptyString))
      with (p +:+ String sep EmptyString +:+ Join (q :: rest) (String sep EmptyString)).
    change (String sep EmptyString +:+ ?x) with (String sep x).
    rewrite Split_app by done. f_equal. by apply IH.
Qed.

Lemma Split_snoc a s sep :
  free sep s = true ->
  Split (a +:+ String sep s) sep = Split a sep ++ [s].
Proof.
  intros Hs. induction a as [| c r IH]; simpl.
  - rewrite Ascii.eqb_refl. by rewrite Split_free.
  - destruct (Ascii.eqb c sep); [by rewrite IH |].
    rewrite IH. pose proof (Split_nonempty r sep).
    by destruct (Split r sep).
Qed.

Lemma Join_cons_String c h t sep :
  Join (String c h :: t) sep = String c (Join (h :: t) sep).
Proof. by destruct t. Qed.

Lemma Join_Split a sep : Join (Split a sep) (String sep EmptyString) = a.
Proof.
  induction a as [| c r IH]; simpl; [done |].
  pose proof (Split_nonempty r sep) as Hne.
  destruct (Ascii.eqb_spec c sep) as [-> | Hc].
  - destruct (Split r sep) as [| h t]; [done |]. simpl in *. by rewrite IH.
  - destruct (Split r sep) as [| h t]; [done |].
    rewrite Join_cons_String. by rewrite IH.
Qed.

Lemma append_assoc_ (a b c : string) : (a +:+ b) +:+ c = a +:+ (b +:+ c).
Proof.
  induction a as [| x a IH]; [done |].
  change (String x ((a +:+ b) +:+ c) = String x (a +:+ (b +:+ c))). by f_equal.
Qed.

(** The identifier the app name is worked out of when [APP] is not
    set. *)
Definition logResource (env : Env) : string :=
  if String.eqb (env_at env "LOG_GROUP") EmptyString
  then env_at env "KINESIS" else env_at env "LOG_GROUP".

Lemma appName_unset env :
  env_at env "APP" = EmptyString ->
  appName env =
    let parts := Split (logResource env) "-" in
    if Nat.ltb 2 (length parts)
    then Join (firstn (length parts - 2) parts) "-" else EmptyString.
Proof. intros H. unfold appName, logResource. rewrite H. reflexivity. Qed.

(** C7.  With [APP] set the app name is [APP].  Without it, the log
    group, or the Kinesis stream when there is no log group, is taken
    apart at its dashes, and with more than two segments the app name is
    all but the last two joined by dashes again (with two or fewer it
    stays empty); so a name of the form app-qualifier-suffix gives app,
    and the log group convox-httpd-LogGroup-1KIJO8SS9F3Q9 gives
    convox-httpd. *)
Theorem appName_fallback :
  (forall env : Env, env_at env "APP" <> EmptyString -> appName env = env_at env "APP")
  /\ (forall (env : Env) (segments : list string),
        env_at env "APP" = EmptyString ->
        segments <> [] ->
        forallb (free "-") segments = true ->
        logResource env = Join segments "-" ->
        appName env =
          if Nat.ltb 2 (length segments)
          then Join (firstn (length segments - 2) segments) "-" else EmptyString)
  /\ (forall (env : Env) (app qualifier suffix : string),
        env_at env "APP" = EmptyString ->
        free "-" qualifier = true -> free "-" suffix = true ->
        logResource env = app +:+ "-" +:+ qualifier +:+ "-" +:+ suffix ->
        appName env = app)
  /\ appName {[ "LOG_GROUP" := "convox-httpd-LogGroup-1KIJO8SS9F3Q9" ]} = "convox-httpd"
  /\ appName {[ "KINESIS" := "myapp-staging-Kinesis-L6MUKT1VH451" ]} = "myapp-staging".
Proof.
  split; [| split; [| split; [| split]]].
  - intros env Happ. unfold appName.
    destruct (String.eqb_spec (env_at env "APP") EmptyString); [done | reflexivity].
  - intros env segments Happ Hne Hfree Hres.
    rewrite appName_unset by done. cbv zeta.
    rewrite Hres. by rewrite (Split_Join segments "-").
  - intros env app qualifier suffix Happ Hq Hs Hres.
    rewrite appName_unset by done. cbv zeta. rewrite Hres.
    replace (app +:+ "-" +:+ qualifier +:+ "-" +:+ suffix)
      with ((app +:+ String "-" qualifier) +:+ String "-" suffix)
      by (by rewrite append_assoc_).
    rewrite !Split_snoc by done.
    rewrite <- List.app_assoc. simpl.
    rewrite length_app. simpl length.
    pose proof (Split_nonempty app "-") as Hne.
    destruct (Nat.ltb_spec 2 (length (Split app "-") + 2)) as [_ | Hle]; [| 
      destruct (Split app "-"); [done | simpl in Hle; lia]].
    replace (length (Split app "-") + 2 - 2) with (length (Split app "-") + 0) by lia.
    rewrite firstn_app_2. simpl. rewrite app_nil_r. apply Join_Split.
  - by vm_compute.
  - by vm_compute.
Qed.

(** The convention at work on an environment without [APP]. *)
Lemma appName_fallback_witness :
  let env : Env := {[ "LOG_GROUP" := "convox-httpd-LogGroup-1KIJO8SS9F3Q9" ]} in
  env_at env "APP" = EmptyString
  /\ appName env = "convox-httpd"
  /\ appName (<[ "APP" := "shop" ]> env) = "shop".
Proof.
  cbv zeta. destruct appName_fallback as (Hset & Hseg & Hconv & _).
  split; [reflexivity |]. split.
  - apply (Hconv _ "convox-httpd" "LogGroup" "1KIJO8SS9F3Q9"); reflexivity.
  - rewrite Hset; [reflexivity | by vm_compute].
Defined.

End AppName.

(** ** Runs of one program *)

(** *** What a run leaves in the record of its calls *)

Definition inspection (c : called) : option (string * (Container + error)) :=
  match c_call c in ext X return X -> option (string * (Container + error)) with
  | InspectContainer id => fun x => Some (id, x)
  | _ => fun _ => None
  end (c_answer c).

Definition print (c : called) : option string :=
  match c_call c with fmt_Println l => Some l | _ => None end.

Definition write (c : called) : option (Logger * Message) :=
  match c_call c with Logger_Log l msg => Some (l, msg) | _ => None end.

Definition close (c : called) : option Logger :=
  match c_call c with Logger_Close l => Some l | _ => None end.

Definition opening (c : called) : option Context :=
  match c_call c with awslogs_New ctx => Some ctx | _ => None end.

Definition report (c : called) : option error :=
  match c_call c with rollbar_Error e _ => Some e | _ => None end.

Definition pipe (c : called) : option nat :=
  match c_call c in ext X return X -> option nat with
  | io_Pipe => fun x => Some x
  | _ => fun _ => None
  end (c_answer c).

Definition clock (c : called) : option Time :=
  match c_call c in ext X return X -> option Time with
  | time_Now => fun x => Some x
  | _ => fun _ => None
  end (c_answer c).

Definition put (c : called)
    : option (string * list PutRecordsRequestEntry * (option PutRecordsOutput * option error)) :=
  match c_call c in ext X
        return X -> option (string * list PutRecordsRequestEntry
                            * (option PutRecordsOutput * option error)) with
  | Kinesis_PutRecords stream records => fun x => Some (stream, records, x)
  | _ => fun _ => None
  end (c_answer c).

(** The inspections of a run with their answers, the lines it printed,
    the messages it wrote to sinks, the sinks it closed and opened, the
    errors it reported, the pipes it made, the batches it submitted. *)
Abbreviation inspections := (omap inspection).
Abbreviation printed := (omap print).
Abbreviation written := (omap write).
Abbreviation closed := (omap close).
Abbreviation opened := (omap opening).
Abbreviation reported := (omap report).
Abbreviation pipes := (omap pipe).
Abbreviation clocks := (omap clock).
Abbreviation puts := (omap put).

(** The line [logSystemf] prints for a format and its operands. *)
Definition system_line (m : Monitor) (format : string) (a : list operand) : string :=
  Sprintf "agent:%s/%s %s" [str (agentVersion m); str (instanceId m); str (Sprintf format a)].

(** *** Sequencing *)

(** What a program did before another took over. *)
Definition after {A} (tr : list called) (sp : list (prog unit)) (r : result A) : result A :=
  mkResult (outcome r) (memory r) (tr ++ calls r) (sp ++ started r).

Definition then_ {A B} (r : result A) (f : A -> nat -> Monitor -> result B) : result B :=
  match outcome r with
  | inl a => after (calls r) (started r) (f a (length (calls r)) (memory r))
  | inr e => mkResult (inr e) (memory r) (calls r) (started r)
  end.

Lemma run_bind {A B} (p : prog A) (f : A -> prog B) w n m :
  run (p ≫= f) w n m = then_ (run p w n m) (fun a k m' => run (f a) w (n + k) m').
Proof.
  unfold mbind, prog_bind.
  revert B f n m; induction p as [A a | A e | A X op k IH | A X c k IH | A t _ k IH];
    intros B f n m; simpl.
  - unfold then_, after; simpl. rewrite Nat.add_0_r. by destruct (run (f a) w n m).
  - reflexivity.
  - destruct (mem_sem op m) as [x m']. apply IH.
  - rewrite IH. unfold then_, after, record; simpl.
    destruct (outcome (run (k (w X c n)) w (S n) m)); simpl; [| done].
    by rewrite Nat.add_succ_r.
  - rewrite IH. unfold then_, after, spawn; simpl.
    by destruct (outcome (run k w n m)).
Qed.


Arguments Sprintf : simpl never.
Arguments GoTime.Format_legacy : simpl never.
Arguments record : simpl never.
Arguments spawn : simpl never.

Arguments after : simpl never.

Lemma then_done {A B} (a : A) m tr sp (f : A -> nat -> Monitor -> result B) :
  then_ (mkResult (inl a) m tr sp) f = after tr sp (f a (length tr) m).
Proof. reflexivity. Qed.

Lemma outcome_after {A} tr sp (r : result A) : outcome (after tr sp r) = outcome r.
Proof. reflexivity. Qed.
Lemma memory_after {A} tr sp (r : result A) : memory (after tr sp r) = memory r.
Proof. reflexivity. Qed.
Lemma calls_after {A} tr sp (r : result A) : calls (after tr sp r) = tr ++ calls r.
Proof. reflexivity. Qed.
Lemma started_after {A} tr sp (r : result A) : started (after tr sp r) = sp ++ started r.
Proof. reflexivity. Qed.
Lemma after_done {A} tr sp (a : A + fault) m tr' sp' :
  after tr sp (mkResult a m tr' sp') = mkResult a m (tr ++ tr') (sp ++ sp').
Proof. reflexivity. Qed.

Lemma then_stop {A B} e m tr sp (f : A -> nat -> Monitor -> result B) :
  then_ (mkResult (inr e) m tr sp) f = mkResult (inr e) m tr sp.
Proof. reflexivity. Qed.

Lemma result_eta {A} (r : result A) :
  mkResult (outcome r) (memory r) (calls r) (started r) = r.
Proof. by destruct r. Qed.

(** *** What the agent writes about itself *)

(** The calls of [logSystemf]: the line printed and, when the agent's own
    container has a sink, a reading of the clock and the line written to
    that sink. *)
Definition system_calls (m : Monitor) (format : string) (a : list operand)
    (w : world) (n : nat) : list called :=
  let l := system_line m format a in
  Called (fmt_Println l) (w _ (fmt_Println l) n) ::
  match loggers m !! agentId m with
  | Some awslogger =>
      let now := w _ time_Now (S n) in
      let msg := mkMessage (agentId m) l now in
      [Called time_Now now; Called (Logger_Log awslogger msg) (w _ (Logger_Log awslogger msg) (S (S n)))]
  | None => []
  end.

Lemma run_logSystemf format a w n m :
  run (logSystemf format a) w n m = mkResult (inl tt) m (system_calls m format a w n) [].
Proof.
  unfold logSystemf, system_calls, system_line. simpl.
  destruct (loggers m !! agentId m); reflexivity.
Qed.

(** The calls of [ReportError]. *)
Definition report_calls (m : Monitor) (e : error) (w : world) (n : nat) : list called :=
  let tr := system_calls m "monitor ReportError err=%q" [err e] w n in
  let k := n + length tr in
  let clientId := w _ (os_Getenv "CLIENT_ID") k in
  tr ++ [Called (os_Getenv "CLIENT_ID") clientId;
         Called (rollbar_Error e (extraData m clientId))
           (w _ (rollbar_Error e (extraData m clientId)) (S k))].

Lemma run_ReportError e w n m :
  run (ReportError e) w n m = mkResult (inl tt) m (report_calls m e w n) [].
Proof.
  unfold ReportError. rewrite run_bind, run_logSystemf, then_done. simpl.
  unfold record, report_calls; simpl.
  match goal with |- context [inl ?x] => destruct x end. reflexivity.
Qed.

(** *** Programs that cannot stop short *)

(** No [Abort] is in the way, whatever the memory holds and the world
    answers. *)
Fixpoint total {A : Type} (p : prog A) : Prop :=
  match p with
  | Ret _ => True
  | Abort _ => False
  | Mem op k => forall x, total (k x)
  | Call c k => forall x, total (k x)
  | Go t k => total k
  end.

Lemma total_bind {A B} (p : prog A) (f : A -> prog B) :
  total p -> (forall a, total (f a)) -> total (p ≫= f).
Proof.
  unfold mbind, prog_bind. intros Hp Hf.
  induction p as [A a | A e | A X op k IH | A X c k IH | A t _ k IH]; simpl in *; auto.
Qed.

Lemma total_run {A} (p : prog A) w n m :
  total p -> exists a, outcome (run p w n m) = inl a.
Proof.
  revert n m; induction p as [A a | A e | A X op k IH | A X c k IH | A t _ k IH];
    intros n m Hp; simpl in *.
  - by exists a.
  - done.
  - destruct (mem_sem op m) as [x m']. by apply IH.
  - unfold record; simpl. by apply IH.
  - unfold spawn; simpl. by apply IH.
Qed.

Lemma total_run_unit (p : prog unit) w n m :
  total p -> outcome (run p w n m) = inl tt.
Proof. intros Hp. destruct (total_run p w n m Hp) as [[] H]. exact H. Qed.

Lemma total_logSystemf format a : total (logSystemf format a).
Proof.
  unfold logSystemf; simpl. intros [ver inst] _ id lg. destruct lg; simpl; auto.
Qed.

Lemma total_logAppEvent id message : total (logAppEvent id message).
Proof.
  unfold logAppEvent; simpl. intros [ver inst] ts lg.
  destruct lg; simpl; intros; match goal with |- total (match ?x with _ => _ end) =>
    destruct x end; simpl; auto.
Qed.

Lemma total_ReportError e : total (ReportError e).
Proof.
  unfold ReportError. apply total_bind; [apply total_logSystemf |]. simpl. auto.
Qed.

Create HintDb total discriminated.
#[local] Hint Constants Opaque : total.
#[local] Hint Resolve total_logSystemf total_logAppEvent total_ReportError : total.

(** Breaks a goal [total p] down along the structure of [p]. *)
Ltac total_step :=
  match goal with
  | |- total (mbind _ _) => apply total_bind
  | |- total (mret _) => exact I
  | |- total (Ret _) => exact I
  | |- total (match ?x with _ => _ end) => destruct x
  | |- total (mem_ _) => simpl; intros; exact I
  | |- total (call _) => simpl; intros; exact I
  | |- total (go _) => exact I
  | |- total (checked _ (Some _)) => exact I
  | |- forall _, _ => intro
  | |- total _ => solve [auto with total]
  end.
Ltac total_auto := repeat total_step.

Lemma total_StartAWSLogger container logGroup : total (StartAWSLogger container logGroup).
Proof. unfold StartAWSLogger. total_auto. Qed.
#[local] Hint Resolve total_StartAWSLogger : total.

Lemma outcome_then {A B} (r : result A) (f : A -> nat -> Monitor -> result B) :
  outcome (then_ r f) =
    match outcome r with
    | inl a => outcome (f a (length (calls r)) (memory r))
    | inr e => inr e
    end.
Proof. unfold then_, after. by destruct (outcome r). Qed.

Lemma then_extends {A B} (r : result A) (f : A -> nat -> Monitor -> result B) :
  exists tr sp,
    calls (then_ r f) = calls r ++ tr /\ started (then_ r f) = started r ++ sp.
Proof.
  unfold then_, after. destruct (outcome r); simpl.
  - by eexists _, _.
  - exists [], []. by rewrite !app_nil_r.
Qed.

Arguments system_calls : simpl never.
Arguments report_calls : simpl never.

Lemma run_ret {A} (a : A) w n m : run (mret a) w n m = mkResult (inl a) m [] [].
Proof. reflexivity. Qed.

Lemma run_call {X} (c : ext X) w n m :
  run (call c) w n m = mkResult (inl (w _ c n)) m [Called c (w _ c n)] [].
Proof. reflexivity. Qed.

Lemma run_mem {X} (op : mem X) w n m :
  run (mem_ op) w n m = mkResult (inl (mem_sem op m).1) (mem_sem op m).2 [] [].
Proof. unfold mem_; simpl. by destruct (mem_sem op m). Qed.

Lemma run_go t w n m : run (go t) w n m = mkResult (inl tt) m [] [t].
Proof. reflexivity. Qed.

Lemma run_checked_Some {A} f (a : A) w n m :
  run (checked f (Some a)) w n m = mkResult (inl a) m [] [].
Proof. reflexivity. Qed.

Lemma run_checked_None {A} f w n m :
  run (@checked A f None) w n m = mkResult (inr f) m [] [].
Proof. reflexivity. Qed.

Lemma run_abort {A} f w n m : run (@Abort A f) w n m = mkResult (inr f) m [] [].
Proof. reflexivity. Qed.

#[local] Hint Rewrite @run_bind @run_ret @run_call @run_mem run_go @run_checked_Some
  @run_checked_None @run_abort run_logSystemf run_ReportError @then_done @then_stop
  @outcome_after @memory_after @calls_after @started_after @after_done : run.

(** Runs a program as far as its text is known. *)
Ltac run_auto :=
  repeat (autorewrite with run;
          cbn beta iota zeta delta [fst snd mem_sem app length outcome memory calls started]).

Lemma system_calls_inspections m format a w n : inspections (system_calls m format a w n) = [].
Proof. unfold system_calls. by destruct (loggers m !! agentId m). Qed.

Lemma system_calls_printed m format a w n :
  printed (system_calls m format a w n) = [system_line m format a].
Proof. unfold system_calls. by destruct (loggers m !! agentId m). Qed.

Lemma system_calls_opened m format a w n : opened (system_calls m format a w n) = [].
Proof. unfold system_calls. by destruct (loggers m !! agentId m). Qed.

Lemma system_calls_closed m format a w n : closed (system_calls m format a w n) = [].
Proof. unfold system_calls. by destruct (loggers m !! agentId m). Qed.

Lemma system_calls_reported m format a w n : reported (system_calls m format a w n) = [].
Proof. unfold system_calls. by destruct (loggers m !! agentId m). Qed.

Lemma system_calls_pipes m format a w n : pipes (system_calls m format a w n) = [].
Proof. unfold system_calls. by destruct (loggers m !! agentId m). Qed.

Lemma system_calls_puts m format a w n : puts (system_calls m format a w n) = [].
Proof. unfold system_calls. by destruct (loggers m !! agentId m). Qed.

(** ** A failed inspection in [handleCreate] *)

(** C8.  When the inspection [handleCreate] makes of its container fails,
    the handler prints the error and returns: the memory of the monitor,
    and with it the map of environments and the map of sinks, is what it
    was; no sink was opened; and the inspection was made once. *)
Theorem handleCreate_inspect_error (id : string) (e : error) (w : world) (n : nat)
    (m : Monitor) :
  let r := run (handleCreate id) w n m in
  head (inspections (calls r)) = Some (id, inr e) ->
  outcome r = inl tt
  /\ memory r = m
  /\ Registry.getEnv (memory r) id = Registry.getEnv m id
  /\ Registry.getLogger (memory r) id = Registry.getLogger m id
  /\ started r = []
  /\ inspections (calls r) = [(id, inr e)]
  /\ opened (calls r) = []
  /\ In (system_line m
           "container handleCreate id=%s client.inspectContainer count#DockerInspectError=1 err=%q"
           [str id; err e])
        (printed (calls r)).
Proof.
  cbv zeta. unfold handleCreate. run_auto.
  rewrite !omap_app, system_calls_inspections, system_calls_opened.
  destruct (w _ (InspectContainer id) _) as [container | e'] eqn:Hw; cbn.
  - intros [=].
  - intros [= ->]. run_auto.
    rewrite ?omap_app, ?system_calls_inspections, ?system_calls_opened, ?system_calls_printed.
    cbn. rewrite ?system_calls_inspections, ?system_calls_opened, ?system_calls_printed.
    repeat split; try reflexivity.
    right. by left.
Qed.

(** A world in which nothing happens: Docker knows no container, no sink
    opens, writes and puts succeed, clocks show the first instant of year
    one and channels are closed. *)
Definition epoch : Time := mkTime 1 1 1 0 0 0 0 0.

Definition silent : world :=
  fun X c _ =>
    match c in ext X return X with
    | ListContainers _ => inl []
    | InspectContainer id => inr (NoSuchContainer id)
    | client_Logs _ _ _ => None
    | awslogs_New _ => inr (errorString "no sink")
    | Logger_Log _ _ => None
    | Logger_Close _ => None
    | Kinesis_PutRecords _ _ => (Some (mkOutput []), None)
    | rollbar_Error _ _ => tt
    | time_Now => epoch
    | time_Sleep _ => tt
    | time_Tick => tt
    | ioutil_WriteFile _ _ => None
    | fmt_Println _ => tt
    | os_Getenv _ => EmptyString
    | chan_recv => None
    | io_Pipe => 0
    | make_chan => 0
    | new_WaitGroup => 0
    | wg_Wait _ => tt
    | wg_Done _ => tt
    | chan_closed _ => true
    | chan_close _ => tt
    | ReadString _ => (EmptyString, Some EOF)
    | pipe_Close _ => None
    end.

(** The monitor of a development machine. *)
Definition dev : Monitor := NewMonitor "overlay" "1.9" "notfound" "4.1".

(** A container Docker does not know is not registered. *)
Lemma handleCreate_inspect_error_witness :
  let r := run (handleCreate "0123456789abcdef") silent 0 dev in
  memory r = dev /\ inspections (calls r) = [("0123456789abcdef", inr (NoSuchContainer "0123456789abcdef"))].
Proof.
  cbv zeta.
  destruct (handleCreate_inspect_error "0123456789abcdef"
              (NoSuchContainer "0123456789abcdef") silent 0 dev) as (_ & Hm & _ & _ & _ & Hi & _).
  - by vm_compute.
  - split; [exact Hm | exact Hi].
Defined.

(** ** Slices without a guard *)

Lemma length_append_ (a b : string) :
  String.length (a +:+ b) = String.length a + String.length b.
Proof.
  induction a as [| c a IH]; [done |].
  change (S (String.length (a +:+ b)) = S (String.length a + String.length b)).
  by rewrite IH.
Qed.

Lemma substring_append_ (a b : string) : substring 0 (String.length a) (a +:+ b) = a.
Proof.
  induction a as [| c a IH].
  - by destruct b.
  - change (String c (substring 0 (String.length a) (a +:+ b)) = String c a).
    by rewrite IH.
Qed.

(** The first twelve bytes of an identifier. *)
Lemma slice_short id :
  slice id 0 12 = if Nat.ltb (String.length id) 12 then None else Some (substring 0 12 id).
Proof.
  unfold slice, len.
  destruct (Nat.ltb_spec (String.length id) 12) as [Hlt | Hge].
  - destruct (Z.leb_spec 12 (Z.of_nat (String.length id))); [lia | done].
  - destruct (Z.leb_spec 12 (Z.of_nat (String.length id))); [done | lia].
Qed.

(** A line less its last byte. *)
Lemma slice_last text c :
  slice (text +:+ String c EmptyString) 0 (len (text +:+ String c EmptyString) - 1) = Some text.
Proof.
  unfold slice, len. rewrite length_append_. simpl String.length.
  replace (Z.of_nat (String.length text + 1) - 1)%Z with (Z.of_nat (String.length text)) by lia.
  destruct (Z.leb_spec 0 (Z.of_nat (String.length text))); [| lia].
  destruct (Z.leb_spec (Z.of_nat (String.length text)) (Z.of_nat (String.length text + 1)));
    [| lia].
  simpl. rewrite Z.sub_0_r, Nat2Z.id. by rewrite substring_append_.
Qed.

Lemma slice_empty : slice EmptyString 0 (len EmptyString - 1) = None.
Proof. reflexivity. Qed.

(** Every string but the empty one has a last byte. *)
Lemma string_last s : s <> EmptyString -> exists text c, s = text +:+ String c EmptyString.
Proof.
  induction s as [| a s IH]; [done |]. intros _.
  destruct s as [| b s].
  - by exists EmptyString, a.
  - destruct IH as (text & c & Heq); [done |].
    exists (String a text), c. by rewrite Heq.
Qed.

Lemma outcome_bind_total {A B} (p : prog A) (f : A -> prog B) w n m :
  total p ->
  exists a n' m', outcome (run (p ≫= f) w n m) = outcome (run (f a) w n' m').
Proof.
  intros Hp. destruct (total_run p w n m Hp) as [a Ha].
  exists a, (n + length (calls (run p w n m))), (memory (run p w n m)).
  rewrite run_bind, outcome_then. by rewrite Ha.
Qed.

(** Steps over a program that cannot stop short when only the outcome of
    the run is asked for. *)
Ltac skip_total :=
  match goal with
  | |- context [outcome (run (?p ≫= ?f) ?w ?n ?m)] =>
      let H := fresh in
      destruct (outcome_bind_total p f w n m) as (? & ? & ? & H);
      [total_auto | rewrite H; clear H; cbv beta]
  end.

Lemma announce_outcome id plain named w n m :
  outcome (run (announce id plain named) w n m) =
    if Nat.ltb (String.length id) 12 then inr slice_bounds_out_of_range else inl tt.
Proof.
  unfold announce. rewrite run_bind, outcome_then, slice_short.
  destruct (Nat.ltb (String.length id) 12) eqn:Hlen; [reflexivity |].
  run_auto. rewrite outcome_then.
  match goal with |- context [run ?p _ _ _] =>
    assert (Ht : total p) end.
  { total_auto. }
  match goal with |- context [outcome (run ?p ?w ?n ?m)] =>
    destruct (total_run p w n m Ht) as [msg ->] end.
  apply total_run_unit. total_auto.
Qed.

Lemma handleCreate_outcome id w n m :
  let r := run (handleCreate id) w n m in
  outcome r =
    match head (inspections (calls r)) with
    | Some (_, inl _) =>
        if Nat.ltb (String.length id) 12 then inr slice_bounds_out_of_range else inl tt
    | _ => inl tt
    end.
Proof.
  cbv zeta. unfold handleCreate.
  rewrite run_bind, run_logSystemf, then_done, outcome_after, calls_after.
  rewrite omap_app, system_calls_inspections.
  rewrite run_bind, run_call, then_done, outcome_after, calls_after. cbn [app omap list_omap].
  cbn [inspection c_call c_answer head].
  destruct (w _ (InspectContainer id) _) as [container | e].
  - skip_total. skip_total.
    rewrite run_bind, outcome_then, slice_short.
    destruct (Nat.ltb (String.length id) 12) eqn:Hlen; [reflexivity |].
    rewrite run_checked_Some. cbn [outcome]. skip_total.
    apply total_run_unit. total_auto.
  - rewrite run_logSystemf. reflexivity.
Qed.

Lemma parseAndForwardLine_outcome time_Parse id line w n m :
  outcome (run (parseAndForwardLine time_Parse id line) w n m) =
    if String.eqb line EmptyString || Nat.ltb (String.length id) 12
    then inr slice_bounds_out_of_range else inl tt.
Proof.
  unfold parseAndForwardLine. rewrite run_bind, outcome_then.
  destruct (String.eqb_spec line EmptyString) as [-> | Hne]; [reflexivity |].
  destruct (string_last line Hne) as (text & c & ->). rewrite slice_last.
  rewrite run_checked_Some. cbn [outcome memory calls orb].
  skip_total. skip_total.
  match goal with x : (Time * string)%type |- _ => destruct x end.
  skip_total.
  rewrite run_bind, outcome_then, slice_short.
  destruct (Nat.ltb (String.length id) 12); [reflexivity |].
  rewrite run_checked_Some. cbn [outcome memory calls].
  apply total_run_unit. total_auto.
Qed.

Lemma parseAndForwardLine_last_byte time_Parse id text c w n m :
  run (parseAndForwardLine time_Parse id (text +:+ String c EmptyString)) w n m =
  run (parseAndForwardLine time_Parse id (text +:+ String "010" EmptyString)) w n m.
Proof.
  unfold parseAndForwardLine. by rewrite !run_bind, !slice_last.
Qed.

(** C10.  The handlers of die, kill, oom and stop panic on an identifier
    of fewer than twelve bytes and on no other; [handleCreate] does once
    the inspection has succeeded; the parser panics on an empty line and
    on a short identifier, and on nothing else; and whatever the last
    byte of a line is, a newline or not, the parser drops it. *)
Theorem short_slices_panic :
  (forall id w n m,
     let stop := if Nat.ltb (String.length id) 12
                 then inr slice_bounds_out_of_range else inl tt in
     outcome (run (handleDie id) w n m) = stop
     /\ outcome (run (handleKill id) w n m) = stop
     /\ outcome (run (handleOom id) w n m) = stop
     /\ outcome (run (handleStop id) w n m) = stop)
  /\ (forall id w n m,
        let r := run (handleCreate id) w n m in
        outcome r =
          match head (inspections (calls r)) with
          | Some (_, inl _) =>
              if Nat.ltb (String.length id) 12
              then inr slice_bounds_out_of_range else inl tt
          | _ => inl tt
          end)
  /\ (forall time_Parse id line w n m,
        outcome (run (parseAndForwardLine time_Parse id line) w n m) =
          if String.eqb line EmptyString || Nat.ltb (String.length id) 12
          then inr slice_bounds_out_of_range else inl tt)
  /\ (forall time_Parse id text c w n m,
        run (parseAndForwardLine time_Parse id (text +:+ String c EmptyString)) w n m =
        run (parseAndForwardLine time_Parse id (text +:+ String "010" EmptyString)) w n m).
Proof.
  split; [| split; [| split]].
  - intros id w n m. cbv zeta.
    unfold handleDie, handleKill, handleOom, handleStop.
    rewrite !run_bind, !run_logSystemf, !then_done, !outcome_after, !announce_outcome.
    by repeat split.
  - apply handleCreate_outcome.
  - apply parseAndForwardLine_outcome.
  - apply parseAndForwardLine_last_byte.
Qed.

(** *** Programs that keep to a policy *)

(** What a program may do: which calls, which accesses to the memory,
    which stops, whether it may start goroutines and, with [deep], whether
    the goroutines it starts are held to the same. *)
Record policy := mkPolicy {
  ok_call : forall X, ext X -> bool;
  ok_mem : forall X, mem X -> bool;
  ok_stop : fault -> bool;
  ok_go : bool;
  deep : bool
}.

Fixpoint obeys (π : policy) {A : Type} (p : prog A) : Prop :=
  match p with
  | Ret _ => True
  | Abort f => ok_stop π f = true
  | Mem op k => ok_mem π _ op = true /\ forall x, obeys π (k x)
  | Call c k => ok_call π _ c = true /\ forall x, obeys π (k x)
  | Go t k => ok_go π = true /\ (deep π = true -> obeys π t) /\ obeys π k
  end.

Lemma obeys_bind π {A B} (p : prog A) (f : A -> prog B) :
  obeys π p -> (forall a, obeys π (f a)) -> obeys π (p ≫= f).
Proof.
  unfold mbind, prog_bind. intros Hp Hf.
  induction p as [A a | A e | A X op k IH | A X c k IH | A t _ k IH]; simpl in *.
  - apply Hf.
  - exact Hp.
  - destruct Hp as [Hop Hk]. split; [done |]. intros x. by apply IH.
  - destruct Hp as [Hop Hk]. split; [done |]. intros x. by apply IH.
  - destruct Hp as (Hgo & Ht & Hk). repeat split; try done. by apply IH.
Qed.

(** What a run of a program that keeps to a policy looks like: its calls
    are allowed ones, it stops only where allowed, the goroutines it
    starts are none unless allowed, and what the allowed accesses preserve
    of the memory is preserved. *)
Lemma obeys_run π {A} (p : prog A) (I : Monitor -> Prop) w n m :
  obeys π p ->
  (forall X (op : mem X) m, ok_mem π _ op = true -> I m -> I (mem_sem op m).2) ->
  I m ->
  let r := run p w n m in
  Forall (fun c => ok_call π _ (c_call c) = true) (calls r)
  /\ (forall f, outcome r = inr f -> ok_stop π f = true)
  /\ (ok_go π = false -> started r = [])
  /\ I (memory r).
Proof.
  intros Hp HI. cbv zeta.
  revert n m; induction p as [A a | A e | A X op k IH | A X c k IH | A t _ k IH];
    intros n m Hm; simpl in *.
  - split; [apply Forall_nil_2 | split; [| split; [| done]]]; intros; congruence.
  - split; [apply Forall_nil_2 | split; [| split; [| done]]]; [intros ? [= <-] |]; done.
  - destruct Hp as [Hop Hk]. specialize (HI _ op m Hop Hm).
    destruct (mem_sem op m) as [x m']. by apply IH.
  - destruct Hp as [Hc Hk].
    destruct (IH (w X c n) (Hk _) (S n) m Hm) as (H1 & H2 & H3 & H4).
    unfold record; simpl. split; [by constructor | done].
  - destruct Hp as (Hgo & _ & Hk).
    destruct (IH Hk n m Hm) as (H1 & H2 & H3 & H4).
    unfold spawn; simpl. split; [done | split; [done | split; [| done]]].
    intros Hno. congruence.
Qed.

(** Calls that neither reach Docker nor close a sink nor touch a pipe, a
    channel or Kinesis: printing, writing to a sink, opening one, reading
    the clock, sleeping, writing a file, reporting an error. *)
Definition housekeeping : forall X, ext X -> bool :=
  fun X c =>
    match c with
    | Logger_Log _ _ | awslogs_New _ | rollbar_Error _ _ | time_Now | time_Sleep _
    | ioutil_WriteFile _ _ | fmt_Println _ | os_Getenv _ => true
    | _ => false
    end.

(** Accesses that leave the identity of the agent alone. *)
Definition no_write : forall X, mem X -> bool :=
  fun X op => match op with m_write _ => false | _ => true end.

(** Housekeeping only, no goroutine, any stop. *)
Definition calm : policy := mkPolicy housekeeping no_write (fun _ => true) false false.

Create HintDb obeys discriminated.
#[local] Hint Constants Opaque : obeys.

(** Breaks a goal [obeys π p] down along the structure of [p]. *)
Ltac obeys_step :=
  match goal with
  | |- obeys _ (mbind _ _) => apply obeys_bind
  | |- obeys _ (mret _) => exact I
  | |- obeys _ (Ret _) => exact I
  | |- obeys _ (match ?x with _ => _ end) => destruct x
  | |- obeys _ (mem_ _) => simpl; split; [reflexivity | intros; exact I]
  | |- obeys _ (call _) => simpl; split; [reflexivity | intros; exact I]
  | |- obeys _ (checked _ ?o) => destruct o; simpl; [exact I | reflexivity]
  | |- forall _, _ => intro
  | |- obeys _ _ => solve [auto with obeys]
  end.
Ltac obeys_auto := repeat obeys_step.

Lemma calm_logSystemf format a : obeys calm (logSystemf format a).
Proof. unfold logSystemf. obeys_auto. Qed.
#[local] Hint Resolve calm_logSystemf : obeys.

Lemma calm_logAppEvent id message : obeys calm (logAppEvent id message).
Proof. unfold logAppEvent. obeys_auto. Qed.

Lemma calm_ReportError e : obeys calm (ReportError e).
Proof. unfold ReportError. obeys_auto. Qed.
#[local] Hint Resolve calm_logAppEvent calm_ReportError : obeys.

Lemma calm_StartAWSLogger container logGroup :
  obeys calm (StartAWSLogger container logGroup).
Proof. unfold StartAWSLogger. obeys_auto. Qed.

Lemma calm_write_limit id file bytes : obeys calm (write_limit id file bytes).
Proof. unfold write_limit. obeys_auto. Qed.
#[local] Hint Resolve calm_StartAWSLogger calm_write_limit : obeys.

Lemma calm_updateCgroups id : obeys calm (updateCgroups id).
Proof. unfold updateCgroups. obeys_auto. Qed.
#[local] Hint Resolve calm_updateCgroups : obeys.

Lemma obeys_weaken π1 π2 {A} (p : prog A) :
  (forall X c, ok_call π1 X c = true -> ok_call π2 X c = true) ->
  (forall X op, ok_mem π1 X op = true -> ok_mem π2 X op = true) ->
  (forall f, ok_stop π1 f = true -> ok_stop π2 f = true) ->
  (ok_go π1 = true -> ok_go π2 = true) ->
  deep π2 = false ->
  obeys π1 p -> obeys π2 p.
Proof.
  intros Hc Hm Hs Hg Hd.
  induction p as [A a | A e | A X op k IH | A X c k IH | A t _ k IH]; simpl; auto.
  - intros [H1 H2]. split; auto.
  - intros [H1 H2]. split; auto.
  - intros (H1 & H2 & H3). split; [auto | split; [| auto]]. rewrite Hd. congruence.
Qed.

(** Accesses that only read. *)
Definition reads : forall X, mem X -> bool :=
  fun X op =>
    match op with
    | m_getEnv _ | m_getLogger _ | m_streams | m_read _ => true
    | _ => false
    end.

(** Housekeeping that leaves the memory as it is and always ends. *)
Definition idle : policy := mkPolicy housekeeping reads (fun _ => false) false false.

Lemma idle_calm {A} (p : prog A) : obeys idle p -> obeys calm p.
Proof.
  apply obeys_weaken; simpl; try done.
  intros X op. by destruct op.
Qed.

Lemma idle_logSystemf format a : obeys idle (logSystemf format a).
Proof. unfold logSystemf. obeys_auto. Qed.
#[local] Hint Resolve idle_logSystemf : obeys.

Lemma idle_ReportError e : obeys idle (ReportError e).
Proof. unfold ReportError. obeys_auto. Qed.
#[local] Hint Resolve idle_ReportError : obeys.

Lemma idle_write_limit id file bytes : obeys idle (write_limit id file bytes).
Proof. unfold write_limit. obeys_auto. Qed.
#[local] Hint Resolve idle_write_limit : obeys.

Lemma idle_updateCgroups id : obeys idle (updateCgroups id).
Proof. unfold updateCgroups. obeys_auto. Qed.
#[local] Hint Resolve idle_updateCgroups : obeys.

Lemma reads_mem_sem {X} (op : mem X) m : reads X op = true -> (mem_sem op m).2 = m.
Proof. by destruct op. Qed.

Lemma no_write_agentId {X} (op : mem X) m :
  no_write X op = true -> agentId (mem_sem op m).2 = agentId m.
Proof.
  destruct op; simpl; try done.
  intros _. unfold Registry.getLines. by destruct (Nat.eqb _ _).
Qed.

(** The record of housekeeping alone shows no inspection, no pipe, no
    closed sink and no batch. *)
Lemma housekeeping_record tr :
  Forall (fun c => housekeeping _ (c_call c) = true) tr ->
  inspections tr = [] /\ pipes tr = [] /\ closed tr = [] /\ puts tr = [].
Proof.
  induction 1 as [| [X c x] tr Hc _ IH]; [done |].
  destruct IH as (H1 & H2 & H3 & H4).
  destruct c; simpl in Hc; try discriminate; cbn; by rewrite ?H1, ?H2, ?H3, ?H4.
Qed.

(** A run of an idle program: it ends, the memory is untouched, nothing is
    started and the record is housekeeping. *)
Lemma idle_run (p : prog unit) w n m :
  obeys idle p ->
  let r := run p w n m in
  outcome r = inl tt /\ memory r = m /\ started r = []
  /\ Forall (fun c => housekeeping _ (c_call c) = true) (calls r).
Proof.
  intros Hp. cbv zeta.
  destruct (obeys_run idle p (fun m' => m' = m) w n m Hp) as (H1 & H2 & H3 & H4).
  - intros X op m' Hop ->. by apply reads_mem_sem.
  - done.
  - split; [| split; [done | split; [by apply H3 | done]]].
    destruct (outcome (run p w n m)) as [[] | f] eqn:Ho; [done |].
    by specialize (H2 f eq_refl).
Qed.

Lemma run_idle_then {B} (p : prog unit) (f : unit -> prog B) w n m :
  obeys idle p ->
  exists tr,
    Forall (fun c => housekeeping _ (c_call c) = true) tr
    /\ run (p ≫= f) w n m = after tr [] (run (f tt) w (n + length tr) m).
Proof.
  intros Hp. destruct (idle_run p w n m Hp) as (Ho & Hm & Hs & Hc).
  exists (calls (run p w n m)). split; [done |].
  rewrite run_bind. unfold then_. by rewrite Ho, Hm, Hs.
Qed.

(** ** The agent's own container *)

Section Self.

Variable time_Parse : string -> Time + error.
Variable rounds : nat.

(** The containers of a listing [handleRunning] does not take for the
    agent, and the last one it does. *)
Definition others (cs : list APIContainers) : list APIContainers :=
  List.filter (fun c => negb (agent_image (ac_Image c))) cs.

Definition self (cs : list APIContainers) : option APIContainers :=
  last (List.filter (fun c => agent_image (ac_Image c)) cs).

(** What [handleCreate] leaves behind, whatever the inspection says: one
    inspection, of its container; no goroutine, no pipe; the identity of
    the agent as it was. *)
Lemma handleCreate_run id w n m :
  let r := run (handleCreate id) w n m in
  started r = [] /\ (inspections (calls r)).*1 = [id]
  /\ pipes (calls r) = [] /\ agentId (memory r) = agentId m.
Proof.
  cbv zeta. unfold handleCreate.
  rewrite run_bind, run_logSystemf, then_done, run_bind, run_call, then_done.
  rewrite !started_after, !calls_after, !memory_after, !omap_app.
  rewrite system_calls_inspections, system_calls_pipes. cbn [app omap list_omap].
  cbn [inspection pipe c_call c_answer fmap list_fmap fst].
  match goal with |- context [run ?p ?w ?n ?m] =>
    assert (Hp : obeys calm p) end.
  { destruct (w _ (InspectContainer id) _); obeys_auto. }
  match goal with |- context [run ?p ?w ?n ?m] =>
    destruct (obeys_run calm p (fun m' => agentId m' = agentId m) w n m Hp)
      as (H1 & _ & H3 & H4) end.
  - intros X op m' Hop <-. by apply no_write_agentId.
  - done.
  - destruct (housekeeping_record _ H1) as (-> & -> & _).
    by rewrite H3.
Qed.

Lemma self_cons c cs :
  self (c :: cs) =
    match self cs with
    | Some a => Some a
    | None => if agent_image (ac_Image c) then Some c else None
    end.
Proof.
  unfold self. simpl. destruct (agent_image (ac_Image c)); [| by destruct (last _)].
  rewrite last_cons. by destruct (last _).
Qed.

(** The inventory: the containers with the agent's image are neither
    inspected nor followed, the last of them is recorded as the agent;
    every other container is inspected and then followed in a goroutine,
    as far as the pass gets. *)
Lemma handleRunning_range_run cs : forall w n m,
  let r := run (handleRunning_range time_Parse rounds cs) w n m in
  (exists rest,
      List.map (fun c => handleStart time_Parse rounds (ac_ID c)) (others cs)
      = started r ++ rest)
  /\ (inspections (calls r)).*1 `prefix_of` ac_ID <$> others cs
  /\ (outcome r = inl tt ->
      started r = List.map (fun c => handleStart time_Parse rounds (ac_ID c)) (others cs)
      /\ (inspections (calls r)).*1 = ac_ID <$> others cs
      /\ agentId (memory r) = from_option ac_ID (agentId m) (self cs)).
Proof.
  induction cs as [| c cs IH]; intros w n m; cbv zeta.
  - simpl. split; [by exists [] | split; [done |]]. intros _. by repeat split.
  - cbn [handleRunning_range]. rewrite run_bind. rewrite self_cons.
    unfold others. cbn [List.filter].
    destruct (agent_image (ac_Image c)) eqn:Himg; cbn [negb].
    + assert (Hrun : exists m', agentId m' = ac_ID c /\
        run (mem_ (m_write (with_agentId (ac_ID c)));;
             mem_ (m_write (with_agentImage (ac_Image c)));;
             match SplitN2 (ac_Image c) ":" with
             | [_; version] => mem_ (m_write (with_agentVersion version))
             | _ => mret ()
             end) w n m = mkResult (inl tt) m' [] []).
      { run_auto. destruct (SplitN2 (ac_Image c) ":") as [| ? [| ? [| ? ?]]];
          run_auto; eexists; (split; [| reflexivity]); reflexivity. }
      destruct Hrun as (m' & Hid & ->). rewrite then_done.
      rewrite started_after, calls_after, outcome_after, memory_after. cbn [app length].
      rewrite Nat.add_0_r.
      destruct (IH w n m') as (H1 & H2 & H3). fold (others cs).
      cbn [app].
      split; [done | split; [done |]]. intros Ho.
      destruct (H3 Ho) as (-> & -> & ->). rewrite Hid.
      split; [done | split; [done |]]. by destruct (self cs).
    + rewrite !run_bind, !run_logSystemf, !then_done, !run_bind.
      destruct (handleCreate_run (ac_ID c) w
                  (n + length (system_calls m "container handleRunning id=%s"
                                 [str (ac_ID c)] w n)) m)
        as (Hs & Hi & _ & Hid).
      destruct (run (handleCreate (ac_ID c)) _ _ _) as [o m1 tr1 sp1].
      cbn [started calls memory] in Hs, Hi, Hid. subst sp1.
      destruct o as [[] | f].
      * rewrite !then_done, !run_go, !after_done, !then_done.
        rewrite started_after, calls_after, outcome_after, memory_after.
        rewrite !omap_app, system_calls_inspections, !fmap_app. cbn [app].
        rewrite Hi. cbn [app fmap list_fmap List.map]. fold (others cs).
        match goal with |- context [run _ w ?k ?x] => destruct (IH w k x) as (H1 & H2 & H3) end.
        split; [destruct H1 as [rest ->]; by exists rest | split; [by apply prefix_cons |]].
        intros Hout. destruct (H3 Hout) as (-> & -> & ->). rewrite Hid.
        split; [done | split; [done |]]. by destruct (self cs).
      * rewrite !then_stop, !after_done, !then_stop. cbn [started calls outcome app].
        rewrite omap_app, system_calls_inspections. cbn [app]. rewrite Hi. cbn.
        split; [by eexists | split; [by apply prefix_cons, prefix_nil | done]].
Qed.

(** Whether [handleStart] subscribes to the logs of a container: it is
    not the agent's own and its captured environment names a log
    group. *)
Definition subscribes (m : Monitor) (id : string) : bool :=
  negb (String.eqb id (agentId m))
  && match envs m !! id with
     | Some env => nonempty (env_at env "LOG_GROUP")
     | None => false
     end.

Lemma handleStart_idle id w n m :
  subscribes m id = false ->
  let r := run (handleStart time_Parse rounds id) w n m in
  outcome r = inl tt /\ memory r = m /\ started r = []
  /\ Forall (fun c => housekeeping _ (c_call c) = true) (calls r).
Proof.
  intros Hsub. cbv zeta. unfold handleStart.
  destruct (run_idle_then (logSystemf "container handleStart at=start id=%s" [str id])
              (fun _ => updateCgroups id;;
                 agent ← mem_ (m_read agentId);
                 (if negb (String.eqb id agent) then
                    env ← mem_ (m_getEnv id);
                    match env with
                    | Some env =>
                        if nonempty (env_at env "LOG_GROUP")
                        then subscribeLogs time_Parse rounds id else mret tt
                    | None => mret tt
                    end
                  else mret tt);;
                 logSystemf "container handleStart at=end id=%s" [str id]) w n m)
    as (tr1 & Htr1 & ->); [auto with obeys |].
  match goal with |- context [run (?p ≫= ?f) ?w ?n ?m] =>
    destruct (run_idle_then p f w n m) as (tr2 & Htr2 & ->); [auto with obeys |] end.
  rewrite !run_bind, !run_mem, !then_done. cbn [mem_sem fst snd].
  assert (Hguard : forall k,
    run (if negb (String.eqb id (agentId m)) then
           env ← mem_ (m_getEnv id);
           match env with
           | Some env =>
               if nonempty (env_at env "LOG_GROUP")
               then subscribeLogs time_Parse rounds id else mret tt
           | None => mret tt
           end
         else mret tt) w k m
    = mkResult (inl tt) m [] []).
  { intros k. unfold subscribes in Hsub.
    destruct (negb (String.eqb id (agentId m))); [| reflexivity].
    rewrite run_bind, run_mem, then_done. cbn [mem_sem fst snd]. unfold Registry.getEnv.
    destruct (envs m !! id) as [env |]; [| reflexivity].
    simpl in Hsub. by rewrite Hsub. }
  rewrite !run_bind, !Hguard, !then_done, !run_logSystemf, !after_done.
  cbn [outcome memory started calls app].
  repeat split; try done.
  apply Forall_app; split; [done |]. apply Forall_app; split; [done |].
  match goal with |- context [system_calls _ _ _ _ ?k] =>
    destruct (obeys_run idle (logSystemf "container handleStart at=end id=%s" [str id])
                (fun _ => True) w k m) as (H & _);
      [auto with obeys | done | done |] end.
  by rewrite run_logSystemf in H.
Qed.

Lemma handleStart_busy id w n m :
  subscribes m id = true ->
  let r := run (handleStart time_Parse (S rounds) id) w n m in
  pipes (calls r) <> []
  /\ exists pipe wg exit rest,
       started r = readLines time_Parse (S rounds) id pipe wg exit :: rest.
Proof.
  intros Hsub. cbv zeta. unfold handleStart.
  match goal with |- context [run (?p ≫= ?f) ?w ?n ?m] =>
    destruct (run_idle_then p f w n m) as (tr1 & Htr1 & ->); [auto with obeys |] end.
  match goal with |- context [run (?p ≫= ?f) ?w ?n ?m] =>
    destruct (run_idle_then p f w n m) as (tr2 & Htr2 & ->); [auto with obeys |] end.
  rewrite !run_bind, !run_mem, !then_done. cbn [mem_sem fst snd].
  unfold subscribes in Hsub. apply andb_prop in Hsub as [Hid Henv].
  rewrite Hid. cbv iota.
  rewrite !run_bind, !run_mem, !then_done. cbn [mem_sem fst snd]. unfold Registry.getEnv.
  destruct (envs m !! id) as [env |]; [| discriminate]. rewrite Henv.
  unfold subscribeLogs. cbn [retry]. run_auto.
  repeat match goal with
         | |- context [then_ ?r ?f] =>
             destruct (then_extends r f) as (? & ? & -> & ->); run_auto
         end.
  rewrite !omap_app. cbn [app omap list_omap pipe c_call c_answer].
  rewrite system_calls_pipes.
  destruct (housekeeping_record _ Htr1) as (_ & -> & _).
  destruct (housekeeping_record _ Htr2) as (_ & -> & _).
  cbn [app]. split; [done |]. by repeat eexists.
Qed.

End Self.

(** C9.  The inventory inspects and follows the containers whose image is
    not the agent's, in their order and as far as it gets, and no other;
    when it gets to the end, the last container with the agent's image is
    recorded as the agent.  And [handleStart] opens a pipe and starts the
    reader of the log subscriber when the container is not the recorded
    agent and its captured environment names a log group, and only then:
    for the agent's own container it does neither. *)
Theorem subscriber_spares_agent (time_Parse : string -> Time + error) (rounds : nat) :
  (forall cs w n m,
     let r := run (handleRunning_range time_Parse rounds cs) w n m in
     (exists rest,
         List.map (fun c => handleStart time_Parse rounds (ac_ID c)) (others cs)
         = started r ++ rest)
     /\ (inspections (calls r)).*1 `prefix_of` ac_ID <$> others cs
     /\ (outcome r = inl tt ->
         started r = List.map (fun c => handleStart time_Parse rounds (ac_ID c)) (others cs)
         /\ (inspections (calls r)).*1 = ac_ID <$> others cs
         /\ agentId (memory r) = from_option ac_ID (agentId m) (self cs)))
  /\ (forall id w n m,
        let r := run (handleStart time_Parse (S rounds) id) w n m in
        (pipes (calls r) <> [] <-> subscribes m id = true)
        /\ (started r <> [] <-> subscribes m id = true))
  /\ (forall w n m,
        let r := run (handleStart time_Parse (S rounds) (agentId m)) w n m in
        pipes (calls r) = [] /\ started r = [] /\ outcome r = inl tt).
Proof.
  split; [| split].
  - apply handleRunning_range_run.
  - intros id w n m. cbv zeta.
    destruct (subscribes m id) eqn:Hsub.
    + destruct (handleStart_busy time_Parse rounds id w n m Hsub) as (Hp & pipe & wg & exit & rest & Hs).
      split; split; try done. intros _. by rewrite Hs.
    + destruct (handleStart_idle time_Parse (S rounds) id w n m Hsub) as (_ & _ & Hs & Hc).
      destruct (housekeeping_record _ Hc) as (_ & Hp & _).
      split; split; try discriminate; intros H; exfalso; apply H; assumption.
  - intros w n m. cbv zeta.
    assert (Hsub : subscribes m (agentId m) = false).
    { unfold subscribes. by rewrite String.eqb_refl. }
    destruct (handleStart_idle time_Parse (S rounds) _ w n m Hsub) as (Ho & _ & Hs & Hc).
    destruct (housekeeping_record _ Hc) as (_ & Hp & _). done.
Qed.



(** ** The line parser *)

(** A reading of RFC 3339 timestamps the way Docker writes them: a date
    and a time of day in fixed width, a fraction of up to nine digits, and
    [Z] or a numeric offset.  It stands in for Go's parser in the examples
    below; the theorems hold for any parser. *)
Module RFC3339.

Definition digit (c : ascii) : option Z :=
  let n := nat_of_ascii c in
  if Nat.leb 48 n && Nat.leb n 57 then Some (Z.of_nat (n - 48)) else None.

(** A number of exactly [k] digits at the head of the text. *)
Fixpoint number (k : nat) (acc : Z) (s : string) : option (Z * string) :=
  match k with
  | O => Some (acc, s)
  | S k =>
      match s with
      | String c r =>
          match digit c with
          | Some d => number k (acc * 10 + d) r
          | None => None
          end
      | EmptyString => None
      end
  end.

Definition expect (c : ascii) (s : string) : option string :=
  match s with
  | String a r => if Ascii.eqb a c then Some r else None
  | EmptyString => None
  end.

(** Up to [k] more digits of a fraction of a second, scaled to
    nanoseconds. *)
Fixpoint fraction (k : nat) (acc : Z) (s : string) : Z * string :=
  match k with
  | O => (acc, s)
  | S k =>
      match s with
      | String c r =>
          match digit c with
          | Some d => fraction k (acc + d * 10 ^ Z.of_nat k) r
          | None => (acc, s)
          end
      | EmptyString => (acc, s)
      end
  end.

Definition offset (s : string) : option Z :=
  match s with
  | String "Z" EmptyString => Some 0%Z
  | String sign r =>
      if Ascii.eqb sign "+" || Ascii.eqb sign "-" then
        '(h, r) ← number 2 0 r;
        r ← expect ":" r;
        '(m, r) ← number 2 0 r;
        match r with
        | EmptyString =>
            if (h <? 24)%Z && (m <? 60)%Z then
              Some ((if Ascii.eqb sign "-" then -1 else 1) * (h * 3600 + m * 60))%Z
            else None
        | _ => None
        end
      else None
  | EmptyString => None
  end.

Definition read (s : string) : option Time :=
  '(y, s) ← number 4 0 s;
  s ← expect "-" s;
  '(mo, s) ← number 2 0 s;
  s ← expect "-" s;
  '(d, s) ← number 2 0 s;
  s ← expect "T" s;
  '(h, s) ← number 2 0 s;
  s ← expect ":" s;
  '(mi, s) ← number 2 0 s;
  s ← expect ":" s;
  '(se, s) ← number 2 0 s;
  let '(ns, s) :=
    match s with
    | String "." (String c _ as r) =>
        match digit c with Some _ => fraction 9 0 r | None => (0%Z, s) end
    | _ => (0%Z, s)
    end in
  z ← offset s;
  if ((1 <=? mo) && (mo <=? 12) && (1 <=? d) && (d <=? 31)
      && (h <? 24) && (mi <? 60) && (se <? 60))%Z
  then Some (mkTime y mo d h mi se ns z) else None.

Definition Parse (value : string) : Time + error :=
  match read value with
  | Some t => inl t
  | None => inr (errorString ("parsing time " +:+ Quote value))
  end.

End RFC3339.

Example RFC3339_nanoseconds :
  RFC3339.Parse "2024-01-02T03:04:05.123456789Z" = inl (mkTime 2024 1 2 3 4 5 123456789 0).
Proof. reflexivity. Qed.

Example RFC3339_offset :
  RFC3339.Parse "2015-11-03T09:15:00.5+01:00" = inl (mkTime 2015 11 3 9 15 0 500000000 3600).
Proof. reflexivity. Qed.

Example RFC3339_not_a_time :
  RFC3339.Parse "hello" = inr (errorString ("parsing time " +:+ Quote "hello")).
Proof. reflexivity. Qed.

Section Parser.

Variable time_Parse : string -> Time + error.

(** A text the parser does not split: it has no space, or what stands
    before its first space is not a timestamp. *)
Definition unstamped (text : string) : Prop :=
  match SplitN2 text " " with
  | [stamp; _] => exists e, time_Parse stamp = inr e
  | _ => True
  end.

(** The line the parser makes of a text for a container. *)
Definition formatted (m : Monitor) (id text : string) : string :=
  let env : Env := default ∅ (envs m !! id) in
  Sprintf "%s:%s/%s %s"
    [str (env_at env "PROCESS"); str (env_at env "RELEASE");
     str (substring 0 12 id); str text].

(** The timestamp and the text the parser goes on with, for a clock
    reading and a text less its last byte. *)
Definition stamp_of (now : Time) (text : string) : Time * string :=
  match SplitN2 text " " with
  | [stamp; rest] =>
      match time_Parse stamp with
      | inl t => (t, rest)
      | inr _ => (now, text)
      end
  | _ => (now, text)
  end.

(** Where a line goes: to the sink of its container when there is one,
    and to the buffer of the stream its environment names when it names
    one. *)
Lemma parseAndForwardLine_routes id text c w n m :
  (12 <= String.length id)%nat ->
  let r := run (parseAndForwardLine time_Parse id (text +:+ String c EmptyString)) w n m in
  let now := w _ time_Now n in
  let ts := (stamp_of now text).1 in
  let l := formatted m id (stamp_of now text).2 in
  let k := env_at (default ∅ (envs m !! id)) "KINESIS" in
  outcome r = inl tt
  /\ head (clocks (calls r)) = Some now
  /\ (forall lg, loggers m !! id = Some lg -> In (lg, mkMessage id l ts) (written (calls r)))
  /\ memory r =
       if nonempty k
       then Registry.addLine m k (Sprintf "%s %s" [str (GoTime.Format_legacy ts); str l])
       else m.
Proof.
  intros Hid. cbv zeta. unfold parseAndForwardLine, formatted, stamp_of.
  rewrite run_bind, slice_last, run_checked_Some, then_done.
  rewrite slice_short.
  destruct (Nat.ltb_spec (String.length id) 12) as [? | _]; [lia |].
  rewrite !run_bind, !run_call, !then_done. rewrite !Nat.add_0_r.
  set (now := w Time time_Now n).
  set (env := default ∅ (envs m !! id)).
  assert (Hstep : forall (ts : Time) (body : string) k,
    let r :=
      (run (found ← mem_ (m_getEnv id);
            let env : Env := default ∅ found in
            short ← checked slice_bounds_out_of_range (Some (substring 0 12 id));
            let l := Sprintf "%s:%s/%s %s"
                       [str (env_at env "PROCESS"); str (env_at env "RELEASE");
                        str short; str body] in
            lg ← mem_ (m_getLogger id);
            match lg with
            | Some awslogger =>
                e ← call (Logger_Log awslogger (mkMessage id l ts));
                match e with
                | Some e => logSystemf "container subscribeLogs awslogger.Log err=%q" [err e]
                | None => mret tt
                end
            | None => mret tt
            end;;
            let k := env_at env "KINESIS" in
            if nonempty k
            then mem_ (m_addLine k (Sprintf "%s %s" [str (GoTime.Format_legacy ts); str l]))
            else mret tt) w k m) in
    let l := Sprintf "%s:%s/%s %s"
               [str (env_at env "PROCESS"); str (env_at env "RELEASE");
                str (substring 0 12 id); str body] in
    outcome r = inl tt
    /\ (forall lg, loggers m !! id = Some lg -> In (lg, mkMessage id l ts) (written (calls r)))
    /\ memory r =
         if nonempty (env_at env "KINESIS")
         then Registry.addLine m (env_at env "KINESIS")
                (Sprintf "%s %s" [str (GoTime.Format_legacy ts); str l])
         else m).
  { intros ts body k. cbv zeta.
    run_auto. unfold Registry.getEnv, Registry.getLogger. fold env.
    destruct (loggers m !! id) as [lg |].
    - run_auto.
      match goal with |- context [match ?x with Some _ => logSystemf _ _ | None => _ end] =>
        destruct x end;
      run_auto; (destruct (nonempty (env_at env "KINESIS")); run_auto);
      (split; [reflexivity | split; [| reflexivity]]);
      intros ? [= <-]; rewrite ?omap_app; cbn; rewrite ?in_app_iff; cbn;
      intuition reflexivity.
    - run_auto. destruct (nonempty (env_at env "KINESIS")); run_auto;
        (split; [reflexivity | split; [| reflexivity]]); intros ? [=]. }
  assert (Hgoal : forall (ts : Time) (body : string) tr,
    let r :=
      after [Called time_Now now]  []
        (then_ (mkResult (inl (ts, body)) m tr [])
           (fun a k m' =>
              run (let '(ts, line) := a in
                   found ← mem_ (m_getEnv id);
                   let env : Env := default ∅ found in
                   short ← checked slice_bounds_out_of_range (Some (substring 0 12 id));
                   let l := Sprintf "%s:%s/%s %s"
                              [str (env_at env "PROCESS"); str (env_at env "RELEASE");
                               str short; str line] in
                   lg ← mem_ (m_getLogger id);
                   match lg with
                   | Some awslogger =>
                       e ← call (Logger_Log awslogger (mkMessage id l ts));
                       match e with
                       | Some e =>
                           logSystemf "container subscribeLogs awslogger.Log err=%q" [err e]
                       | None => mret tt
                       end
                   | None => mret tt
                   end;;
                   let k := env_at env "KINESIS" in
                   if nonempty k
                   then mem_ (m_addLine k
                                (Sprintf "%s %s" [str (GoTime.Format_legacy ts); str l]))
                   else mret tt) w (n + length [Called time_Now now] + k) m')) in
    let l := Sprintf "%s:%s/%s %s"
               [str (env_at env "PROCESS"); str (env_at env "RELEASE");
                str (substring 0 12 id); str body] in
    outcome r = inl tt
    /\ head (clocks (calls r)) = Some now
    /\ (forall lg, loggers m !! id = Some lg -> In (lg, mkMessage id l ts) (written (calls r)))
    /\ memory r =
         if nonempty (env_at env "KINESIS")
         then Registry.addLine m (env_at env "KINESIS")
                (Sprintf "%s %s" [str (GoTime.Format_legacy ts); str l])
         else m).
  { intros ts body tr. cbv zeta. rewrite then_done.
    rewrite !outcome_after, !memory_after, !calls_after.
    match goal with |- context [run _ w ?k m] =>
      destruct (Hstep ts body k) as (H1 & H2 & H3) end.
    split; [exact H1 | split; [reflexivity | split; [| exact H3]]].
    intros lg Hlg. specialize (H2 lg Hlg).
    rewrite ?omap_app. cbn. rewrite ?in_app_iff. tauto. }
  destruct (SplitN2 text " ") as [| stamp [| rest [| ? ?]]];
    try (rewrite run_bind, run_ret; apply (Hgoal now text [])).
  destruct (time_Parse stamp).
  + rewrite run_bind, run_ret. apply (Hgoal t rest []).
  + rewrite !run_bind, run_logSystemf, then_done, run_ret, after_done.
    apply (Hgoal now text).
Qed.

(** The environment of the example: a web process of release R1. *)
Definition web_env : Env := <[ "PROCESS" := "web" ]> (<[ "RELEASE" := "R1" ]> ∅).

(** X25.  The line made of the timestamp 2024-01-02T03:04:05.123456789Z,
    a space, hello and a newline, for the container abcdef012345678 whose
    environment says PROCESS web and RELEASE R1, is written to the sink
    of the container as web:R1/abcdef012345 hello with that timestamp,
    and nothing is buffered.  And a line that ends in a newline and does
    not begin with a timestamp and a space is written whole, less the
    newline, with the time the clock showed when the line was taken up;
    the same goes to the buffer of the Kinesis stream when the
    environment names one. *)
Theorem parser_formats_lines :
  (forall w n m lg,
     time_Parse "2024-01-02T03:04:05.123456789Z" = inl (mkTime 2024 1 2 3 4 5 123456789 0) ->
     envs m !! "abcdef012345678" = Some web_env ->
     loggers m !! "abcdef012345678" = Some lg ->
     let r := run (parseAndForwardLine time_Parse "abcdef012345678"
                     ("2024-01-02T03:04:05.123456789Z hello" +:+ String "010" EmptyString))
                w n m in
     outcome r = inl tt
     /\ In (lg, mkMessage "abcdef012345678" "web:R1/abcdef012345 hello"
                 (mkTime 2024 1 2 3 4 5 123456789 0))
           (written (calls r))
     /\ memory r = m)
  /\ (forall id text w n m,
        (12 <= String.length id)%nat ->
        unstamped text ->
        let r := run (parseAndForwardLine time_Parse id (text +:+ String "010" EmptyString))
                   w n m in
        let now := w _ time_Now n in
        let l := formatted m id text in
        let k := env_at (default ∅ (envs m !! id)) "KINESIS" in
        outcome r = inl tt
        /\ head (clocks (calls r)) = Some now
        /\ (forall lg, loggers m !! id = Some lg ->
              In (lg, mkMessage id l now) (written (calls r)))
        /\ memory r =
             if nonempty k
             then Registry.addLine m k
                    (Sprintf "%s %s" [str (GoTime.Format_legacy now); str l])
             else m).
Proof.
  split.
  - intros w n m lg Hparse Henv Hlg. cbv zeta.
    destruct (parseAndForwardLine_routes "abcdef012345678"
                "2024-01-02T03:04:05.123456789Z hello" "010" w n m)
      as (Ho & _ & Hw & Hm); [simpl; lia |].
    unfold stamp_of in Hw, Hm.
    change (SplitN2 "2024-01-02T03:04:05.123456789Z hello" " ")
      with ["2024-01-02T03:04:05.123456789Z"; "hello"] in Hw, Hm.
    cbv beta iota in Hw, Hm. rewrite Hparse in Hw, Hm. cbn [fst snd] in Hw, Hm.
    unfold formatted in Hw, Hm. rewrite Henv in Hw, Hm.
    change (default ∅ (Some web_env)) with web_env in Hw, Hm.
    change (env_at web_env "PROCESS") with "web" in Hw, Hm.
    change (env_at web_env "RELEASE") with "R1" in Hw, Hm.
    change (env_at web_env "KINESIS") with EmptyString in Hm.
    split; [exact Ho | split; [exact (Hw lg Hlg) | exact Hm]].
  - intros id text w n m Hid Htext. cbv zeta.
    destruct (parseAndForwardLine_routes id text "010" w n m Hid) as (Ho & Hc & Hw & Hm).
    assert (Hs : stamp_of (w Time time_Now n) text = (w Time time_Now n, text)).
    { unfold stamp_of, unstamped in *.
      destruct (SplitN2 text " ") as [| stamp [| rest [| ? ?]]]; try done.
      by destruct Htext as [e ->]. }
    rewrite Hs in Hw, Hm. done.
Qed.

End Parser.

(** A monitor that knows the container of the example, with its sink. *)
Definition web_monitor : Monitor :=
  Registry.setLogger (Registry.setEnv dev "abcdef012345678" web_env)
    "abcdef012345678" (mkLogger 1).

(** The example with the reading of timestamps given above, and a line
    without a timestamp. *)
Lemma parser_formats_lines_witness :
  In (mkLogger 1, mkMessage "abcdef012345678" "web:R1/abcdef012345 hello"
                    (mkTime 2024 1 2 3 4 5 123456789 0))
     (written (calls (run (parseAndForwardLine RFC3339.Parse "abcdef012345678"
                             ("2024-01-02T03:04:05.123456789Z hello" +:+ String "010" EmptyString))
                        silent 0 web_monitor)))
  /\ In (mkLogger 1, mkMessage "abcdef012345678" "web:R1/abcdef012345 Listening on 5000" epoch)
       (written (calls (run (parseAndForwardLine RFC3339.Parse "abcdef012345678"
                               ("Listening on 5000" +:+ String "010" EmptyString))
                          silent 0 web_monitor))).
Proof.
  destruct (parser_formats_lines RFC3339.Parse) as [Hexample Hplain]. split.
  - destruct (Hexample silent 0 web_monitor (mkLogger 1)) as (_ & H & _);
      [reflexivity | reflexivity | reflexivity | exact H].
  - destruct (Hplain "abcdef012345678" "Listening on 5000" silent 0 web_monitor)
      as (_ & _ & H & _).
    + simpl. lia.
    + unfold unstamped. simpl. eexists. reflexivity.
    + exact (H (mkLogger 1) eq_refl).
Defined.

(** Without the newline the last letter is lost: what reaches the sink for
    the line of the example is web:R1/abcdef012345 hell. *)
Lemma parser_formats_lines_counterexample :
  let r := run (parseAndForwardLine RFC3339.Parse "abcdef012345678"
                  "2024-01-02T03:04:05.123456789Z hello") silent 0 web_monitor in
  written (calls r)
  = [(mkLogger 1, mkMessage "abcdef012345678" "web:R1/abcdef012345 hell"
                    (mkTime 2024 1 2 3 4 5 123456789 0))]
  /\ ~ In (mkLogger 1, mkMessage "abcdef012345678" "web:R1/abcdef012345 hello"
                         (mkTime 2024 1 2 3 4 5 123456789 0))
         (written (calls r)).
Proof.
  cbv zeta.
  assert (H : written (calls (run (parseAndForwardLine RFC3339.Parse "abcdef012345678"
                  "2024-01-02T03:04:05.123456789Z hello") silent 0 web_monitor))
    = [(mkLogger 1, mkMessage "abcdef012345678" "web:R1/abcdef012345 hell"
                    (mkTime 2024 1 2 3 4 5 123456789 0))]) by (by vm_compute).
  split; [exact H |]. rewrite H. intros [Heq | []]. discriminate Heq.
Qed.

(** *** The last line of a stream *)

Definition reading (c : called) : option (string * option error) :=
  match c_call c in ext X return X -> option (string * option error) with
  | ReadString _ => fun x => Some x
  | _ => fun _ => None
  end (c_answer c).

(** What a run has read from its pipe, with the error of each reading. *)
Abbreviation readings := (omap reading).

(** A world in which the output of the container ends without a newline:
    the pipe gives what is left, the line of the example, together with
    [io.EOF], as [ReadString] does at the end of a stream, and [exit] is
    found closed once that has been read. *)
Definition unterminated : world :=
  fun X c n =>
    match c in ext X return X with
    | ReadString _ => ("2024-01-02T03:04:05.123456789Z hello", Some EOF)
    | chan_closed _ => Nat.ltb 2 n
    | c => silent _ c n
    end.

(** C3.  The reader at the end of a stream whose last line has no
    newline: it looks at [exit], reads the line with [io.EOF], hands it
    to the parser as it is, finds [exit] closed and ends.  The parser
    cuts the last byte, which here is the last letter of the message, so
    that for the container abcdef012345678 with PROCESS web and RELEASE
    R1 the sink gets web:R1/abcdef012345 hell, not web:R1/abcdef012345
    hello, with the timestamp of the line. *)
Theorem readLines_cuts_unterminated_line :
  let r := run (readLines RFC3339.Parse 2 "abcdef012345678" 1 2 3) unterminated 0 web_monitor in
  outcome r = inl tt
  /\ readings (calls r) = [("2024-01-02T03:04:05.123456789Z hello", Some EOF)]
  /\ written (calls r)
     = [(mkLogger 1, mkMessage "abcdef012345678" "web:R1/abcdef012345 hell"
                       (mkTime 2024 1 2 3 4 5 123456789 0))]
  /\ ~ In (mkLogger 1, mkMessage "abcdef012345678" "web:R1/abcdef012345 hello"
                         (mkTime 2024 1 2 3 4 5 123456789 0))
         (written (calls r)).
Proof.
  cbv zeta.
  assert (H : written (calls (run (readLines RFC3339.Parse 2 "abcdef012345678" 1 2 3)
                                unterminated 0 web_monitor))
    = [(mkLogger 1, mkMessage "abcdef012345678" "web:R1/abcdef012345 hell"
                      (mkTime 2024 1 2 3 4 5 123456789 0))]) by (by vm_compute).
  split; [by vm_compute | split; [by vm_compute | split; [exact H |]]].
  rewrite H. intros [Heq | []]. discriminate Heq.
Qed.


(** ** The log subscriber *)

(** What an inspection says about going on: the container is there and
    has stopped, or it is not there, and the subscription ends; anything
    else and it goes round again. *)
Definition terminal (answer : Container + error) : bool :=
match answer with
| inl c => negb (ct_State_Running c)
| inr (NoSuchContainer _) => true
| inr _ => false
end.

Definition verdict (answer : Container + error) : control :=
if terminal answer then break else continue.

(** The three outcomes the specification lists for the reconciliation. *)
Definition still_running (answer : Container + error) (r : result control) : Prop :=
(exists c, answer = inl c /\ ct_State_Running c = true)
/\ outcome r = inl continue /\ closed (calls r) = [].

Definition not_found (answer : Container + error) (r : result control) : Prop :=
(exists ID, answer = inr (NoSuchContainer ID))
/\ outcome r = inl break /\ reported (calls r) <> [].

Definition indeterminate (answer : Container + error) (r : result control) : Prop :=
(exists e, answer = inr e /\ forall ID, e <> NoSuchContainer ID)
/\ outcome r = inl continue /\ reported (calls r) <> [].

(** The fourth, which the code has: the container is there and has
    stopped. *)
Definition stopped (answer : Container + error) (r : result control) : Prop :=
(exists c, answer = inl c /\ ct_State_Running c = false)
/\ outcome r = inl break /\ calls r = [].

Section Subscriber.

Variable time_Parse : string -> Time + error.
Variable rounds : nat.

Lemma report_calls_facts m e w n :
  reported (report_calls m e w n) = [e]
  /\ printed (report_calls m e w n) = [system_line m "monitor ReportError err=%q" [err e]]
  /\ closed (report_calls m e w n) = []
  /\ inspections (report_calls m e w n) = []
  /\ pipes (report_calls m e w n) = [].
Proof.
  unfold report_calls. rewrite !omap_app.
  rewrite system_calls_reported, system_calls_printed, system_calls_closed,
    system_calls_inspections, system_calls_pipes.
  by repeat split.
Qed.

(** The reconciliation for each answer of the inspection. *)
Lemma reconcile_run id answer w n m :
  let r := run (reconcile id answer) w n m in
  outcome r = inl (verdict answer) /\ memory r = m /\ started r = []
  /\ closed (calls r) = [] /\ inspections (calls r) = [] /\ pipes (calls r) = []
  /\ match answer with
     | inl c =>
         reported (calls r) = []
         /\ if ct_State_Running c
            then printed (calls r)
                 = [system_line m "container subscribeLogs id=%s count#DockerLogsRetry=1" [str id]]
            else calls r = []
     | inr (NoSuchContainer ID) =>
         reported (calls r) = [NoSuchContainer ID]
         /\ printed (calls r)
            = [system_line m "monitor ReportError err=%q" [err (NoSuchContainer ID)]]
     | inr e =>
         reported (calls r) = [e]
         /\ printed (calls r)
            = [system_line m
                 "container subscribeLogs id=%s err=%q count#DockerInspectError=1 count#DockerLogsRetry=1"
                 [str id; err e];
               system_line m "monitor ReportError err=%q" [err e]]
     end.
Proof.
  cbv zeta. unfold reconcile, verdict, terminal.
  destruct answer as [c | e].
  - destruct (ct_State_Running c); cbn [negb]; run_auto; rewrite ?app_nil_r;
      rewrite ?system_calls_closed, ?system_calls_inspections, ?system_calls_pipes,
        ?system_calls_reported, ?system_calls_printed; by repeat split.
  - destruct e as [ID | | msg]; run_auto; rewrite ?app_nil_r, ?omap_app;
      rewrite ?system_calls_closed, ?system_calls_inspections, ?system_calls_pipes,
        ?system_calls_reported, ?system_calls_printed;
      repeat match goal with
             | |- context [report_calls ?m ?e ?w ?n] =>
                 destruct (report_calls_facts m e w n) as (-> & -> & -> & -> & ->)
             end; by repeat split.
Qed.

(** Whether the subscription came to its end: the last inspection it made
    says so. *)
Definition ended (tr : list called) : bool :=
match last (inspections tr) with
| Some (_, answer) => terminal answer
| None => false
end.

(** The loop: every round opens one pipe and makes one inspection of the
    container; after an inspection that is not terminal comes another
    round, after a terminal one none; no sink is closed and the memory is
    not touched. *)
Lemma retry_run id n : forall w k m,
  let r := run (retry time_Parse rounds n id) w k m in
  memory r = m /\ closed (calls r) = []
  /\ Forall (fun v => v.1 = id) (inspections (calls r))
  /\ length (pipes (calls r)) = length (inspections (calls r))
  /\ ((outcome r = inl tt
       /\ exists vs answer,
            inspections (calls r) = vs ++ [(id, answer)] /\ terminal answer = true
            /\ Forall (fun v => terminal v.2 = false) vs)
      \/ (outcome r = inr unfolded
          /\ Forall (fun v => terminal v.2 = false) (inspections (calls r)))).
Proof.
  induction n as [| n IH]; intros w k m; cbv zeta.
  - cbn [retry]. rewrite run_abort. cbn. repeat split; try done. right. by split.
  - cbn [retry].
    rewrite !run_bind, !run_call, !then_done.
    repeat (rewrite ?run_bind, ?run_call, ?run_go, ?then_done, ?after_done).
    match goal with |- context [reconcile id ?a] => set (answer := a) end.
    match goal with |- context [run (reconcile id answer) w ?j m] =>
      destruct (reconcile_run id answer w j m)
        as (Ho & Hm & Hs & Hc & Hi & Hp & _);
      destruct (run (reconcile id answer) w j m) as [o m1 tr1 sp1] end.
    cbn [outcome memory calls started] in Ho, Hm, Hs, Hc, Hi, Hp. subst o m1 sp1.
    rewrite then_done. unfold verdict.
    destruct (terminal answer) eqn:Hterm.
    + rewrite run_ret, !after_done. cbn [outcome memory calls app].
      cbn [omap list_omap close inspection pipe c_call c_answer].
      rewrite ?omap_app, ?Hc, ?Hi, ?Hp. cbn.
      repeat split; try done.
      * by repeat constructor.
      * left. split; [done |]. exists [], answer. by repeat split.
    + match goal with |- context [run (retry _ _ n id) w ?j m] =>
        destruct (IH w j m) as (IHm & IHc & IHi & IHp & IHo);
        destruct (run (retry time_Parse rounds n id) w j m) as [o m1 tr2 sp2] end.
      cbn [outcome memory calls started] in IHm, IHc, IHi, IHp, IHo. subst m1.
      rewrite !after_done. cbn [outcome memory calls app].
      cbn [omap list_omap close inspection pipe c_call c_answer].
      rewrite ?omap_app, ?Hc, ?Hi, ?Hp, ?IHc. cbn. rewrite ?IHp.
      repeat split; try done.
      * by constructor.
      * destruct IHo as [(-> & vs & last_answer & -> & Hlast & Hvs) | (-> & Hall)].
        -- left. split; [done |]. exists ((id, answer) :: vs), last_answer.
           repeat split; try done. by constructor.
        -- right. split; [done |]. by constructor.
Qed.

Lemma closeLogger_run id w k m :
  let r := run (closeLogger id) w k m in
  outcome r = inl tt /\ memory r = m /\ started r = []
  /\ closed (calls r) = match loggers m !! id with Some lg => [lg] | None => [] end
  /\ inspections (calls r) = [] /\ pipes (calls r) = [].
Proof.
  cbv zeta. unfold closeLogger. run_auto. unfold Registry.getLogger.
  destruct (loggers m !! id) as [lg |]; run_auto; [| by repeat split].
  destruct (w _ (Logger_Close lg) _) as [e |]; run_auto; rewrite ?omap_app; cbn;
    rewrite ?omap_app, ?system_calls_closed, ?system_calls_inspections, ?system_calls_pipes;
    repeat match goal with
           | |- context [report_calls ?m ?e ?w ?n] =>
               destruct (report_calls_facts m e w n) as (_ & _ & -> & -> & ->)
           end; by repeat split.
Qed.

Lemma ended_snoc tr vs id answer :
  inspections tr = vs ++ [(id, answer)] -> ended tr = terminal answer.
Proof. unfold ended. intros ->. by rewrite last_snoc. Qed.

Lemma ended_never tr :
  Forall (fun v => terminal v.2 = false) (inspections tr) -> ended tr = false.
Proof.
  unfold ended. intros Hall.
  destruct (last (inspections tr)) as [[id answer] |] eqn:Hlast; [| done].
  apply last_Some in Hlast as [vs Hvs]. rewrite Hvs in Hall.
  apply Forall_app in Hall as [_ Hall]. by inversion Hall.
Qed.

(** The subscription as a whole. *)
Lemma subscribeLogs_run id w n m :
  let r := run (subscribeLogs time_Parse rounds id) w n m in
  memory r = m
  /\ Forall (fun v => v.1 = id) (inspections (calls r))
  /\ length (pipes (calls r)) = length (inspections (calls r))
  /\ (forall vs v, inspections (calls r) = vs ++ [v] ->
        Forall (fun v => terminal v.2 = false) vs)
  /\ outcome r = (if ended (calls r) then inl tt else inr unfolded)
  /\ closed (calls r) =
       if ended (calls r)
       then match loggers m !! id with Some lg => [lg] | None => [] end
       else [].
Proof.
  cbv zeta. unfold subscribeLogs.
  rewrite run_bind, run_logSystemf, then_done, run_bind.
  match goal with |- context [run (retry _ _ _ _) w ?k m] =>
    destruct (retry_run id rounds w k m) as (Hm & Hc & Hi & Hp & Ho);
    destruct (run (retry time_Parse rounds rounds id) w k m) as [o m1 tr sp] end.
  cbn [outcome memory calls started] in Hm, Hc, Hi, Hp, Ho. subst m1.
  destruct Ho as [(-> & vs & answer & Hvs & Hlast & Hall) | (-> & Hall)].
  - rewrite then_done, run_bind.
    match goal with |- context [run (closeLogger id) w ?k m] =>
      destruct (closeLogger_run id w k m) as (Ho' & Hm' & Hs' & Hc' & Hi' & Hp');
      destruct (run (closeLogger id) w k m) as [o m1 tr' sp'] end.
    cbn [outcome memory calls started] in Ho', Hm', Hs', Hc', Hi', Hp'. subst o m1 sp'.
    rewrite then_done, run_logSystemf, !after_done. cbn [outcome memory calls].
    assert (Hins : inspections
      (system_calls m "container subscribeLogs id=%s at=start" [str id] w n ++
       tr ++ tr' ++
       system_calls m "container subscribeLogs id=%s at=end" [str id] w
         (n + length (system_calls m "container subscribeLogs id=%s at=start" [str id] w n)
          + length tr + length tr')) = inspections tr).
    { by rewrite !omap_app, !system_calls_inspections, Hi', !app_nil_r. }
    rewrite Hins. rewrite (ended_snoc _ vs id answer) by (by rewrite Hins).
    rewrite Hlast. rewrite !omap_app, !system_calls_closed, !system_calls_pipes, Hc, Hc', Hp'.
    cbn [app]. rewrite !app_nil_r.
    repeat split; try done.
    intros vs' v Heq. rewrite Hvs in Heq. apply app_inj_tail in Heq as [<- _]. done.
  - rewrite then_stop, after_done. cbn [outcome memory calls].
    assert (Hins : inspections
      (system_calls m "container subscribeLogs id=%s at=start" [str id] w n ++ tr)
      = inspections tr).
    { by rewrite !omap_app, !system_calls_inspections. }
    rewrite Hins. rewrite ended_never by (by rewrite Hins).
    rewrite !omap_app, !system_calls_closed, !system_calls_pipes, Hc. cbn [app].
    repeat split; try done.
    intros vs v Heq. rewrite Heq in Hall. by apply Forall_app in Hall as [Hall _].
Qed.

(** C2.  Once the follower and the reader are done, the inspection
    decides among four outcomes, and each answer brings about its own and
    no other: the container runs, and a retry is counted and the loop goes
    round; the container has stopped, and the loop ends without a word;
    the container is not found, and the error is reported and the loop
    ends; any other error, and it is reported, a retry is counted and the
    loop goes round.  No outcome closes a sink.  The subscription closes
    the sink of the container, when it has one, once, and exactly when the
    loop has ended, which it has when its last inspection says stopped or
    not found; every earlier inspection was followed by another round with
    a pipe of its own. *)
Theorem subscriber_reconciles :
  (forall id answer w n m,
     let r := run (reconcile id answer) w n m in
     (still_running answer r <-> exists c, answer = inl c /\ ct_State_Running c = true)
     /\ (stopped answer r <-> exists c, answer = inl c /\ ct_State_Running c = false)
     /\ (not_found answer r <-> exists ID, answer = inr (NoSuchContainer ID))
     /\ (indeterminate answer r <->
           exists e, answer = inr e /\ forall ID, e <> NoSuchContainer ID)
     /\ closed (calls r) = [] /\ memory r = m
     /\ match answer with
        | inl c =>
            if ct_State_Running c
            then printed (calls r)
                 = [system_line m "container subscribeLogs id=%s count#DockerLogsRetry=1"
                      [str id]]
            else printed (calls r) = []
        | inr (NoSuchContainer ID) =>
            printed (calls r)
            = [system_line m "monitor ReportError err=%q" [err (NoSuchContainer ID)]]
        | inr e =>
            printed (calls r)
            = [system_line m
                 "container subscribeLogs id=%s err=%q count#DockerInspectError=1 count#DockerLogsRetry=1"
                 [str id; err e];
               system_line m "monitor ReportError err=%q" [err e]]
        end)
  /\ (forall id w n m,
        let r := run (subscribeLogs time_Parse rounds id) w n m in
        memory r = m
        /\ Forall (fun v => v.1 = id) (inspections (calls r))
        /\ length (pipes (calls r)) = length (inspections (calls r))
        /\ (forall vs v, inspections (calls r) = vs ++ [v] ->
              Forall (fun v => terminal v.2 = false) vs)
        /\ outcome r = (if ended (calls r) then inl tt else inr unfolded)
        /\ closed (calls r) =
             if ended (calls r)
             then match loggers m !! id with Some lg => [lg] | None => [] end
             else []).
Proof.
  split; [| apply subscribeLogs_run].
  intros id answer w n m. cbv zeta.
  destruct (reconcile_run id answer w n m) as (Ho & Hm & Hs & Hc & Hi & Hp & Hd).
  unfold still_running, stopped, not_found, indeterminate.
  rewrite Ho. unfold verdict, terminal.
  split; [| split; [| split; [| split; [| split; [done | split; [done |]]]]]].
  - split; [by intros [H _] |]. intros (c & -> & Hrun). rewrite Hrun.
    split; [by exists c | by split].
  - split; [by intros [H _] |]. intros (c & -> & Hrun). rewrite Hrun in *.
    split; [by exists c |]. split; [done |]. by destruct Hd as [_ Hd].
  - split; [by intros [H _] |]. intros (ID & ->).
    split; [by exists ID |]. split; [done |]. destruct Hd as [-> _]. done.
  - split; [by intros [H _] |]. intros (e & -> & Hne).
    split; [by exists e |].
    destruct e as [ID | |]; [by destruct (Hne ID) | |]; destruct Hd as [-> _]; by split.
  - destruct answer as [c | [ID | |]]; try by destruct Hd.
    destruct (ct_State_Running c); destruct Hd as [_ Hd]; [done | by rewrite Hd].
Qed.

End Subscriber.

(** A container that is there and has stopped. *)
Definition at_rest : Container :=
  mkContainer "abcdef012345678" "/web" "/bin/web" [] "sha256:1" epoch "web:1" [] [] false.

(** A world like the silent one in which Docker finds the container of
    the example at rest. *)
Definition resting : world :=
  fun X c n =>
    match c in ext X return X with
    | InspectContainer _ => inl at_rest
    | c => silent _ c n
    end.

(** A subscription on a container that has stopped makes one round and
    closes the sink. *)
Lemma subscriber_reconciles_witness :
  stopped (inl at_rest) (run (reconcile "abcdef012345678" (inl at_rest)) silent 0 web_monitor)
  /\ closed (calls (run (subscribeLogs RFC3339.Parse 3 "abcdef012345678") resting 0 web_monitor))
     = [mkLogger 1].
Proof.
  destruct (subscriber_reconciles RFC3339.Parse 3) as [Hone Hloop]. split.
  - apply Hone. by exists at_rest.
  - destruct (Hloop "abcdef012345678" resting 0 web_monitor) as (_ & _ & _ & _ & _ & ->).
    reflexivity.
Defined.

(** The inspection that finds the container at rest brings about none of
    the three outcomes of the specification. *)
Lemma subscriber_reconciles_counterexample :
  let answer : Container + error := inl at_rest in
  let r := run (reconcile "abcdef012345678" answer) silent 0 web_monitor in
  ~ (still_running answer r \/ not_found answer r \/ indeterminate answer r).
Proof.
  cbv zeta. intros [H | [H | H]].
  - destruct H as [(c & [= <-] & Hrun) _]. discriminate Hrun.
  - destruct H as [(ID & [=]) _].
  - destruct H as [(e & [=] & _) _].
Qed.



(** ** The batched forwarder *)

(** A record of an answer that carries an error code. *)
Definition flagged (r : PutRecordsResultEntry) : bool :=
match ErrorCode r with Some _ => true | None => false end.

(** A record whose error code, when it has one, comes with a message, as
    Kinesis sends them. *)
Definition complete (r : PutRecordsResultEntry) : Prop :=
flagged r = true -> ErrorMessage r <> None.

Definition failures (rs : list PutRecordsResultEntry) : Z :=
Z.of_nat (length (List.filter flagged rs)).

(** The text the forwarder keeps of the errors: that of the last flagged
    record. *)
Definition last_failure (rs : list PutRecordsResultEntry) (none : string) : string :=
fold_left
  (fun msg r =>
     match ErrorCode r, ErrorMessage r with
     | Some code, Some message => Sprintf "%s - %s" [str code; str message]
     | _, _ => msg
     end)
  rs none.

(** The lines of a stream a run has submitted, batch after batch. *)
Definition submitted (stream : string) (tr : list called) : list string :=
concat
  (List.map
     (fun p : string * list PutRecordsRequestEntry * (option PutRecordsOutput * option error) =>
        if String.eqb p.1.1 stream then List.map Data p.1.2 else [])
     (puts tr)).

(** Housekeeping that leaves the memory as it is but may stop short. *)
Definition harmless : policy := mkPolicy housekeeping reads (fun _ => true) false false.

(** What the line about a partly failed batch says. *)
Definition summary (m : Monitor) (stream : string) (rs : list PutRecordsResultEntry) : string :=
system_line m
  "container streamLogs stream=%s count#KinesisRecordsSuccesses=%d count#KinesisRecordsErrors=%d err=%q"
  [str stream; int (Z.of_nat (length rs)); int (failures rs); str (last_failure rs EmptyString)].

Section Forwarder.

Lemma harmless_logSystemf format a : obeys harmless (logSystemf format a).
Proof. unfold logSystemf. obeys_auto. Qed.
#[local] Hint Resolve harmless_logSystemf : obeys.

Lemma harmless_run {A} (p : prog A) w n m :
  obeys harmless p ->
  let r := run p w n m in
  memory r = m /\ started r = [] /\ puts (calls r) = [] /\ inspections (calls r) = []
  /\ Forall (fun c => housekeeping _ (c_call c) = true) (calls r).
Proof.
  intros Hp. cbv zeta.
  destruct (obeys_run harmless p (fun m' => m' = m) w n m Hp) as (H1 & _ & H3 & H4).
  - intros X op m' Hop ->. by apply reads_mem_sem.
  - done.
  - destruct (housekeeping_record _ H1) as (Hi & _ & _ & Hputs).
    repeat split; try done. by apply H3.
Qed.

Lemma requests_run l : forall w k m,
  exists records tr,
    run (requests l) w k m = mkResult (inl records) m tr []
    /\ List.map Data records = l
    /\ puts tr = [] /\ printed tr = [].
Proof.
  induction l as [| line l IH]; intros w k m.
  - exists [], []. by repeat split.
  - cbn [requests]. rewrite run_bind, run_call, then_done, run_bind.
    destruct (IH w (k + length [Called time_Now (w Time time_Now k)]) m)
      as (records & tr & -> & Hdata & Hputs & Hprinted).
    rewrite then_done, run_ret, !after_done.
    eexists _, _. split; [reflexivity |]. cbn. rewrite Hdata, !app_nil_r. by repeat split.
Qed.

Lemma tally_run rs : forall errorCount errorMsg w k m,
  Forall complete rs ->
  run (tally rs errorCount errorMsg) w k m
  = mkResult (inl ((errorCount + failures rs)%Z, last_failure rs errorMsg)) m [] [].
Proof.
  unfold failures, last_failure.
  induction rs as [| r rs IH]; intros errorCount errorMsg w k m Hall.
  - cbn. by rewrite Z.add_0_r.
  - inversion Hall as [| ? ? Hr Hrs]; subst. cbn [tally List.filter fold_left].
    unfold complete, flagged in Hr. unfold flagged at 1.
    destruct (ErrorCode r) as [code |].
    + destruct (ErrorMessage r) as [message |]; [| by destruct Hr].
      rewrite run_bind, run_checked_Some, then_done, IH by done.
      rewrite after_done. cbn [length app].
      replace (errorCount + Z.of_nat (S (length (List.filter flagged rs))))%Z
        with (errorCount + 1 + Z.of_nat (length (List.filter flagged rs)))%Z by lia.
      reflexivity.
    + by rewrite IH.
Qed.

Lemma omap_cons_ {A B} (f : A -> option B) x l :
  omap f (x :: l) = match f x with Some y => y :: omap f l | None => omap f l end.
Proof. reflexivity. Qed.

Lemma harmless_tally rs : forall errorCount errorMsg,
  obeys harmless (tally rs errorCount errorMsg).
Proof.
  induction rs as [| r rs IH]; intros c s0; [exact I |].
  cbn [tally]. destruct (ErrorCode r); [| apply IH].
  apply obeys_bind; [obeys_auto | intros; apply IH].
Qed.

(** The line about a batch that could not be submitted. *)
Definition transport_line (m : Monitor) (stream : string) (e : option error) : list string :=
match e with
| Some e =>
    [system_line m "container streamLogs stream=%s count#KinesisPutRecordsError=1 err=%q"
       [str stream; err e]]
| None => []
end.

(** One stream in one tick. *)
Lemma streamLogs_stream_run stream w n m :
  let r := run (streamLogs_stream stream) w n m in
  let batch := (Registry.getLines m stream).1 in
  let m' := (Registry.getLines m stream).2 in
  memory r = m' /\ started r = []
  /\ match batch with
     | [] => calls r = [] /\ outcome r = inl tt
     | _ =>
         exists records answer,
           puts (calls r) = [(stream, records, answer)]
           /\ List.map Data records = batch
           /\ match answer with
              | (None, e) =>
                  outcome r = inr nil_pointer_dereference
                  /\ printed (calls r) = transport_line m' stream e
              | (Some res, e) =>
                  Forall complete (Records res) ->
                  outcome r = inl tt
                  /\ printed (calls r)
                     = transport_line m' stream e
                       ++ (if (0 <? failures (Records res))%Z
                           then [summary m' stream (Records res)] else [])
              end
     end.
Proof.
  cbv zeta. unfold streamLogs_stream.
  rewrite run_bind, run_mem, then_done. cbn [mem_sem].
  destruct (Registry.getLines m stream) as [l m'] eqn:Hget. cbn [fst snd].
  destruct l as [| line l]; [by rewrite run_ret, after_done |].
  rewrite run_bind.
  match goal with |- context [run (requests ?b) w ?k m'] =>
    destruct (requests_run b w k m') as (records & tr & -> & Hdata & Hputs & Hprinted) end.
  rewrite then_done, run_bind, run_call, then_done.
  match goal with |- context [w _ (Kinesis_PutRecords stream records) ?k] =>
    destruct (w _ (Kinesis_PutRecords stream records) k) as [res e] eqn:Hanswer end.
  rewrite !memory_after, !started_after, !calls_after, !outcome_after.
  rewrite !omap_app, Hputs, Hprinted, !omap_cons_. cbn [app put print c_call c_answer].
  assert (Hrest : forall k,
    let r := run ((match e with
                   | Some e =>
                       logSystemf
                         "container streamLogs stream=%s count#KinesisPutRecordsError=1 err=%q"
                         [str stream; err e]
                   | None => mret tt
                   end);;
                  res ← checked nil_pointer_dereference res;
                  '(errorCount, errorMsg) ← tally (Records res) 0%Z EmptyString;
                  if (0 <? errorCount)%Z then
                    logSystemf
                      "container streamLogs stream=%s count#KinesisRecordsSuccesses=%d count#KinesisRecordsErrors=%d err=%q"
                      [str stream; int (Z.of_nat (length (Records res))); int errorCount;
                       str errorMsg]
                  else mret tt) w k m' in
    memory r = m' /\ started r = [] /\ puts (calls r) = []
    /\ match res with
       | None =>
           outcome r = inr nil_pointer_dereference
           /\ printed (calls r) = transport_line m' stream e
       | Some res =>
           Forall complete (Records res) ->
           outcome r = inl tt
           /\ printed (calls r)
              = transport_line m' stream e
                ++ (if (0 <? failures (Records res))%Z
                    then [summary m' stream (Records res)] else [])
       end).
  { intros k. cbv zeta. rewrite run_bind.
    assert (Hfirst : exists tr1,
      run (match e with
           | Some e =>
               logSystemf "container streamLogs stream=%s count#KinesisPutRecordsError=1 err=%q"
                 [str stream; err e]
           | None => mret tt
           end) w k m' = mkResult (inl tt) m' tr1 []
      /\ puts tr1 = [] /\ printed tr1 = transport_line m' stream e).
    { destruct e as [e |]; [rewrite run_logSystemf | rewrite run_ret]; eexists;
        (split; [reflexivity |]); [| done].
      by rewrite system_calls_puts, system_calls_printed. }
    destruct Hfirst as (tr1 & -> & Hp1 & Hl1). rewrite then_done, run_bind.
    destruct res as [res |].
    - rewrite run_checked_Some, then_done.
      rewrite !memory_after, !started_after, !calls_after, !outcome_after.
      cbn [app length]. rewrite ?Nat.add_0_r.
      assert (Hsplit : forall k',
        Forall complete (Records res) ->
        run ('(errorCount, errorMsg) ← tally (Records res) 0%Z EmptyString;
             if (0 <? errorCount)%Z then
               logSystemf
                 "container streamLogs stream=%s count#KinesisRecordsSuccesses=%d count#KinesisRecordsErrors=%d err=%q"
                 [str stream; int (Z.of_nat (length (Records res))); int errorCount;
                  str errorMsg]
             else mret tt) w k' m'
        = mkResult (inl tt) m'
            (if (0 <? failures (Records res))%Z
             then system_calls m'
                    "container streamLogs stream=%s count#KinesisRecordsSuccesses=%d count#KinesisRecordsErrors=%d err=%q"
                    [str stream; int (Z.of_nat (length (Records res)));
                     int (failures (Records res));
                     str (last_failure (Records res) EmptyString)] w k'
             else []) []).
      { intros k' Hall. rewrite run_bind, tally_run, then_done by done. cbn [length].
        rewrite Z.add_0_l, Nat.add_0_r.
        destruct (0 <? failures (Records res))%Z;
          [by rewrite run_logSystemf, after_done | by rewrite run_ret, after_done]. }
      match goal with |- context [run _ w ?k' m'] =>
        assert (Hharmless : obeys harmless
          ('(errorCount, errorMsg) ← tally (Records res) 0%Z EmptyString;
           if (0 <? errorCount)%Z then
             logSystemf
               "container streamLogs stream=%s count#KinesisRecordsSuccesses=%d count#KinesisRecordsErrors=%d err=%q"
               [str stream; int (Z.of_nat (length (Records res))); int errorCount;
                str errorMsg]
           else mret tt));
        [| destruct (harmless_run _ w k' m' Hharmless) as (Hm & Hs & Hp & _)] end.
      { apply obeys_bind; [apply harmless_tally |]. intros [c s0]. obeys_auto. }
      split; [exact Hm | split; [by rewrite Hs |]].
      rewrite !omap_app, Hp1, Hp, Hl1. split; [done |].
      intros Hall. rewrite (Hsplit _ Hall). cbn [outcome calls].
      split; [done |]. f_equal.
      destruct (0 <? failures (Records res))%Z; [| done].
      by rewrite system_calls_printed.
    - rewrite run_checked_None, then_stop, after_done. cbn [outcome memory calls started].
      rewrite ?app_nil_r, Hp1, Hl1. by repeat split. }
  match goal with |- context [run _ w ?k m'] =>
    destruct (Hrest k) as (Hm & Hs & Hp & Hout) end.
  split; [exact Hm | split; [by rewrite Hs |]].
  exists records, (res, e). rewrite Hp.
  split; [done | split; [done |]].
  destruct res as [res |].
  - intros Hall. destruct (Hout Hall) as [Ho Hl]. by rewrite Hl.
  - destruct Hout as [Ho Hl]. by rewrite Hl.
Qed.

(** Nothing is lost and nothing is submitted twice: what a run has
    submitted of a stream and what is still pending of it make up what was
    pending. *)
Definition conserves {A} (r : result A) (m : Monitor) : Prop :=
forall s, submitted s (calls r) ++ Registry.pending (memory r) s = Registry.pending m s.

Lemma submitted_app s tr1 tr2 : submitted s (tr1 ++ tr2) = submitted s tr1 ++ submitted s tr2.
Proof. unfold submitted. by rewrite omap_app, map_app, concat_app. Qed.

Lemma conserves_bind {A B} (p : prog A) (q : A -> prog B) w n m :
  (forall w n m, conserves (run p w n m) m) ->
  (forall a w n m, conserves (run (q a) w n m) m) ->
  conserves (run (p ≫= q) w n m) m.
Proof.
  intros Hp Hq s. rewrite run_bind. unfold then_.
  specialize (Hp w n m s).
  destruct (run p w n m) as [[a | f] m1 tr1 sp1]; cbn [outcome memory calls started] in *;
    [| done].
  rewrite calls_after, memory_after, submitted_app, <- List.app_assoc.
  by rewrite (Hq a w _ m1 s).
Qed.

Lemma streamLogs_stream_conserves stream w n m :
  conserves (run (streamLogs_stream stream) w n m) m.
Proof.
  intros s.
  destruct (streamLogs_stream_run stream w n m) as (Hm & _ & Hbatch).
  rewrite Hm.
  assert (Hsub : submitted s (calls (run (streamLogs_stream stream) w n m))
                 = if String.eqb stream s then (Registry.getLines m stream).1 else []).
  { destruct (Registry.getLines m stream).1 as [| line l] eqn:Hl.
    - destruct Hbatch as [-> _]. by destruct (String.eqb stream s).
    - destruct Hbatch as (records & answer & Hputs & Hdata & _).
      unfold submitted. rewrite Hputs. cbn. rewrite Hdata, app_nil_r. done. }
  rewrite Hsub. destruct (String.eqb_spec stream s) as [-> | Hne].
  - by rewrite getLines_take, getLines_drop, firstn_skipn.
  - by rewrite getLines_other.
Qed.

Lemma streamLogs_range_conserves streams : forall w n m,
  conserves (run (streamLogs_range streams) w n m) m.
Proof.
  induction streams as [| stream streams IH]; intros w n m.
  - by intros s.
  - cbn [streamLogs_range]. apply conserves_bind; [apply streamLogs_stream_conserves | auto].
Qed.

Lemma streamLogs_for_conserves ticks : forall w n m,
  conserves (run (streamLogs_for ticks) w n m) m.
Proof.
  induction ticks as [| ticks IH]; intros w n m.
  - by intros s.
  - cbn [streamLogs_for]. apply conserves_bind; [by intros ? ? ? s |]. intros _ w' n' m'.
    apply conserves_bind; [| auto]. intros w2 n2 m2. unfold streamLogs_tick.
    apply conserves_bind; [by intros ? ? ? s |]. intros streams w3 n3 m3.
    apply streamLogs_range_conserves.
Qed.

(** C5.  When the sink accepts a batch and flags some of its records, the
    forwarder ends the stream's turn without a fault, and when any record
    is flagged its one line says how many records the answer has and how
    many of them are flagged.  The batch was the 500 oldest pending lines
    and the buffer holds what came after them, whatever the answer: no
    flagged record goes back into it.  And over any number of ticks what
    has been submitted of a stream and what is still pending of it are,
    one after the other, what was pending at first: no line is submitted a
    second time. *)
Theorem forwarder_counts_failures :
  (forall stream w n m records res,
     let r := run (streamLogs_stream stream) w n m in
     puts (calls r) = [(stream, records, (Some res, None))] ->
     Forall complete (Records res) ->
     outcome r = inl tt
     /\ printed (calls r)
        = (if (0 <? failures (Records res))%Z
           then [summary (memory r) stream (Records res)] else [])
     /\ List.map Data records = firstn 500 (Registry.pending m stream)
     /\ Registry.pending (memory r) stream = skipn 500 (Registry.pending m stream))
  /\ (forall ticks w n m s,
        let r := run (streamLogs_for ticks) w n m in
        submitted s (calls r) ++ Registry.pending (memory r) s = Registry.pending m s).
Proof.
  split; [| intros; apply streamLogs_for_conserves].
  intros stream w n m records res. cbv zeta. intros Hputs Hall.
  destruct (streamLogs_stream_run stream w n m) as (Hm & _ & Hbatch).
  rewrite Hm, getLines_drop, <- getLines_take.
  destruct (Registry.getLines m stream).1 as [| line l].
  - destruct Hbatch as [Hcalls _]. by rewrite Hcalls in Hputs.
  - destruct Hbatch as (records' & answer & Hputs' & Hdata & Hanswer).
    rewrite Hputs' in Hputs. injection Hputs as -> ->.
    destruct (Hanswer Hall) as [Ho Hl]. by rewrite Hl.
Qed.

End Forwarder.

(** Ten records of which the third, the fifth and the ninth are flagged. *)
Definition throttled : PutRecordsResultEntry :=
  mkEntry (Some "ProvisionedThroughputExceededException") (Some "Rate exceeded").

Definition accepted : PutRecordsResultEntry := mkEntry None None.

Definition three_of_ten : list PutRecordsResultEntry :=
  [accepted; accepted; throttled; accepted; throttled;
   accepted; accepted; accepted; throttled; accepted].

(** A world like the silent one whose Kinesis flags three records of
    ten. *)
Definition throttling : world :=
  fun X c n =>
    match c in ext X return X with
    | Kinesis_PutRecords _ _ => (Some (mkOutput three_of_ten), None)
    | c => silent _ c n
    end.

(** A monitor with ten lines pending for one stream. *)
Definition ten_pending : Monitor :=
  addLines dev "logs" ["l0"; "l1"; "l2"; "l3"; "l4"; "l5"; "l6"; "l7"; "l8"; "l9"].

(** Three failures of ten are counted, and the next tick finds nothing to
    submit. *)
Lemma forwarder_counts_failures_witness :
  let r := run (streamLogs_stream "logs") throttling 0 ten_pending in
  printed (calls r)
  = ["agent:dev/i-dev container streamLogs stream=logs count#KinesisRecordsSuccesses=10 count#KinesisRecordsErrors=3 err="
     +:+ Quote "ProvisionedThroughputExceededException - Rate exceeded"]
  /\ Registry.pending (memory r) "logs" = []
  /\ puts (calls (run (streamLogs_stream "logs") throttling 0 (memory r))) = [].
Proof.
  cbv zeta. destruct forwarder_counts_failures as [Hone _].
  destruct (Hone "logs" throttling 0 ten_pending
              (List.map (fun l => mkRequestEntry l epoch)
                 ["l0"; "l1"; "l2"; "l3"; "l4"; "l5"; "l6"; "l7"; "l8"; "l9"])
              (mkOutput three_of_ten)) as (_ & Hl & _ & Hp).
  - reflexivity.
  - cbn [Records three_of_ten].
    repeat first [apply Forall_nil_2 | apply Forall_cons_2]; unfold complete; cbn; congruence.
  - split; [rewrite Hl; reflexivity | split; [rewrite Hp; reflexivity | reflexivity]].
Defined.



(** A world like the silent one whose Kinesis cannot be reached: the
    submission comes back with an error and no answer. *)
Definition unreachable : world :=
  fun X c n =>
    match c in ext X return X with
    | Kinesis_PutRecords _ _ => (None, Some (errorString "RequestError: send request failed"))
    | c => silent _ c n
    end.

(** A monitor with one line pending for one stream. *)
Definition one_pending : Monitor := Registry.addLine dev "logs" "2015-11-03 09:15:00 hello".

(** After an error of the transport the forwarder prints it and then reads
    the records of the answer all the same: with an answer of no records
    it goes on to the next stream, without an answer it stops on a nil
    pointer.  Either way the batch is gone from the buffer. *)
Lemma streamLogs_after_transport_error stream records e answer w n m :
  let r := run (streamLogs_stream stream) w n m in
  puts (calls r) = [(stream, records, (answer, Some e))] ->
  Registry.pending (memory r) stream = skipn 500 (Registry.pending m stream)
  /\ match answer with
     | Some res =>
         Forall complete (Records res) ->
         outcome r = inl tt
         /\ printed (calls r)
            = system_line (memory r)
                "container streamLogs stream=%s count#KinesisPutRecordsError=1 err=%q"
                [str stream; err e]
              :: (if (0 <? failures (Records res))%Z
                  then [summary (memory r) stream (Records res)] else [])
     | None =>
         outcome r = inr nil_pointer_dereference
         /\ printed (calls r)
            = [system_line (memory r)
                 "container streamLogs stream=%s count#KinesisPutRecordsError=1 err=%q"
                 [str stream; err e]]
     end.
Proof.
  cbv zeta. intros Hputs.
  destruct (streamLogs_stream_run stream w n m) as (Hm & _ & Hbatch).
  rewrite Hm, getLines_drop. split; [done |].
  destruct (Registry.getLines m stream).1 as [| line l].
  - destruct Hbatch as [Hcalls _]. by rewrite Hcalls in Hputs.
  - destruct Hbatch as (records' & answer' & Hputs' & Hdata & Hanswer).
    rewrite Hputs' in Hputs. injection Hputs as -> ->.
    destruct answer as [res |]; [| exact Hanswer].
    intros Hall. exact (Hanswer Hall).
Qed.

(** C6, where the code departs from it.  With one line pending and a
    Kinesis that cannot be reached, the forwarder prints the error of the
    submission, and the batch is gone from the buffer; but it does not go
    on to the next stream: it reads the records of the answer it did not
    get and stops on a nil pointer. *)
Theorem streamLogs_transport_error_panics :
  let r := run (streamLogs_stream "logs") unreachable 0 one_pending in
  puts (calls r)
  = [("logs", [mkRequestEntry "2015-11-03 09:15:00 hello" epoch],
      (None, Some (errorString "RequestError: send request failed")))]
  /\ printed (calls r)
     = ["agent:dev/i-dev container streamLogs stream=logs count#KinesisPutRecordsError=1 err="
        +:+ Quote "RequestError: send request failed"]
  /\ Registry.pending (memory r) "logs" = []
  /\ outcome r = inr nil_pointer_dereference
  /\ outcome (run (streamLogs_for 1) unreachable 0 one_pending) = inr nil_pointer_dereference.
Proof. cbv zeta. repeat split; by vm_compute. Qed.

(** ** Goroutines on shared memory *)

(** What a step shows of itself. *)
Inductive label :=
| l_getEnv (id : string) (found : option Env)
| l_setEnv (id : string) (env : Env)
| l_inspect (id : string) (answer : Container + error)
| l_recv (event : option APIEvents)
| l_go (child : nat)
| l_other.

Definition label_mem {X} (op : mem X) : X -> label :=
  match op in mem X return X -> label with
  | m_getEnv id => fun found => l_getEnv id found
  | m_setEnv id env => fun _ => l_setEnv id env
  | _ => fun _ => l_other
  end.

Definition label_call {X} (c : ext X) : X -> label :=
  match c in ext X return X -> label with
  | InspectContainer id => fun answer => l_inspect id answer
  | chan_recv => fun event => l_recv event
  | _ => fun _ => l_other
  end.

Definition receives {X} (c : ext X) : bool :=
  match c with chan_recv => true | _ => false end.

(** A goroutine: its program, and the event on whose behalf it runs,
    which is the last one it received or the one of the goroutine that
    started it.  Events are numbered as they leave the channel. *)
Record thread := mkThread { origin : option nat; code : prog unit }.

(** A step as the history keeps it: who made it, for which event, and
    what it was. *)
Record entry := mkEntry_ { e_thread : nat; e_origin : option nat; e_label : label }.

Record state := mkState {
  shared : Monitor;
  pool : list thread;
  received : nat;
  history : list entry
}.

Fixpoint replace {A} (l : list A) (i : nat) (x : A) : list A :=
  match l, i with
  | [], _ => []
  | _ :: l, O => x :: l
  | y :: l, S i => y :: replace l i x
  end.

(** One step of the goroutine [t], the world answering [w] should the
    step be a call.  A goroutine at its end makes no step, and neither
    does one that has stopped short; the other goroutines go on. *)
Definition step (w : forall X, ext X -> X) (t : nat) (s : state) : option state :=
  match nth_error (pool s) t with
  | None => None
  | Some th =>
      match code th with
      | Ret _ | Abort _ => None
      | Mem op k =>
          let '(x, m') := mem_sem op (shared s) in
          Some (mkState m' (replace (pool s) t (mkThread (origin th) (k x))) (received s)
                  (history s ++ [mkEntry_ t (origin th) (label_mem op x)]))
      | Call c k =>
          let x := w _ c in
          let o := if receives c then Some (received s) else origin th in
          Some (mkState (shared s) (replace (pool s) t (mkThread o (k x)))
                  (if receives c then S (received s) else received s)
                  (history s ++ [mkEntry_ t o (label_call c x)]))
      | Go child k =>
          Some (mkState (shared s)
                  (replace (pool s) t (mkThread (origin th) k) ++ [mkThread (origin th) child])
                  (received s)
                  (history s ++ [mkEntry_ t (origin th) (l_go (length (pool s)))]))
      end
  end.

(** The states an interleaving of steps leads to. *)
Inductive reachable (s0 : state) : state -> Prop :=
| reachable_start : reachable s0 s0
| reachable_step s w t s' : reachable s0 s -> step w t s = Some s' -> reachable s0 s'.

(** A schedule run from a state: the goroutines that step, in turn.  The
    world answers a call by the number of events received so far; a
    goroutine that cannot step is passed over. *)
Fixpoint play (w : world) (schedule : list nat) (s : state) : state :=
  match schedule with
  | [] => s
  | t :: schedule =>
      play w schedule (default s (step (fun X c => w X c (received s)) t s))
  end.

Lemma play_reachable w schedule : forall s0 s,
  reachable s0 s -> reachable s0 (play w schedule s).
Proof.
  induction schedule as [| t schedule IH]; intros s0 s Hs; simpl; [done |].
  apply IH.
  destruct (step _ t s) as [s1 |] eqn:Hstep; [| done].
  by eapply reachable_step.
Qed.

(** *** What the goroutines of the handlers may do *)

(** Accesses that leave the captured environments alone. *)
Definition keeps_envs : forall X, mem X -> bool :=
  fun X op => match op with m_setEnv _ _ | m_write _ => false | _ => true end.

Definition not_receiving : forall X, ext X -> bool :=
  fun X c => negb (receives c).

(** A handler in a goroutine, and every goroutine it starts in turn,
    neither receives from the channel of events nor writes a captured
    environment. *)
Definition task : policy := mkPolicy not_receiving keeps_envs (fun _ => true) true true.

(** Housekeeping without a captured environment written. *)
Definition plain : policy := mkPolicy housekeeping keeps_envs (fun _ => true) false false.

Lemma keeps_envs_mem_sem {X} (op : mem X) m :
  keeps_envs X op = true -> envs (mem_sem op m).2 = envs m.
Proof.
  destruct op; simpl; try done.
  intros _. unfold Registry.getLines. by destruct (Nat.eqb _ _).
Qed.

Lemma obeys_go_intro π t :
  ok_go π = true -> (deep π = true -> obeys π t) -> obeys π (go t).
Proof. intros Hgo Ht. by repeat split. Qed.

Ltac obeys_go :=
  match goal with
  | |- obeys _ (go _) => apply obeys_go_intro; [reflexivity | intros _]
  end.

Lemma task_logSystemf format a : obeys task (logSystemf format a).
Proof. unfold logSystemf. obeys_auto. Qed.
#[local] Hint Resolve task_logSystemf : obeys.

Lemma task_logAppEvent id message : obeys task (logAppEvent id message).
Proof. unfold logAppEvent. obeys_auto. Qed.

Lemma task_ReportError e : obeys task (ReportError e).
Proof. unfold ReportError. obeys_auto. Qed.
#[local] Hint Resolve task_logAppEvent task_ReportError : obeys.

Lemma task_write_limit id file bytes : obeys task (write_limit id file bytes).
Proof. unfold write_limit. obeys_auto. Qed.
#[local] Hint Resolve task_write_limit : obeys.

Lemma task_updateCgroups id : obeys task (updateCgroups id).
Proof. unfold updateCgroups. obeys_auto. Qed.

Lemma task_announce id plain_ named : obeys task (announce id plain_ named).
Proof. unfold announce. obeys_auto. Qed.
#[local] Hint Resolve task_updateCgroups task_announce : obeys.

Lemma task_handleDie id : obeys task (handleDie id).
Proof. unfold handleDie. obeys_auto. Qed.

Lemma task_handleKill id : obeys task (handleKill id).
Proof. unfold handleKill. obeys_auto. Qed.

Lemma task_handleOom id : obeys task (handleOom id).
Proof. unfold handleOom. obeys_auto. Qed.

Lemma task_handleStop id : obeys task (handleStop id).
Proof. unfold handleStop. obeys_auto. Qed.
#[local] Hint Resolve task_handleDie task_handleKill task_handleOom task_handleStop : obeys.

Lemma plain_logSystemf format a : obeys plain (logSystemf format a).
Proof. unfold logSystemf. obeys_auto. Qed.
#[local] Hint Resolve plain_logSystemf : obeys.

Lemma plain_logAppEvent id message : obeys plain (logAppEvent id message).
Proof. unfold logAppEvent. obeys_auto. Qed.

Lemma plain_StartAWSLogger container logGroup :
  obeys plain (StartAWSLogger container logGroup).
Proof. unfold StartAWSLogger. obeys_auto. Qed.
#[local] Hint Resolve plain_logAppEvent plain_StartAWSLogger : obeys.

Section Tasks.

Variable time_Parse : string -> Time + error.
Variable rounds : nat.

Lemma task_parseAndForwardLine id line : obeys task (parseAndForwardLine time_Parse id line).
Proof. unfold parseAndForwardLine. obeys_auto. Qed.
#[local] Hint Resolve task_parseAndForwardLine : obeys.

Lemma task_readLines_for n id r exit : obeys task (readLines_for time_Parse n id r exit).
Proof.
  induction n as [| n IH]; [reflexivity |].
  cbn [readLines_for]. obeys_auto.
Qed.
#[local] Hint Resolve task_readLines_for : obeys.

Lemma task_readLines id r wg exit : obeys task (readLines time_Parse rounds id r wg exit).
Proof. unfold readLines. obeys_auto. Qed.

Lemma task_followDockerLogs id w wg exit : obeys task (followDockerLogs id w wg exit).
Proof. unfold followDockerLogs. obeys_auto. Qed.

Lemma task_reconcile id answer : obeys task (reconcile id answer).
Proof. unfold reconcile. obeys_auto. Qed.

Lemma task_closeLogger id : obeys task (closeLogger id).
Proof. unfold closeLogger. obeys_auto. Qed.
#[local] Hint Resolve task_readLines task_followDockerLogs task_reconcile task_closeLogger
  : obeys.

Lemma task_retry n id : obeys task (retry time_Parse rounds n id).
Proof.
  induction n as [| n IH]; [reflexivity |].
  cbn [retry]. repeat first [obeys_go | obeys_step].
Qed.
#[local] Hint Resolve task_retry : obeys.

Lemma task_subscribeLogs id : obeys task (subscribeLogs time_Parse rounds id).
Proof. unfold subscribeLogs. obeys_auto. Qed.
#[local] Hint Resolve task_subscribeLogs : obeys.

Lemma task_handleStart id : obeys task (handleStart time_Parse rounds id).
Proof. unfold handleStart. obeys_auto. Qed.

End Tasks.

(** *** What the loop of the events does *)

Inductive mem_kind :=
| k_setEnv (id : string) (env : Env)
| k_write
| k_keeps.

Definition kind_of_mem {X} (op : mem X) : mem_kind :=
  match op with
  | m_setEnv id env => k_setEnv id env
  | m_write _ => k_write
  | _ => k_keeps
  end.

Inductive call_kind (X : Type) :=
| k_inspect (id : string) (answer : X -> Container + error)
| k_recv
| k_plain.
Arguments k_inspect {X}.
Arguments k_recv {X}.
Arguments k_plain {X}.

Definition kind_of_call {X} (c : ext X) : call_kind X :=
  match c in ext X return call_kind X with
  | InspectContainer id => k_inspect id (fun x => x)
  | chan_recv => k_recv
  | _ => k_plain
  end.

(** The environment a successful inspection obliges [handleCreate] to
    store. *)
Definition owed (id : string) (answer : Container + error) : option (string * Env) :=
  match answer with
  | inl c => Some (id, capture (ct_Config_Env c))
  | inr _ => None
  end.

(** A stretch of the loop, from a point where an environment may be owed
    to the registry: an environment is stored only when it is owed, and
    then it is owed no more; nothing is owed when the loop inspects,
    receives the next event or starts a goroutine, and such a goroutine
    keeps to [task]; [post] holds of what is owed at the end. *)
Fixpoint stretch {A : Type} (pend : option (string * Env)) (p : prog A)
    (post : A -> option (string * Env) -> Prop) : Prop :=
  match p with
  | Ret a => post a pend
  | Abort _ => True
  | Mem op k =>
      match kind_of_mem op with
      | k_setEnv id env => pend = Some (id, env) /\ forall x, stretch None (k x) post
      | k_write => False
      | k_keeps => forall x, stretch pend (k x) post
      end
  | Call c k =>
      match kind_of_call c with
      | k_inspect id answer => pend = None /\ forall x, stretch (owed id (answer x)) (k x) post
      | k_recv => pend = None /\ forall x, stretch None (k x) post
      | k_plain => forall x, stretch pend (k x) post
      end
  | Go t k => pend = None /\ obeys task t /\ stretch None k post
  end.

(** The loop between two events: nothing owed at either end. *)
Definition settled {A} (p : prog A) : Prop := stretch None p (fun _ pend => pend = None).

Lemma stretch_bind {A B} (p : prog A) (f : A -> prog B) pend post :
  stretch pend p (fun a pend' => stretch pend' (f a) post) ->
  stretch pend (p ≫= f) post.
Proof.
  unfold mbind, prog_bind.
  revert pend; induction p as [A a | A e | A X op k IH | A X c k IH | A t _ k IH];
    intros pend; simpl.
  - done.
  - done.
  - destruct (kind_of_mem op); [| done |].
    + intros [Hp Hk]. split; [done |]. intros x. by apply IH.
    + intros Hk x. by apply IH.
  - destruct (kind_of_call c).
    + intros [Hp Hk]. split; [done |]. intros x. by apply IH.
    + intros [Hp Hk]. split; [done |]. intros x. by apply IH.
    + intros Hk x. by apply IH.
  - intros (Hp & Ht & Hk). repeat split; try done. by apply IH.
Qed.

(** A plain program owes at its end what was owed at its start. *)
Lemma plain_stretch {A} (p : prog A) pend (post : A -> option (string * Env) -> Prop) :
  obeys plain p -> (forall a, post a pend) -> stretch pend p post.
Proof.
  intros Hp Hpost.
  induction p as [A a | A e | A X op k IH | A X c k IH | A t _ k IH]; simpl in *.
  - apply Hpost.
  - done.
  - destruct Hp as [Hop Hk]. destruct op; simpl in *; try discriminate; intros x; by apply IH.
  - destruct Hp as [Hc Hk]. destruct c; simpl in *; try discriminate; intros x; by apply IH.
  - by destruct Hp as [? _].
Qed.


Lemma stretch_inspect {B} id (f : Container + error -> prog B) post :
  (forall answer, stretch (owed id answer) (f answer) post) ->
  stretch None (call (InspectContainer id) ≫= f) post.
Proof. intros Hf. by split. Qed.

Lemma stretch_setEnv {B} id env (f : unit -> prog B) post :
  (forall x, stretch None (f x) post) ->
  stretch (Some (id, env)) (mem_ (m_setEnv id env) ≫= f) post.
Proof. intros Hf. by split. Qed.

Lemma stretch_recv {B} (f : option APIEvents -> prog B) post :
  (forall x, stretch None (f x) post) -> stretch None (call chan_recv ≫= f) post.
Proof. intros Hf. by split. Qed.

Lemma stretch_getEnv {B} id (f : option Env -> prog B) pend post :
  (forall x, stretch pend (f x) post) -> stretch pend (mem_ (m_getEnv id) ≫= f) post.
Proof. intros Hf. exact Hf. Qed.

Lemma stretch_go {B} t (f : unit -> prog B) post :
  obeys task t -> stretch None (f tt) post -> stretch None (go t ≫= f) post.
Proof. intros Ht Hf. by repeat split. Qed.

Lemma stretch_weaken {A} (p : prog A) pend (post post' : A -> option (string * Env) -> Prop) :
  (forall a pd, post a pd -> post' a pd) -> stretch pend p post -> stretch pend p post'.
Proof.
  revert post post' pend.
  induction p as [A a | A e | A X op k IH | A X c k IH | A t _ k IH];
    intros post post' pend Himp; simpl.
  - apply Himp.
  - done.
  - destruct (kind_of_mem op); [| done |].
    + intros [H1 H2]. split; [done |]. intros x. by apply (IH x post post').
    + intros H2 x. by apply (IH x post post').
  - destruct (kind_of_call c).
    + intros [H1 H2]. split; [done |]. intros x. by apply (IH x post post').
    + intros [H1 H2]. split; [done |]. intros x. by apply (IH x post post').
    + intros H2 x. by apply (IH x post post').
  - intros (H1 & H2 & H3). repeat split; try done. by apply (IH post post').
Qed.

Lemma settled_handleCreate id : settled (handleCreate id).
Proof.
  unfold settled, handleCreate.
  apply stretch_bind, plain_stretch; [auto with obeys |]. intros _.
  apply stretch_inspect. intros [container | e]; cbn [owed].
  - apply stretch_setEnv. intros _. apply plain_stretch; [| done]. obeys_auto.
  - apply plain_stretch; [auto with obeys | done].
Qed.

Section Loop.

Variable time_Parse : string -> Time + error.
Variable rounds : nat.

Lemma settled_go t : obeys task t -> settled (go t).
Proof. intros Ht. by repeat split. Qed.

Lemma settled_dispatch event : settled (dispatch time_Parse rounds event).
Proof.
  unfold dispatch.
  repeat match goal with
         | |- settled (if ?b then _ else _) => destruct b
         end;
    match goal with
    | |- settled (handleCreate _) => apply settled_handleCreate
    | |- settled (go _) => apply settled_go; auto using task_handleStart with obeys
    | |- settled (mret _) => reflexivity
    end.
Qed.

Lemma settled_handleEvent event : settled (handleEvent time_Parse rounds event).
Proof.
  unfold settled, handleEvent. cbv zeta.
  apply stretch_bind.
  eapply stretch_weaken; [| apply settled_dispatch]. intros [] pd ->.
  apply stretch_getEnv. intros env.
  apply plain_stretch; [auto with obeys | done].
Qed.

Lemma settled_handleEvents_range n : settled (handleEvents_range time_Parse rounds n).
Proof.
  induction n as [| n IH]; [done |].
  unfold settled. cbn [handleEvents_range].
  apply stretch_recv. intros [event |]; [| done].
  apply stretch_bind.
  eapply stretch_weaken; [| apply settled_handleEvent]. intros [] pd ->. exact IH.
Qed.

Lemma settled_handleEvents : settled (handleEvents time_Parse rounds).
Proof.
  unfold settled, handleEvents.
  apply stretch_bind, plain_stretch; [auto with obeys |]. intros _.
  apply settled_handleEvents_range.
Qed.

End Loop.

(** * More of the monitor *)

(** ** The registry and the buffer, method by method *)

(** X1.  What [setEnv] stores under an identifier is what [getEnv] finds
    there, and the other identifiers keep what they had; likewise
    [setLogger] and [getLogger].  Neither map touches the other, nor the
    buffer, and a new monitor finds nothing. *)
Theorem registry_round_trip (m : Monitor) (id other : string) (env : Env) (lg : Logger) :
  Registry.getEnv (Registry.setEnv m id env) other
  = (if String.eqb other id then Some env else Registry.getEnv m other)
  /\ Registry.getLogger (Registry.setLogger m id lg) other
     = (if String.eqb other id then Some lg else Registry.getLogger m other)
  /\ Registry.getLogger (Registry.setEnv m id env) other = Registry.getLogger m other
  /\ Registry.getEnv (Registry.setLogger m id lg) other = Registry.getEnv m other
  /\ lines (Registry.setEnv m id env) = lines m
  /\ lines (Registry.setLogger m id lg) = lines m
  /\ (forall driver version img kernel,
        Registry.getEnv (NewMonitor driver version img kernel) other = None
        /\ Registry.getLogger (NewMonitor driver version img kernel) other = None).
Proof.
  unfold Registry.getEnv, Registry.getLogger, Registry.setEnv, Registry.setLogger; simpl.
  repeat split; try done.
  - destruct (String.eqb_spec other id) as [-> | Hne].
    + by rewrite lookup_insert_eq.
    + by rewrite lookup_insert_ne.
  - destruct (String.eqb_spec other id) as [-> | Hne].
    + by rewrite lookup_insert_eq.
    + by rewrite lookup_insert_ne.
Qed.

(** The streams [streams] lists are those that have an entry in the
    buffer. *)
Lemma elem_of_streams (m : Monitor) (s : string) :
  s ∈ Registry.streams m <-> is_Some (lines m !! s).
Proof.
  unfold Registry.streams. rewrite list_elem_of_fmap. split.
  - intros [[k v] [-> H]]. apply elem_of_map_to_list in H. by exists v.
  - intros [v H]. exists (s, v). split; [done |]. by apply elem_of_map_to_list.
Qed.

(** X2.  [addLine] puts a line at the end of its stream and leaves the other
    streams alone; from then on [streams] lists the stream, once, and a
    drain does not take it off the list, not even the drain that empties
    it: the forwarder finds the stream on every later tick. *)
Theorem streams_lists_written_streams (m : Monitor) (stream data : string) :
  NoDup (Registry.streams m)
  /\ (forall other,
        Registry.pending (Registry.addLine m stream data) other
        = if String.eqb other stream then Registry.pending m stream ++ [data]
          else Registry.pending m other)
  /\ (forall s, s ∈ Registry.streams (Registry.addLine m stream data)
                <-> s = stream \/ s ∈ Registry.streams m)
  /\ (forall s, s ∈ Registry.streams (Registry.getLines m stream).2
                <-> s ∈ Registry.streams m)
  /\ (forall driver version img kernel,
        Registry.streams (NewMonitor driver version img kernel) = []).
Proof.
  split; [| split; [| split; [| split]]].
  - unfold Registry.streams. apply NoDup_fst_map_to_list.
  - intros other. unfold Registry.addLine.
    destruct (String.eqb_spec other stream) as [-> | Hne].
    + by rewrite pending_with_lines_eq.
    + by rewrite pending_with_lines_ne.
  - intros s. rewrite !elem_of_streams. unfold Registry.addLine; simpl.
    destruct (decide (s = stream)) as [-> | Hne].
    + rewrite lookup_insert_eq. split; [by left | by eexists].
    + rewrite lookup_insert_ne by done. split; [by right | by intros [? | ?]].
  - intros s. rewrite !elem_of_streams. unfold Registry.getLines.
    destruct (Nat.eqb_spec (length (Registry.pending m stream)) 0) as [H0 | H0]; simpl; [done |].
    destruct (decide (s = stream)) as [-> | Hne].
    + rewrite lookup_insert_eq. split; [| by eexists]. intros _.
      unfold Registry.pending in H0. destruct (lines m !! stream); [by eexists | done].
    + by rewrite lookup_insert_ne.
  - intros. unfold Registry.streams, NewMonitor; simpl. by rewrite map_to_list_empty.
Qed.

(** ** The environment [handleCreate] captures *)

Lemma cut_free sep e : free sep e = true -> cut sep e = None.
Proof.
  induction e as [| c e IH]; [done |]. simpl.
  destruct (Ascii.eqb c sep); [done |]. simpl. intros H. by rewrite IH.
Qed.

Lemma cut_assign sep k v :
  free sep k = true -> cut sep (k +:+ String sep v) = Some (k, v).
Proof.
  induction k as [| c k IH]; intros Hk.
  - change (cut sep (String sep v) = Some (EmptyString, v)). simpl.
    by rewrite Ascii.eqb_refl.
  - change (cut sep (String c (k +:+ String sep v)) = Some (String c k, v)).
    simpl in *. destruct (Ascii.eqb c sep); [done |]. simpl in Hk. by rewrite IH.
Qed.

Lemma capture_snoc es e :
  capture (es ++ [e]) =
    match SplitN2 e "=" with
    | [k; v] => <[k := v]> (capture es)
    | _ => capture es
    end.
Proof. unfold capture. by rewrite fold_left_app. Qed.

(** X3.  The loop over [container.Config.Env] reads assignments: an entry
    NAME=VALUE sets NAME to VALUE, overriding what an earlier entry set
    it to, and VALUE is all that follows the first equals sign, further
    equals signs included; an entry without an equals sign sets nothing;
    the empty list gives the empty environment. *)
Theorem capture_reads_assignments (es : list string) (k v e : string) :
  free "=" k = true ->
  free "=" e = true ->
  capture (es ++ [k +:+ String "=" v]) = <[k := v]> (capture es)
  /\ env_at (capture (es ++ [k +:+ String "=" v])) k = v
  /\ capture (es ++ [e]) = capture es
  /\ capture [] = ∅.
Proof.
  intros Hk He.
  assert (H1 : capture (es ++ [k +:+ String "=" v]) = <[k := v]> (capture es)).
  { rewrite capture_snoc. unfold SplitN2. by rewrite cut_assign. }
  split; [exact H1 | split; [| split; [| done]]].
  - rewrite H1. unfold env_at. by rewrite lookup_insert_eq.
  - rewrite capture_snoc. unfold SplitN2. by rewrite cut_free.
Qed.

(** A worker whose command line has an equals sign, after a web process
    and an entry that assigns nothing. *)
Lemma capture_reads_assignments_witness :
  env_at (capture (["PROCESS=web"; "PATH"] ++ ["CMD" +:+ String "=" "run --env=prod"])) "CMD"
  = "run --env=prod"
  /\ capture (["PROCESS=web"] ++ ["PATH"]) = capture ["PROCESS=web"].
Proof.
  split.
  - apply (capture_reads_assignments ["PROCESS=web"; "PATH"] "CMD" "run --env=prod" "PATH");
      reflexivity.
  - apply (capture_reads_assignments ["PROCESS=web"] "CMD" "run --env=prod" "PATH");
      reflexivity.
Defined.

(** ** What the agent writes about itself and about its containers *)

Lemma append_nil_r_ (s : string) : s +:+ EmptyString = s.
Proof.
  induction s as [| c s IH]; [done |].
  change (String c (s +:+ EmptyString) = String c s). by rewrite IH.
Qed.

(** The two formats of the lines, spelled out. *)
Lemma Sprintf_agent (ver inst line : string) :
  Sprintf "agent:%s/%s %s" [str ver; str inst; str line]
  = "agent:" +:+ ver +:+ "/" +:+ inst +:+ " " +:+ line.
Proof.
  transitivity ("agent:" +:+ ver +:+ "/" +:+ inst +:+ " " +:+ (line +:+ EmptyString));
    [reflexivity | by rewrite append_nil_r_].
Qed.

Lemma Sprintf_pair (a b : string) :
  Sprintf "%s %s" [str a; str b] = a +:+ " " +:+ b.
Proof.
  transitivity (a +:+ " " +:+ (b +:+ EmptyString)); [reflexivity | by rewrite append_nil_r_].
Qed.

Lemma system_calls_written m format a w n :
  written (system_calls m format a w n)
  = match loggers m !! agentId m with
    | Some awslogger =>
        [(awslogger, mkMessage (agentId m) (system_line m format a) (w _ time_Now (S n)))]
    | None => []
    end.
Proof. unfold system_calls. by destruct (loggers m !! agentId m). Qed.

(** X4.  [logSystemf] prints its line once, with the version and the instance
    of the agent in front, and writes the same line, stamped with the
    clock, to the sink registered for the agent's own container when there
    is one.  It ends whatever the sink answers, reports nothing, starts
    nothing and leaves the memory as it was. *)
Theorem logSystemf_prints_and_forwards (format : string) (a : list operand)
    (w : world) (n : nat) (m : Monitor) :
  let r := run (logSystemf format a) w n m in
  let l := "agent:" +:+ agentVersion m +:+ "/" +:+ instanceId m +:+ " " +:+ Sprintf format a in
  outcome r = inl tt /\ memory r = m /\ started r = []
  /\ printed (calls r) = [l]
  /\ written (calls r)
     = match loggers m !! agentId m with
       | Some awslogger => [(awslogger, mkMessage (agentId m) l (w _ time_Now (S n)))]
       | None => []
       end
  /\ reported (calls r) = [].
Proof.
  cbv zeta. rewrite run_logSystemf. cbn [outcome memory started calls].
  rewrite system_calls_printed, system_calls_written, system_calls_reported.
  unfold system_line. rewrite Sprintf_agent. by repeat split.
Qed.

(** The calls of [logAppEvent] and the memory it leaves. *)
Definition app_calls (m : Monitor) (id message : string) (w : world) (n : nat) : list called :=
  let msg := Sprintf "agent:%s/%s %s" [str (agentVersion m); str (instanceId m); str message] in
  let ts := w _ time_Now n in
  Called time_Now ts ::
  match loggers m !! id with
  | Some awslogger =>
      [Called (Logger_Log awslogger (mkMessage id msg ts))
         (w _ (Logger_Log awslogger (mkMessage id msg ts)) (S n))]
  | None => []
  end.

Definition app_memory (m : Monitor) (id message : string) (ts : Time) : Monitor :=
  let msg := Sprintf "agent:%s/%s %s" [str (agentVersion m); str (instanceId m); str message] in
  match envs m !! id ≫= (fun env : Env => env !! "KINESIS") with
  | Some stream =>
      Registry.addLine m stream (Sprintf "%s %s" [str (GoTime.Format_legacy ts); str msg])
  | None => m
  end.

Lemma run_logAppEvent id message w n m :
  run (logAppEvent id message) w n m
  = mkResult (inl tt) (app_memory m id message (w _ time_Now n)) (app_calls m id message w n) [].
Proof.
  unfold logAppEvent, app_memory, app_calls. simpl.
  destruct (loggers m !! id) as [lg |]; simpl;
    (destruct (envs m !! id ≫= (fun env : Env => env !! "KINESIS")); reflexivity).
Qed.

Arguments app_calls : simpl never.
Arguments app_memory : simpl never.

Lemma app_memory_registry m id message ts :
  envs (app_memory m id message ts) = envs m
  /\ loggers (app_memory m id message ts) = loggers m
  /\ agentId (app_memory m id message ts) = agentId m.
Proof. unfold app_memory. by destruct (envs m !! id ≫= _). Qed.

Lemma app_calls_facts m id message w n :
  printed (app_calls m id message w n) = []
  /\ inspections (app_calls m id message w n) = []
  /\ reported (app_calls m id message w n) = []
  /\ clocks (app_calls m id message w n) = [w _ time_Now n]
  /\ written (app_calls m id message w n)
     = match loggers m !! id with
       | Some awslogger =>
           [(awslogger,
             mkMessage id
               ("agent:" +:+ agentVersion m +:+ "/" +:+ instanceId m +:+ " " +:+ message)
               (w _ time_Now n))]
       | None => []
       end.
Proof.
  unfold app_calls. cbv zeta. rewrite Sprintf_agent.
  by destruct (loggers m !! id).
Qed.

(** X5.  [logAppEvent] sends its message, with the version and the instance of
    the agent in front and stamped with the clock, to the sink registered
    for the container when there is one, and puts it, with the time of day
    in front, at the end of the stream the captured environment of the
    container names under KINESIS.  The key is enough: a KINESIS that is
    set to the empty string sends the message to the stream of that name.
    Nothing is printed, the answer of the sink is not looked at, and a
    container that is not registered gets no line. *)
Theorem logAppEvent_routes (id message : string) (w : world) (n : nat) (m : Monitor) :
  let r := run (logAppEvent id message) w n m in
  let now := w _ time_Now n in
  let msg := "agent:" +:+ agentVersion m +:+ "/" +:+ instanceId m +:+ " " +:+ message in
  outcome r = inl tt /\ started r = [] /\ printed (calls r) = [] /\ reported (calls r) = []
  /\ written (calls r)
     = match loggers m !! id with
       | Some awslogger => [(awslogger, mkMessage id msg now)]
       | None => []
       end
  /\ memory r
     = match envs m !! id ≫= (fun env : Env => env !! "KINESIS") with
       | Some stream => Registry.addLine m stream (GoTime.Format_legacy now +:+ " " +:+ msg)
       | None => m
       end.
Proof.
  cbv zeta. rewrite run_logAppEvent. cbn [outcome memory started calls].
  destruct (app_calls_facts m id message w n) as (-> & _ & -> & _ & ->).
  unfold app_memory. rewrite Sprintf_agent, Sprintf_pair. by repeat split.
Qed.

(** The message of a lifecycle handler: with the name of the process when
    the captured environment has one, without it otherwise. *)
Definition notice (m : Monitor) (id plain named : string) : string :=
  let p := env_at (default ∅ (envs m !! id)) "PROCESS" in
  if nonempty p then Sprintf named [str p; str (substring 0 12 id)]
  else Sprintf plain [str (substring 0 12 id)].

Lemma run_announce id plain named w n m :
  12 <= String.length id ->
  run (announce id plain named) w n m
  = run (logAppEvent id (notice m id plain named)) w n m.
Proof.
  intros Hid. unfold announce, notice.
  assert (Hs : slice id 0 12 = Some (substring 0 12 id)).
  { rewrite slice_short. by destruct (Nat.ltb_spec (String.length id) 12) as [? | _]; [lia |]. }
  rewrite Hs. run_auto. unfold Registry.getEnv.
  destruct (envs m !! id) as [env |]; cbn [from_option Datatypes.id].
  - destruct (nonempty (env_at env "PROCESS")); rewrite ?Hs; run_auto;
      by rewrite !Nat.add_0_r, !run_logAppEvent, !after_done.
  - change (env_at ∅ "PROCESS") with EmptyString. cbn [nonempty String.eqb negb].
    run_auto. by rewrite !Nat.add_0_r, !run_logAppEvent, !after_done.
Qed.

(** What a handler that prints [start] and then announces has done. *)
Definition announced (m : Monitor) (id start plain named : string) (r : result unit) : Prop :=
  outcome r = inl tt /\ started r = [] /\ inspections (calls r) = []
  /\ printed (calls r) = [system_line m start [str id]]
  /\ envs (memory r) = envs m /\ loggers (memory r) = loggers m
  /\ exists ts,
       last (clocks (calls r)) = Some ts
       /\ memory r = app_memory m id (notice m id plain named) ts
       /\ forall awslogger,
            loggers m !! id = Some awslogger ->
            In (awslogger,
                mkMessage id
                  ("agent:" +:+ agentVersion m +:+ "/" +:+ instanceId m +:+ " "
                   +:+ notice m id plain named) ts)
               (written (calls r)).

Lemma handler_announced id start plain named w n m :
  12 <= String.length id ->
  announced m id start plain named
    (run (logSystemf start [str id];; announce id plain named) w n m).
Proof.
  intros Hid. unfold announced.
  rewrite run_bind, run_logSystemf, then_done, run_announce, run_logAppEvent, after_done by done.
  cbn [outcome memory calls started app].
  destruct (app_memory_registry m id (notice m id plain named)
              (w _ time_Now (n + length (system_calls m start [str id] w n))))
    as (He & Hl & _).
  destruct (app_calls_facts m id (notice m id plain named) w
              (n + length (system_calls m start [str id] w n)))
    as (Hp & Hi & _ & Hc & Hw).
  rewrite !omap_app, system_calls_inspections, system_calls_printed, Hp, Hi, Hc, Hw.
  repeat split; try done.
  exists (w _ time_Now (n + length (system_calls m start [str id] w n))).
  split; [by rewrite last_snoc | split; [done |]].
  intros awslogger ->. apply in_or_app. right. by left.
Qed.

(** X6.  The handlers of die, kill, oom and stop, for an identifier of twelve
    bytes or more: each prints its line, makes up its message, with the
    name of the process when the captured environment has one and without
    it otherwise (an unregistered container included), and sends it the
    way of [logAppEvent], stamped with the last reading of the clock.
    None of them asks Docker anything or starts a goroutine, and none
    takes the container off the registry: its environment and its sink
    stay registered after it has died or stopped. *)
Theorem lifecycle_handlers_announce (id : string) (w : world) (n : nat) (m : Monitor) :
  12 <= String.length id ->
  announced m id "container handleDie at=start id=%s"
    "Dead process %s" "Dead %s process %s" (run (handleDie id) w n m)
  /\ announced m id "container handleKill at=start id=%s"
       "Stopped process %s via SIGKILL" "Stopped %s process %s via SIGKILL"
       (run (handleKill id) w n m)
  /\ announced m id "container handleOom at=start id=%s"
       "Stopped process %s due to OOM" "Stopped %s process %s due to OOM"
       (run (handleOom id) w n m)
  /\ announced m id "container handleStop at=start id=%s"
       "Stopped process %s via SIGTERM" "Stopped %s process %s via SIGTERM"
       (run (handleStop id) w n m).
Proof.
  intros Hid. unfold handleDie, handleKill, handleOom, handleStop.
  repeat split; by apply handler_announced.
Qed.

(** The web process of the example has died. *)
Lemma lifecycle_handlers_announce_witness :
  In (mkLogger 1,
      mkMessage "abcdef012345678" "agent:dev/i-dev Dead web process abcdef012345" epoch)
     (written (calls (run (handleDie "abcdef012345678") silent 0 web_monitor)))
  /\ envs (memory (run (handleDie "abcdef012345678") silent 0 web_monitor)) = envs web_monitor.
Proof.
  destruct (lifecycle_handlers_announce "abcdef012345678" silent 0 web_monitor)
    as [(_ & _ & _ & _ & He & _ & ts & Hlast & _ & Hw) _]; [simpl; lia |].
  split; [| exact He].
  assert (Hts : ts = epoch).
  { assert (H : last (clocks (calls (run (handleDie "abcdef012345678") silent 0 web_monitor)))
                = Some epoch) by (by vm_compute).
    rewrite H in Hlast. by injection Hlast. }
  subst ts. exact (Hw (mkLogger 1) eq_refl).
Defined.

(** ** The limits of the memory cgroup *)

Definition file_write (c : called) : option (string * string * option error) :=
  match c_call c in ext X return X -> option (string * string * option error) with
  | ioutil_WriteFile path data => fun x => Some (path, data, x)
  | _ => fun _ => None
  end (c_answer c).

(** The files a run wrote, with what was written and how it went. *)
Abbreviation file_writes := (omap file_write).

Lemma system_calls_file_writes m format a w n : file_writes (system_calls m format a w n) = [].
Proof. unfold system_calls. by destruct (loggers m !! agentId m). Qed.

Lemma report_calls_file_writes m e w n : file_writes (report_calls m e w n) = [].
Proof. unfold report_calls. by rewrite omap_app, system_calls_file_writes. Qed.

Lemma cgroup_path id file :
  Sprintf "/cgroup/memory/docker/%s/" [str id] +:+ file
  = "/cgroup/memory/docker/" +:+ id +:+ "/" +:+ file.
Proof.
  transitivity ("/cgroup/memory/docker/" +:+ ((id +:+ "/") +:+ file)); [reflexivity |].
  by rewrite append_assoc_.
Qed.

Lemma write_limit_run id file bytes w k m :
  exists tr answer,
    run (write_limit id file bytes) w k m = mkResult (inl tt) m tr []
    /\ file_writes tr = [("/cgroup/memory/docker/" +:+ id +:+ "/" +:+ file, bytes, answer)]
    /\ reported tr = match answer with Some e => [e] | None => [] end.
Proof.
  unfold write_limit. rewrite cgroup_path. run_auto.
  match goal with |- context [w _ (ioutil_WriteFile ?p ?d) ?j] =>
    destruct (w _ (ioutil_WriteFile p d) j) as [e |] eqn:Hw end; run_auto.
  - eexists _, (Some e). split; [reflexivity |].
    rewrite !omap_cons_. cbn [file_write report c_call c_answer].
    rewrite !omap_app, system_calls_file_writes, report_calls_file_writes, system_calls_reported.
    match goal with |- context [report_calls m e w ?j] =>
      destruct (report_calls_facts m e w j) as (-> & _) end.
    done.
  - eexists _, None. split; [reflexivity |]. done.
Qed.

(** Whether the captured environment of a container asks for swap. *)
Definition swap (m : Monitor) (id : string) : bool :=
  match envs m !! id with
  | Some env => String.eqb (env_at env "SWAP") "1"
  | None => false
  end.

(** X7.  [updateCgroups] does nothing at all, not even print, unless the
    captured environment of the container sets SWAP to 1.  When it does,
    the handler writes the largest 64-bit number to the three limits, the
    one with swap first, then the soft one, then the hard one; a write
    that fails is reported and the next one is made all the same.  The
    memory is as it was and the handler always ends. *)
Theorem updateCgroups_raises_limits (id : string) (w : world) (n : nat) (m : Monitor) :
  let r := run (updateCgroups id) w n m in
  outcome r = inl tt /\ memory r = m /\ started r = []
  /\ (if swap m id
      then (file_writes (calls r)).*1
           = [("/cgroup/memory/docker/" +:+ id +:+ "/memory.memsw.limit_in_bytes",
               "18446744073709551615");
              ("/cgroup/memory/docker/" +:+ id +:+ "/memory.soft_limit_in_bytes",
               "18446744073709551615");
              ("/cgroup/memory/docker/" +:+ id +:+ "/memory.limit_in_bytes",
               "18446744073709551615")]
      else calls r = [])
  /\ reported (calls r) = omap snd (file_writes (calls r)).
Proof.
  cbv zeta. unfold updateCgroups, swap.
  rewrite run_bind, run_mem, then_done. cbn [mem_sem fst snd]. unfold Registry.getEnv.
  destruct (envs m !! id) as [env |]; [| by rewrite run_ret, after_done].
  destruct (String.eqb (env_at env "SWAP") "1"); [| by rewrite run_ret, after_done].
  rewrite run_bind, run_logSystemf, then_done, run_bind, run_call, then_done, run_bind.
  match goal with |- context [run (write_limit id ?f ?b) w ?k m] =>
    destruct (write_limit_run id f b w k m) as (tr1 & a1 & -> & Hf1 & Hr1) end.
  rewrite then_done, run_bind.
  match goal with |- context [run (write_limit id ?f ?b) w ?k m] =>
    destruct (write_limit_run id f b w k m) as (tr2 & a2 & -> & Hf2 & Hr2) end.
  rewrite then_done.
  match goal with |- context [run (write_limit id ?f ?b) w ?k m] =>
    destruct (write_limit_run id f b w k m) as (tr3 & a3 & -> & Hf3 & Hr3) end.
  rewrite !after_done. cbn [outcome memory calls started app].
  repeat (progress (rewrite ?omap_app, ?omap_cons_; cbn [file_write report c_call c_answer app])).
  rewrite system_calls_file_writes, system_calls_reported.
  rewrite Hf1, Hf2, Hf3, Hr1, Hr2, Hr3. cbn.
  repeat split; try done; by destruct a1, a2, a3.
Qed.

(** ** A container that is created *)

(** What a sink for a container is opened with. *)
Definition sink_context (container : Container) (logGroup : string) : Context :=
  mkContext logGroup (ct_ID container) (ct_Name container) (ct_Path container)
    (ct_Args container) (ct_Image container) (ct_Config_Image container)
    (ct_Created container) (ct_Config_Env container) (ct_Config_Labels container).

Definition sink (c : called) : option (Context * (Logger + error)) :=
  match c_call c in ext X return X -> option (Context * (Logger + error)) with
  | awslogs_New ctx => fun x => Some (ctx, x)
  | _ => fun _ => None
  end (c_answer c).

(** The sinks a run asked for, with what it got. *)
Abbreviation sinks := (omap sink).

Lemma system_calls_sinks m format a w n : sinks (system_calls m format a w n) = [].
Proof. unfold system_calls. by destruct (loggers m !! agentId m). Qed.

Lemma system_calls_clocks_snoc m format a w n ts :
  last (clocks (system_calls m format a w n) ++ [ts]) = Some ts.
Proof. by rewrite last_snoc. Qed.

Lemma run_StartAWSLogger container logGroup w k m :
  run (StartAWSLogger container logGroup) w k m
  = match w _ (awslogs_New (sink_context container logGroup)) k with
    | inl awslogger =>
        mkResult (inl (inl awslogger)) (Registry.setLogger m (ct_ID container) awslogger)
          [Called (awslogs_New (sink_context container logGroup)) (inl awslogger)] []
    | inr e =>
        mkResult (inl (inr e)) m
          (Called (awslogs_New (sink_context container logGroup)) (inr e)
           :: system_calls m "container StartAWSLogger err=%q" [err e] w (k + 1)) []
    end.
Proof.
  unfold StartAWSLogger. fold (sink_context container logGroup). run_auto.
  destruct (w _ (awslogs_New (sink_context container logGroup)) k) as [lg | e]; run_auto.
  - reflexivity.
  - by rewrite app_nil_r.
Qed.

(** The message [handleCreate] sends about a container. *)
Definition starting (env : Env) (id : string) : string :=
  let p := env_at env "PROCESS" in
  if nonempty p then Sprintf "Starting %s process %s" [str p; str (substring 0 12 id)]
  else Sprintf "Starting process %s" [str (substring 0 12 id)].

Lemma app_calls_sinks m id message w n : sinks (app_calls m id message w n) = [].
Proof. unfold app_calls. cbv zeta. by destruct (loggers m !! id). Qed.

Lemma nonempty_true s : nonempty s = true -> s <> EmptyString.
Proof. unfold nonempty. by destruct (String.eqb_spec s EmptyString). Qed.

Lemma nonempty_false s : nonempty s = false -> s = EmptyString.
Proof. unfold nonempty. by destruct (String.eqb_spec s EmptyString). Qed.

(** The line [handleCreate] prints when the sink could not be opened:
    the error it names is the one of the inspection, which is nil. *)
Lemma Sprintf_no_sink (group process : string) :
  Sprintf "container handleCreate StartAWSLogger logGroup=%s process=%s err=%q"
    [str group; str process; nil]
  = "container handleCreate StartAWSLogger logGroup=" +:+ group
    +:+ " process=" +:+ process +:+ " err=%!q(<nil>)".
Proof. reflexivity. Qed.

(** Normalises the projections of a record of calls. *)
Ltac trace_auto :=
  repeat (progress
    (rewrite ?omap_app, ?omap_cons_, ?system_calls_inspections, ?system_calls_printed,
       ?system_calls_sinks, ?system_calls_file_writes, ?system_calls_reported,
       ?system_calls_pipes, ?system_calls_closed, ?system_calls_puts, ?app_calls_sinks;
     cbn [file_write report print write close opening inspection pipe clock put sink
          c_call c_answer app])).

(** X8.  A container that Docker describes is registered under the identifier
    it was asked for: its environment is captured and stored whether or
    not a sink can be opened.  A sink is asked for only when the
    environment names a log group; when it opens it is registered under
    the identifier of the event and under the one Docker gave, and it is
    this sink the message about the start of the process goes to; when it
    does not open no sink is registered, and the line [handleCreate]
    prints about it shows a nil error in place of the cause. *)
Theorem handleCreate_registers (id : string) (container : Container) (w : world) (n : nat)
    (m : Monitor) :
  12 <= String.length id ->
  let r := run (handleCreate id) w n m in
  head (inspections (calls r)) = Some (id, inl container) ->
  let env := capture (ct_Config_Env container) in
  let group := env_at env "LOG_GROUP" in
  let start := system_line m "container handleCreate at=start id=%s" [str id] in
  outcome r = inl tt /\ started r = [] /\ inspections (calls r) = [(id, inl container)]
  /\ envs (memory r) = <[id := env]> (envs m)
  /\ match sinks (calls r) with
     | [] =>
         group = EmptyString /\ loggers (memory r) = loggers m /\ printed (calls r) = [start]
     | [(ctx, inl awslogger)] =>
         group <> EmptyString /\ ctx = sink_context container group
         /\ loggers (memory r) = <[id := awslogger]> (<[ct_ID container := awslogger]> (loggers m))
         /\ printed (calls r)
            = [start;
               system_line m "container handleCreate StartAWSLogger logGroup=%s process=%s"
                 [str group; str (env_at env "PROCESS")]]
     | [(ctx, inr e)] =>
         group <> EmptyString /\ ctx = sink_context container group
         /\ loggers (memory r) = loggers m
         /\ printed (calls r)
            = [start;
               system_line m "container StartAWSLogger err=%q" [err e];
               "agent:" +:+ agentVersion m +:+ "/" +:+ instanceId m
               +:+ " container handleCreate StartAWSLogger logGroup=" +:+ group
               +:+ " process=" +:+ env_at env "PROCESS" +:+ " err=%!q(<nil>)"]
     | _ => False
     end
  /\ exists ts,
       last (clocks (calls r)) = Some ts
       /\ forall awslogger,
            loggers (memory r) !! id = Some awslogger ->
            In (awslogger,
                mkMessage id
                  ("agent:" +:+ agentVersion m +:+ "/" +:+ instanceId m +:+ " "
                   +:+ starting env id) ts)
               (written (calls r)).
Proof.
  intros Hid. cbv zeta. unfold handleCreate.
  assert (Hs : slice id 0 12 = Some (substring 0 12 id)).
  { rewrite slice_short. by destruct (Nat.ltb_spec (String.length id) 12) as [? | _]; [lia |]. }
  rewrite run_bind, run_logSystemf, then_done, run_bind, run_call, then_done.
  rewrite !calls_after, !omap_app, omap_cons_, system_calls_inspections.
  cbn [inspection c_call c_answer app head].
  destruct (w _ (InspectContainer id) _) as [c | e] eqn:Hw; [| intros [=]].
  intros [= <-].
  set (env := capture (ct_Config_Env c)).
  rewrite run_bind, run_mem, then_done. cbn [mem_sem fst snd].
  set (m1 := Registry.setEnv m id env).
  assert (Htail : forall k m2,
    run (short ← checked slice_bounds_out_of_range (slice id 0 12);
         msg ← (let p := env_at env "PROCESS" in
                if nonempty p then
                  short ← checked slice_bounds_out_of_range (slice id 0 12);
                  mret (Sprintf "Starting %s process %s" [str p; str short])
                else mret (Sprintf "Starting process %s" [str short]));
         logAppEvent id msg) w k m2
    = mkResult (inl tt) (app_memory m2 id (starting env id) (w _ time_Now k))
        (app_calls m2 id (starting env id) w k) []).
  { intros k m2. unfold starting. cbv zeta. rewrite Hs. run_auto.
    destruct (nonempty (env_at env "PROCESS")); rewrite ?Hs; run_auto;
      by rewrite !Nat.add_0_r, run_logAppEvent, !after_done. }
  rewrite run_bind.
  destruct (nonempty (env_at env "LOG_GROUP")) eqn:Hgroup.
  - apply nonempty_true in Hgroup.
    rewrite run_bind, run_StartAWSLogger.
    match goal with |- context [w _ (awslogs_New ?ctx) ?k] =>
      destruct (w _ (awslogs_New ctx) k) as [lg | e] end.
    + rewrite then_done, run_bind, run_logSystemf, then_done, run_mem, !after_done, then_done.
      rewrite Htail, !after_done. cbn [outcome memory calls started app mem_sem fst snd].
      match goal with |- context [app_memory ?m2 id ?msg ?ts] =>
        destruct (app_memory_registry m2 id msg ts) as (He & Hl & _);
        rewrite He, Hl end.
      match goal with |- context [app_calls ?m2 id ?msg w ?k] =>
        destruct (app_calls_facts m2 id msg w k) as (Hp & Hi & _ & Hc & Hwr);
        trace_auto; rewrite ?Hp, ?Hi, ?Hc, ?Hwr end.
      repeat split; try done.
      eexists. split; [cbn [app]; rewrite ?app_assoc; apply last_snoc |].
      intros awslogger Hlg. rewrite Hlg.
      rewrite !in_app_iff. repeat (first [by left | right]).
    + rewrite then_done, run_logSystemf, !after_done, then_done.
      rewrite Htail, !after_done. cbn [outcome memory calls started app mem_sem fst snd].
      match goal with |- context [app_memory ?m2 id ?msg ?ts] =>
        destruct (app_memory_registry m2 id msg ts) as (He & Hl & _);
        rewrite He, Hl end.
      match goal with |- context [app_calls ?m2 id ?msg w ?k] =>
        destruct (app_calls_facts m2 id msg w k) as (Hp & Hi & _ & Hc & Hwr);
        trace_auto; rewrite ?Hp, ?Hi, ?Hc, ?Hwr end.
      repeat split; try done.
      * unfold system_line. rewrite Sprintf_no_sink, !Sprintf_agent. reflexivity.
      * eexists. split; [cbn [app]; rewrite ?app_assoc; apply last_snoc |].
        intros awslogger Hlg. rewrite Hlg.
        rewrite !in_app_iff. repeat (first [by left | right]).
  - apply nonempty_false in Hgroup.
    rewrite run_ret, then_done, Htail, !after_done.
    cbn [outcome memory calls started app mem_sem fst snd].
    match goal with |- context [app_memory ?m2 id ?msg ?ts] =>
      destruct (app_memory_registry m2 id msg ts) as (He & Hl & _);
      rewrite He, Hl end.
    match goal with |- context [app_calls ?m2 id ?msg w ?k] =>
      destruct (app_calls_facts m2 id msg w k) as (Hp & Hi & _ & Hc & Hwr);
      trace_auto; rewrite ?Hp, ?Hi, ?Hc, ?Hwr end.
    repeat split; try done.
    eexists. split; [cbn [app]; rewrite ?app_assoc; apply last_snoc |].
    intros awslogger Hlg. rewrite Hlg.
    rewrite !in_app_iff. repeat (first [by left | right]).
Qed.

(** A container of the example as Docker describes it, and a world like
    the silent one in which Docker knows it and its sink opens. *)
Definition web_container : Container :=
  mkContainer "abcdef012345678" "/web" "/bin/web" [] "sha256:1" epoch "web:1"
    ["PROCESS=web"; "RELEASE=R1"; "LOG_GROUP=web-logs"; "PATH"] [] true.

Definition docker_up : world :=
  fun X c n =>
    match c in ext X return X with
    | InspectContainer _ => inl web_container
    | awslogs_New _ => inl (mkLogger 7)
    | c => silent _ c n
    end.

Lemma handleCreate_registers_witness :
  let r := run (handleCreate "abcdef012345678") docker_up 0 dev in
  outcome r = inl tt
  /\ envs (memory r)
     = <[ "abcdef012345678" := capture (ct_Config_Env web_container) ]> (envs dev).
Proof.
  cbv zeta.
  destruct (handleCreate_registers "abcdef012345678" web_container docker_up 0 dev)
    as (Ho & _ & _ & He & _); [simpl; lia | by vm_compute |].
  split; [exact Ho | exact He].
Defined.

(** ** The follower and the reader of a subscription *)

(** What the two goroutines of a round do to the things they share: the
    follower asks Docker for the logs, closes the writing end of the
    pipe and closes the channel [exit]; either signals the wait group. *)
Inductive signal :=
| s_follow (id : string) (since : Time) (w : nat) (answer : option error)
| s_pipe_close (w : nat) (answer : option error)
| s_exit_close (ch : nat)
| s_done (wg : nat).

Definition signal_of (c : called) : option signal :=
  match c_call c in ext X return X -> option signal with
  | client_Logs id since w => fun x => Some (s_follow id since w x)
  | pipe_Close w => fun x => Some (s_pipe_close w x)
  | chan_close ch => fun _ => Some (s_exit_close ch)
  | wg_Done wg => fun _ => Some (s_done wg)
  | _ => fun _ => None
  end (c_answer c).

Abbreviation signals := (omap signal_of).

Lemma system_calls_signals m format a w n : signals (system_calls m format a w n) = [].
Proof. unfold system_calls. by destruct (loggers m !! agentId m). Qed.

(** X9.  Whatever Docker answers and however the pipe closes, the follower
    asks for the logs since the reading of the clock it has just made,
    then closes its end of the pipe, then closes [exit], then signals the
    wait group: each once and in this order, so that the reader is always
    told to stop and the subscription is never left waiting.  A failure
    of either call costs a line and nothing else; the memory is not
    touched. *)
Theorem followDockerLogs_always_releases (id : string) (pipe wg exit : nat)
    (w : world) (n : nat) (m : Monitor) :
  let r := run (followDockerLogs id pipe wg exit) w n m in
  outcome r = inl tt /\ memory r = m /\ started r = []
  /\ exists since e1 e2,
       In since (clocks (calls r))
       /\ signals (calls r)
          = [s_follow id since pipe e1; s_pipe_close pipe e2; s_exit_close exit; s_done wg]
       /\ printed (calls r)
          = [system_line m "container subscribeLogs followDockerLogs id=%s at=start" [str id]]
            ++ (match e1 with Some _ =>
                  [system_line m
                     "container subscribeLogs followDockerLogs id=%s count#DockerLogsError=1"
                     [str id]]
                | None => [] end)
            ++ (match e2 with Some _ =>
                  [system_line m "container subscribeLogs w.Close id=%s count#DockerLogsError=1"
                     [str id]]
                | None => [] end)
            ++ [system_line m "container subscribeLogs followDockerLogs id=%s at=end" [str id]].
Proof.
  cbv zeta. unfold followDockerLogs.
  rewrite run_bind, run_logSystemf, then_done, run_bind, run_call, then_done.
  rewrite run_bind, run_call, then_done.
  match goal with |- context [w _ (client_Logs id ?s pipe) ?k] =>
    destruct (w _ (client_Logs id s pipe) k) as [e1 |] eqn:H1 end;
    run_auto;
    match goal with |- context [w _ (pipe_Close pipe) ?k] =>
      destruct (w _ (pipe_Close pipe) k) as [e2 |] eqn:H2 end;
    run_auto;
    match goal with |- context [inl (w _ (wg_Done wg) ?k)] =>
      destruct (w _ (wg_Done wg) k) end;
    (split; [done | split; [done | split; [done |]]]);
    do 3 eexists;
    (split; [rewrite !omap_app, !omap_cons_; cbn [clock c_call c_answer];
             rewrite !in_app_iff; right; by left |]);
    repeat (progress
      (rewrite ?omap_app, ?omap_cons_, ?system_calls_signals, ?system_calls_printed;
       cbn [signal_of print c_call c_answer app]));
    rewrite ?H1, ?H2; split; reflexivity.
Qed.

(** Accesses that leave both maps of the registry and the identity of the
    agent alone. *)
Definition keeps_registry : forall X, mem X -> bool :=
  fun X op =>
    match op with
    | m_setEnv _ _ | m_setLogger _ _ | m_write _ => false
    | _ => true
    end.

Lemma keeps_registry_mem_sem {X} (op : mem X) m :
  keeps_registry X op = true ->
  envs (mem_sem op m).2 = envs m /\ loggers (mem_sem op m).2 = loggers m.
Proof.
  destruct op; simpl; try done.
  intros _. unfold Registry.getLines. by destruct (Nat.eqb _ _).
Qed.

(** What the loop of the reader may do: housekeeping, a look at [exit]
    and a read from the pipe; it keeps the registry, starts nothing, and
    stops short only where its unfolding ends. *)
Definition reader_calls : forall X, ext X -> bool :=
  fun X c =>
    housekeeping X c || match c with chan_closed _ | ReadString _ => true | _ => false end.

Definition reader : policy :=
  mkPolicy reader_calls keeps_registry
    (fun f => match f with unfolded => true | _ => false end) false false.

Lemma reader_logSystemf format a : obeys reader (logSystemf format a).
Proof. unfold logSystemf. obeys_auto. Qed.
#[local] Hint Resolve reader_logSystemf : obeys.

Lemma reader_record tr :
  Forall (fun c => reader_calls _ (c_call c) = true) tr ->
  inspections tr = [] /\ signals tr = [] /\ pipes tr = [] /\ closed tr = [].
Proof.
  induction 1 as [| [X c x] tr Hc _ IH]; [done |].
  destruct IH as (H1 & H2 & H3 & H4).
  destruct c; simpl in Hc; try discriminate; cbn; by rewrite ?H1, ?H2, ?H3, ?H4.
Qed.

Section Reader.

Variable time_Parse : string -> Time + error.
Variable rounds : nat.

(** A line that is not empty, for an identifier of twelve bytes or more,
    goes through the parser without a panic. *)
Lemma reader_parseAndForwardLine id line :
  12 <= String.length id -> line <> EmptyString ->
  obeys reader (parseAndForwardLine time_Parse id line).
Proof.
  intros Hid Hline. unfold parseAndForwardLine.
  assert (Hs : slice id 0 12 = Some (substring 0 12 id)).
  { rewrite slice_short. by destruct (Nat.ltb_spec (String.length id) 12) as [? | _]; [lia |]. }
  destruct (string_last line Hline) as (text & c & ->). rewrite slice_last.
  repeat first
    [ match goal with |- obeys _ (checked _ (Some _)) => exact I end
    | progress rewrite Hs
    | obeys_step ].
Qed.

Lemma reader_readLines_for id r exit n :
  12 <= String.length id ->
  obeys reader (readLines_for time_Parse n id r exit).
Proof.
  intros Hid. induction n as [| n IH]; [reflexivity |].
  cbn [readLines_for].
  apply obeys_bind; [obeys_auto |]. intros closed.
  destruct closed; [auto with obeys |].
  apply obeys_bind; [obeys_auto |]. intros [line e].
  assert (Hbody : obeys reader
    ((if nonempty line then parseAndForwardLine time_Parse id line else mret tt);;
     readLines_for time_Parse n id r exit)).
  { apply obeys_bind; [| intros; exact IH].
    destruct (nonempty line) eqn:Hl; [| exact I].
    apply reader_parseAndForwardLine; [done | by apply nonempty_true]. }
  destruct e as [[| |] |]; auto with obeys.
Qed.

(** X10.  The reader of a subscription, for an identifier of twelve bytes or
    more.  It never panics: an empty line is never handed to the parser,
    so the unguarded slice of the parser always has a byte to cut.  It
    asks Docker nothing, starts nothing and registers nothing: the
    environments and the sinks are as before, only lines are added to the
    buffer.  And when its loop ends, because [exit] is closed or because
    the pipe fails with an error other than the end of the stream, it
    signals the wait group, once, and makes no other signal. *)
Theorem readLines_forwards_safely (id : string) (r wg exit : nat) (w : world) (n : nat)
    (m : Monitor) :
  12 <= String.length id ->
  let res := run (readLines time_Parse rounds id r wg exit) w n m in
  started res = [] /\ inspections (calls res) = []
  /\ envs (memory res) = envs m /\ loggers (memory res) = loggers m
  /\ match outcome res with
     | inl _ => signals (calls res) = [s_done wg]
     | inr f => f = unfolded /\ signals (calls res) = []
     end.
Proof.
  intros Hid. cbv zeta. unfold readLines.
  rewrite run_bind, run_logSystemf, then_done, run_bind.
  match goal with |- context [run (readLines_for _ _ _ _ _) w ?k m] =>
    destruct (obeys_run reader (readLines_for time_Parse rounds id r exit)
                (fun m' => envs m' = envs m /\ loggers m' = loggers m) w k m)
      as (Hc & Hstop & Hgo & He & Hl);
    [by apply reader_readLines_for
    | intros X op m' Hop [<- <-]; by apply keeps_registry_mem_sem
    | done |];
    destruct (run (readLines_for time_Parse rounds id r exit) w k m) as [o m1 tr sp] end.
  cbn [outcome memory calls started] in Hc, Hstop, Hgo, He, Hl.
  rewrite (Hgo eq_refl). destruct (reader_record _ Hc) as (Hi & Hsig & _).
  destruct o as [[] | f].
  - rewrite then_done, run_call, !after_done. cbn [outcome memory calls started app].
    rewrite !omap_app, system_calls_inspections, system_calls_signals, Hi, Hsig.
    by repeat split.
  - rewrite then_stop, after_done. cbn [outcome memory calls started app].
    rewrite !omap_app, system_calls_inspections, system_calls_signals, Hi, Hsig.
    repeat split; try done.
    specialize (Hstop f eq_refl). by destruct f.
Qed.

End Reader.

(** The reader finds [exit] closed at its first look. *)
Lemma readLines_forwards_safely_witness :
  signals (calls (run (readLines RFC3339.Parse 3 "abcdef012345678" 1 2 3) silent 0 web_monitor))
  = [s_done 2].
Proof.
  destruct (readLines_forwards_safely RFC3339.Parse 3 "abcdef012345678" 1 2 3 silent 0
              web_monitor) as (_ & _ & _ & _ & H); [simpl; lia |].
  assert (Ho : outcome (run (readLines RFC3339.Parse 3 "abcdef012345678" 1 2 3) silent 0
                          web_monitor) = inl tt) by (by vm_compute).
  rewrite Ho in H. exact H.
Defined.

(** ** The image of the ECS agent *)

(** The loop of [GetECSAgentImage] (monitor.go) over the listing. *)
Fixpoint GetECSAgentImage_range (containers : list APIContainers)
    : prog (string * option error) :=
  match containers with
  | [] => mret ("notfound", None)
  | c :: rest =>
      if HasPrefix (ac_Image c) "amazon/amazon-ecs-agent" then
        r ← call (InspectContainer (ac_ID c));
        match r with
        | inr e => mret ("unknown", Some e)
        | inl ic =>
            short ← checked slice_bounds_out_of_range (slice (ct_Image ic) 0 12);
            mret (short, None)
        end
      else GetECSAgentImage_range rest
  end.

(** [GetECSAgentImage] (monitor.go): the string and the error it
    returns. *)
Definition GetECSAgentImage : prog (string * option error) :=
  r ← call (ListContainers None);
  match r with
  | inr e => mret ("error", Some e)
  | inl containers => GetECSAgentImage_range containers
  end.

Definition listing (c : called) : option (option string * (list APIContainers + error)) :=
  match c_call c in ext X return X -> option (option string * (list APIContainers + error)) with
  | ListContainers status => fun x => Some (status, x)
  | _ => fun _ => None
  end (c_answer c).

(** The listings a run asked Docker for, with their answers. *)
Abbreviation listings := (omap listing).

Lemma system_calls_listings m format a w n : listings (system_calls m format a w n) = [].
Proof. unfold system_calls. by destruct (loggers m !! agentId m). Qed.

(** Whether a listed container runs the ECS agent. *)
Definition ecs_agent (c : APIContainers) : bool :=
  HasPrefix (ac_Image c) "amazon/amazon-ecs-agent".

Lemma GetECSAgentImage_range_run cs w k m :
  run (GetECSAgentImage_range cs) w k m
  = match List.find ecs_agent cs with
    | None => mkResult (inl ("notfound", None)) m [] []
    | Some c =>
        let answer := w _ (InspectContainer (ac_ID c)) k in
        mkResult
          match answer with
          | inr e => inl ("unknown", Some e)
          | inl ic =>
              match slice (ct_Image ic) 0 12 with
              | Some short => inl (short, None)
              | None => inr slice_bounds_out_of_range
              end
          end m [Called (InspectContainer (ac_ID c)) answer] []
    end.
Proof.
  induction cs as [| c cs IH]; [reflexivity |].
  cbn [GetECSAgentImage_range List.find]. unfold ecs_agent at 1.
  destruct (HasPrefix (ac_Image c) "amazon/amazon-ecs-agent"); [| exact IH].
  run_auto. destruct (w _ (InspectContainer (ac_ID c)) k) as [ic | e]; run_auto; [| done].
  destruct (slice (ct_Image ic) 0 12); run_auto; done.
Qed.

(** X11.  [GetECSAgentImage] lists the containers once and looks at the first
    whose image begins with amazon/amazon-ecs-agent, and at no other: it
    returns the first twelve bytes of the image of that container as the
    inspection gives it, [unknown] with the error when the inspection
    fails, [notfound] without an error when no container runs the ECS
    agent, and [error] with the error when the listing fails.  An image
    of fewer than twelve bytes makes it panic.  It prints nothing and
    leaves the memory alone. *)
Theorem GetECSAgentImage_finds_first (w : world) (n : nat) (m : Monitor) :
  let r := run GetECSAgentImage w n m in
  memory r = m /\ started r = [] /\ printed (calls r) = []
  /\ match listings (calls r) with
     | [(None, inr e)] => outcome r = inl ("error", Some e) /\ inspections (calls r) = []
     | [(None, inl cs)] =>
         match List.find ecs_agent cs with
         | None => outcome r = inl ("notfound", None) /\ inspections (calls r) = []
         | Some c =>
             exists answer,
               inspections (calls r) = [(ac_ID c, answer)]
               /\ outcome r
                  = match answer with
                    | inr e => inl ("unknown", Some e)
                    | inl ic =>
                        if Nat.ltb (String.length (ct_Image ic)) 12
                        then inr slice_bounds_out_of_range
                        else inl (substring 0 12 (ct_Image ic), None)
                    end
         end
     | _ => False
     end.
Proof.
  cbv zeta. unfold GetECSAgentImage. rewrite run_bind, run_call, then_done.
  destruct (w _ (ListContainers None) n) as [cs | e].
  - rewrite GetECSAgentImage_range_run.
    destruct (List.find ecs_agent cs) as [c |] eqn:Hfind; rewrite after_done;
      cbn [outcome memory calls started app omap list_omap listing print inspection
           c_call c_answer]; rewrite ?Hfind; [| by repeat split].
    repeat split; try done. eexists. split; [reflexivity |].
    destruct (w _ (InspectContainer (ac_ID c)) _) as [ic | e]; [| done].
    rewrite slice_short. by destruct (Nat.ltb (String.length (ct_Image ic)) 12).
  - rewrite run_ret, after_done. by repeat split.
Qed.

(** ** The inventory of the containers that have exited *)

(** A memory with the registry and the identity of the agent of
    another. *)
Definition same_registry (m m' : Monitor) : Prop :=
  envs m' = envs m /\ loggers m' = loggers m /\ agentId m' = agentId m
  /\ agentVersion m' = agentVersion m /\ instanceId m' = instanceId m.

Lemma app_memory_same m id message ts : same_registry m (app_memory m id message ts).
Proof. unfold app_memory, same_registry. by destruct (envs m !! id ≫= _). Qed.

Lemma same_registry_trans m1 m2 m3 :
  same_registry m1 m2 -> same_registry m2 m3 -> same_registry m1 m3.
Proof.
  unfold same_registry. intros (-> & -> & -> & -> & ->) (? & ? & ? & ? & ?). by repeat split.
Qed.

Lemma system_line_same m m' format a :
  same_registry m m' -> system_line m' format a = system_line m format a.
Proof. unfold system_line. by intros (_ & _ & _ & -> & ->). Qed.

Lemma app_calls_listings m id message w n : listings (app_calls m id message w n) = [].
Proof. unfold app_calls. cbv zeta. by destruct (loggers m !! id). Qed.

Lemma run_handler id start plain named w n m :
  12 <= String.length id ->
  run (logSystemf start [str id];; announce id plain named) w n m
  = let k := n + length (system_calls m start [str id] w n) in
    mkResult (inl tt) (app_memory m id (notice m id plain named) (w _ time_Now k))
      (system_calls m start [str id] w n ++ app_calls m id (notice m id plain named) w k) [].
Proof.
  intros Hid.
  by rewrite run_bind, run_logSystemf, then_done, run_announce, run_logAppEvent, after_done.
Qed.

(** The lines the inventory prints for the containers of a listing. *)
Definition exited_lines (m : Monitor) (cs : list APIContainers) : list string :=
  flat_map
    (fun c =>
       [system_line m "container handleExited id=%s" [str (ac_ID c)];
        system_line m "container handleDie at=start id=%s" [str (ac_ID c)]])
    cs.

Lemma handleExited_range_run cs : forall w k m0 m,
  same_registry m0 m ->
  Forall (fun c => 12 <= String.length (ac_ID c)) cs ->
  exists m' tr,
    run (handleExited_range cs) w k m = mkResult (inl tt) m' tr []
    /\ same_registry m0 m' /\ inspections tr = [] /\ listings tr = []
    /\ printed tr = exited_lines m0 cs.
Proof.
  induction cs as [| c cs IH]; intros w k m0 m Hm Hall.
  - exists m, []. split; [reflexivity | split; [exact Hm | by repeat split]].
  - inversion Hall as [| ? ? Hc Hcs]; subst.
    cbn [handleExited_range]. unfold handleDie.
    rewrite run_bind, run_logSystemf, then_done, run_bind, run_handler, then_done by done.
    cbv zeta.
    match goal with |- context [run (handleExited_range cs) w ?j ?m1] =>
      destruct (IH w j m0 m1) as (m' & tr & -> & Hm' & Hi & Hl & Hp); [| done |] end.
    { eapply same_registry_trans; [exact Hm | apply app_memory_same]. }
    rewrite !after_done. eexists _, _. split; [reflexivity |].
    split; [done |].
    match goal with |- context [app_calls ?m2 ?i ?msg w ?j] =>
      destruct (app_calls_facts m2 i msg w j) as (Hp' & Hi' & _) end.
    rewrite !omap_app, !system_calls_inspections, !system_calls_listings,
      !system_calls_printed, app_calls_listings, Hp', Hi', Hi, Hl, Hp.
    rewrite !(system_line_same m0 m) by done. by repeat split.
Qed.

(** X12.  The second pass of the inventory asks Docker for the containers that
    have exited and, when every identifier has twelve bytes or more,
    announces each as dead, in the order of the listing and on the spot:
    no goroutine is started, Docker is not asked about any container, and
    the registry is as before.  It prints its two lines and two for every
    container. *)
Theorem handleExited_announces_dead (cs : list APIContainers) (w : world) (n : nat)
    (m : Monitor) :
  let r := run handleExited w n m in
  head (listings (calls r)) = Some (Some "exited", inl cs) ->
  Forall (fun c => 12 <= String.length (ac_ID c)) cs ->
  outcome r = inl tt /\ started r = [] /\ inspections (calls r) = []
  /\ listings (calls r) = [(Some "exited", inl cs)]
  /\ envs (memory r) = envs m /\ loggers (memory r) = loggers m
  /\ printed (calls r)
     = [system_line m "container handleExited at=start" []]
       ++ exited_lines m cs
       ++ [system_line m "container handleExited at=end" []].
Proof.
  cbv zeta. unfold handleExited.
  rewrite run_bind, run_logSystemf, then_done, run_bind, run_call, then_done.
  rewrite !calls_after, !omap_app, omap_cons_, system_calls_listings.
  cbn [listing c_call c_answer app head].
  destruct (w _ (ListContainers (Some "exited")) _) as [cs' | e]; [| intros [=]].
  intros [= ->] Hall. rewrite run_bind.
  match goal with |- context [run (handleExited_range cs) w ?j m] =>
    destruct (handleExited_range_run cs w j m m) as (m' & tr & -> & Hm' & Hi & Hl & Hp);
      [by repeat split | done |] end.
  rewrite then_done, run_logSystemf, !after_done.
  cbn [outcome memory calls started app].
  rewrite !omap_app, !system_calls_inspections, !system_calls_listings,
    !system_calls_printed, Hi, Hl, Hp, (system_line_same m m') by done.
  destruct Hm' as (He & Hlg & _). by repeat split.
Qed.

(** Two containers have exited. *)
Lemma handleExited_announces_dead_witness :
  let cs := [mkAPIContainers "0123456789abcdef" "web:1"; mkAPIContainers "fedcba9876543210" "db:2"] in
  let exited : world :=
    fun X c n =>
      match c in ext X return X with
      | ListContainers _ => inl cs
      | c => silent _ c n
      end in
  length (printed (calls (run handleExited exited 0 web_monitor))) = 6.
Proof.
  cbv zeta.
  set (cs := [mkAPIContainers "0123456789abcdef" "web:1";
              mkAPIContainers "fedcba9876543210" "db:2"]).
  match goal with |- context [run handleExited ?w 0 web_monitor] => set (exited := w) end.
  destruct (handleExited_announces_dead cs exited 0 web_monitor) as (_ & _ & _ & _ & _ & _ & ->).
  - reflexivity.
  - repeat constructor.
  - reflexivity.
Defined.

(** X13.  A listing that fails is fatal to either pass of the inventory, at
    once: the agent has printed the first line of the pass and nothing
    else, has asked about no container, registered nothing and started
    nothing when [log.Fatal] ends it. *)
Theorem inventory_listing_error_is_fatal (time_Parse : string -> Time + error) (rounds : nat)
    (e : error) (w : world) (n : nat) (m : Monitor) :
  (let r := run (handleRunning time_Parse rounds) w n m in
   head (listings (calls r)) = Some (None, inr e) ->
   outcome r = inr (log_Fatal e) /\ memory r = m /\ started r = []
   /\ inspections (calls r) = []
   /\ printed (calls r) = [system_line m "container handleRunning at=start" []])
  /\ (let r := run handleExited w n m in
      head (listings (calls r)) = Some (Some "exited", inr e) ->
      outcome r = inr (log_Fatal e) /\ memory r = m /\ started r = []
      /\ inspections (calls r) = []
      /\ printed (calls r) = [system_line m "container handleExited at=start" []]).
Proof.
  cbv zeta. unfold handleRunning, handleExited.
  rewrite !run_bind, !run_logSystemf, !then_done, !run_bind, !run_call, !then_done.
  rewrite !calls_after, !omap_app, !omap_cons_, !system_calls_listings.
  cbn [listing c_call c_answer app head].
  split.
  - destruct (w _ (ListContainers None) _) as [cs | e']; [intros [=] |].
    intros [= ->]. rewrite run_abort, !after_done. cbn [outcome memory calls started app].
    trace_auto. by repeat split.
  - destruct (w _ (ListContainers (Some "exited")) _) as [cs | e']; [intros [=] |].
    intros [= ->]. rewrite run_abort, !after_done. cbn [outcome memory calls started app].
    trace_auto. by repeat split.
Qed.

(** A world like the silent one in which Docker cannot be reached. *)
Definition docker_down : world :=
  fun X c n =>
    match c in ext X return X with
    | ListContainers _ => inr (errorString "cannot connect to the Docker daemon")
    | c => silent _ c n
    end.

Lemma inventory_listing_error_is_fatal_witness :
  outcome (run (handleRunning RFC3339.Parse 3) docker_down 0 dev)
  = inr (log_Fatal (errorString "cannot connect to the Docker daemon"))
  /\ outcome (run handleExited docker_down 0 dev)
     = inr (log_Fatal (errorString "cannot connect to the Docker daemon")).
Proof.
  destruct (inventory_listing_error_is_fatal RFC3339.Parse 3
              (errorString "cannot connect to the Docker daemon") docker_down 0 dev)
    as [Hrunning Hexited].
  split.
  - by destruct Hrunning as (-> & _).
  - by destruct Hexited as (-> & _).
Defined.

(** ** One event of the loop *)

(** The handler the loop starts in a goroutine for an event, by its
    status. *)
Definition handler_of (time_Parse : string -> Time + error) (rounds : nat) (event : APIEvents)
    : list (prog unit) :=
  let id := ev_ID event in
  let status := ev_Status event in
  if String.eqb status "die" then [handleDie id]
  else if String.eqb status "kill" then [handleKill id]
  else if String.eqb status "oom" then [handleOom id]
  else if String.eqb status "start" then [handleStart time_Parse rounds id]
  else if String.eqb status "stop" then [handleStop id]
  else [].

(** The text the loop hands to [logSystemf] for an event. *)
Definition event_line (m : Monitor) (event : APIEvents) : string :=
  let id := ev_ID event in
  let metric := "DockerEvent" +:+ ucfirst (ev_Status event) in
  let plain :=
    Sprintf "container handleEvents id=%s time=%d count#%s=1"
      [str id; int (ev_Time event); str metric] in
  match envs m !! id with
  | Some env =>
      let p := env_at env "PROCESS" in
      if nonempty p then
        Sprintf "container handleEvents id=%s process=%s time=%d count#%s=1"
          [str id; str p; int (ev_Time event); str metric]
      else plain
  | None => plain
  end.

(** X14.  For an event that is not a creation the loop itself does next to
    nothing: it starts the handler of a die, kill, oom, start or stop in
    a goroutine of its own and none for any other status, asks Docker
    nothing, leaves the memory alone and prints one line that counts the
    event, with the name of the process when the container is registered
    with one.  The text of that line is handed to [logSystemf] as its
    format.  Only a creation is handled on the spot: its one inspection
    is made by the loop, and no goroutine is started. *)
Theorem handleEvent_dispatches (time_Parse : string -> Time + error) (rounds : nat)
    (event : APIEvents) (w : world) (n : nat) (m : Monitor) :
  let r := run (handleEvent time_Parse rounds event) w n m in
  if String.eqb (ev_Status event) "create"
  then started r = [] /\ (inspections (calls r)).*1 = [ev_ID event]
  else started r = handler_of time_Parse rounds event
       /\ inspections (calls r) = []
       /\ outcome r = inl tt /\ memory r = m
       /\ printed (calls r) = [system_line m (event_line m event) []].
Proof.
  cbv zeta. unfold handleEvent, dispatch, handler_of, event_line. cbv zeta.
  destruct (String.eqb (ev_Status event) "create").
  - rewrite run_bind.
    destruct (handleCreate_run (ev_ID event) w n m) as (Hs & Hi & _).
    destruct (run (handleCreate (ev_ID event)) w n m) as [[[] | f] m1 tr sp];
      cbn [started calls] in Hs, Hi; subst sp.
    + rewrite then_done, run_bind, run_mem, then_done, run_logSystemf, !after_done.
      cbn [started calls app]. rewrite !omap_app, system_calls_inspections, app_nil_r.
      by split.
    + rewrite then_stop. by split.
  - assert (Hrest : forall sp,
      let r := after [] sp
        (run (env ← mem_ (m_getEnv (ev_ID event));
              logSystemf
                match env with
                | Some env =>
                    if nonempty (env_at env "PROCESS")
                    then Sprintf "container handleEvents id=%s process=%s time=%d count#%s=1"
                           [str (ev_ID event); str (env_at env "PROCESS");
                            int (ev_Time event);
                            str ("DockerEvent" +:+ ucfirst (ev_Status event))]
                    else Sprintf "container handleEvents id=%s time=%d count#%s=1"
                           [str (ev_ID event); int (ev_Time event);
                            str ("DockerEvent" +:+ ucfirst (ev_Status event))]
                | None =>
                    Sprintf "container handleEvents id=%s time=%d count#%s=1"
                      [str (ev_ID event); int (ev_Time event);
                       str ("DockerEvent" +:+ ucfirst (ev_Status event))]
                end []) w (n + 0) m) in
      started r = sp /\ inspections (calls r) = [] /\ outcome r = inl tt /\ memory r = m
      /\ printed (calls r)
         = [system_line m
              match envs m !! ev_ID event with
              | Some env =>
                  if nonempty (env_at env "PROCESS")
                  then Sprintf "container handleEvents id=%s process=%s time=%d count#%s=1"
                         [str (ev_ID event); str (env_at env "PROCESS");
                          int (ev_Time event);
                          str ("DockerEvent" +:+ ucfirst (ev_Status event))]
                  else Sprintf "container handleEvents id=%s time=%d count#%s=1"
                         [str (ev_ID event); int (ev_Time event);
                          str ("DockerEvent" +:+ ucfirst (ev_Status event))]
              | None =>
                  Sprintf "container handleEvents id=%s time=%d count#%s=1"
                    [str (ev_ID event); int (ev_Time event);
                     str ("DockerEvent" +:+ ucfirst (ev_Status event))]
              end []]).
    { intros sp. cbv zeta. rewrite run_bind, run_mem, then_done, run_logSystemf, !after_done.
      cbn [outcome memory calls started app mem_sem fst snd]. unfold Registry.getEnv.
      rewrite system_calls_inspections, system_calls_printed, app_nil_r. by repeat split. }
    repeat match goal with
           | |- context [if String.eqb ?a ?b then _ else _] => destruct (String.eqb a b)
           end;
      rewrite run_bind, ?run_go, ?run_ret, then_done; apply Hrest.
Qed.

(** ** A creation and the lookups that come after it *)

(** The agent once the inventory is done: the loop of the events is the
    first goroutine, on behalf of no event yet, beside the goroutines
    that were started before it. *)
Definition boot (time_Parse : string -> Time + error) (rounds : nat) (m : Monitor)
    (tasks : list (prog unit)) : state :=
  mkState m (mkThread None (handleEvents time_Parse rounds) :: List.map (mkThread None) tasks)
    0 [].

(** The event the loop is at after so many receptions. *)
Definition loop_origin (received : nat) : option nat :=
  match received with O => None | S i => Some i end.

(** An origin that is not later than the event the loop is at. *)
Definition upto (o latest : option nat) : Prop :=
  match o, latest with
  | None, _ => True
  | Some i, Some i0 => i <= i0
  | Some _, None => False
  end.

(** An environment the loop has captured for a container: it comes from
    an inspection of that container by the loop. *)
Definition captured (hist : list entry) (id : string) (env : Env) : Prop :=
  exists o c, In (mkEntry_ 0 o (l_inspect id (inl c))) hist /\ env = capture (ct_Config_Env c).

(** Every container the loop has inspected has a captured environment in
    the registry, but for the one whose environment is still owed, and
    that one was inspected for the event the loop is at. *)
Definition stored_ok (hist : list entry) (pend : option (string * Env)) (latest : option nat)
    (es : gmap string Env) : Prop :=
  forall o id c,
    In (mkEntry_ 0 o (l_inspect id (inl c))) hist ->
    (pend = Some (id, capture (ct_Config_Env c)) /\ o = latest)
    \/ exists env, es !! id = Some env /\ captured hist id env.

(** A lookup on behalf of an event that came after the one the loop
    inspected the container for has found a captured environment. *)
Definition found_ok (hist : list entry) : Prop :=
  forall i j t id c found,
    In (mkEntry_ 0 (Some i) (l_inspect id (inl c))) hist ->
    In (mkEntry_ t (Some j) (l_getEnv id found)) hist ->
    i < j ->
    exists env, found = Some env /\ captured hist id env.

(** A step that is neither a lookup nor a successful inspection by the
    loop. *)
Definition neutral (e : entry) : Prop :=
  match e_label e with
  | l_getEnv _ _ => False
  | l_inspect _ (inl _) => e_thread e <> 0
  | _ => True
  end.

Lemma upto_next o n : upto o (loop_origin n) -> upto o (Some n).
Proof. destruct o as [i |]; [| done]. destruct n; simpl; [done | lia]. Qed.

Lemma upto_refl n : upto (loop_origin n) (loop_origin n).
Proof. destruct n; simpl; [done | lia]. Qed.

Lemma captured_snoc hist e id env : captured hist id env -> captured (hist ++ [e]) id env.
Proof. intros (o & c & Hin & ->). exists o, c. split; [| done]. apply in_or_app. by left. Qed.

Lemma stored_ok_snoc hist pend latest es e :
  stored_ok hist pend latest es ->
  (forall o id c, e <> mkEntry_ 0 o (l_inspect id (inl c))) ->
  stored_ok (hist ++ [e]) pend latest es.
Proof.
  intros Hst He o id c Hin. apply in_app_or in Hin as [Hin | [-> | []]]; [| by destruct (He o id c)].
  destruct (Hst o id c Hin) as [H | (env & H1 & H2)]; [by left |].
  right. exists env. split; [done | by apply captured_snoc].
Qed.

Lemma stored_ok_settled hist latest latest' es :
  stored_ok hist None latest es -> stored_ok hist None latest' es.
Proof. intros Hst o id c Hin. destruct (Hst o id c Hin) as [[[=] _] | H]. by right. Qed.

Lemma stored_ok_inspect hist latest es id answer :
  stored_ok hist None latest es ->
  stored_ok (hist ++ [mkEntry_ 0 latest (l_inspect id answer)]) (owed id answer) latest es.
Proof.
  intros Hst o id' c Hin. apply in_app_or in Hin as [Hin | [[= <- <- ->] | []]].
  - destruct (Hst o id' c Hin) as [[[=] _] | (env & H1 & H2)].
    right. exists env. split; [done | by apply captured_snoc].
  - by left.
Qed.

Lemma stored_ok_setEnv hist latest es id env e :
  stored_ok hist (Some (id, env)) latest es ->
  captured hist id env ->
  (forall o id c, e <> mkEntry_ 0 o (l_inspect id (inl c))) ->
  stored_ok (hist ++ [e]) None latest (<[id := env]> es).
Proof.
  intros Hst Hcap He o id' c Hin.
  apply in_app_or in Hin as [Hin | [-> | []]]; [| by destruct (He o id' c)].
  right. destruct (decide (id' = id)) as [-> | Hne].
  - exists env. rewrite lookup_insert_eq. split; [done | by apply captured_snoc].
  - destruct (Hst o id' c Hin) as [[[= -> _] _] | (env' & H1 & H2)]; [done |].
    exists env'. rewrite lookup_insert_ne by done. split; [done | by apply captured_snoc].
Qed.

Lemma found_ok_neutral hist e : found_ok hist -> neutral e -> found_ok (hist ++ [e]).
Proof.
  intros Hf He i j t id c found Hi Hj Hij.
  apply in_app_or in Hi as [Hi | [-> | []]]; [| by destruct He].
  apply in_app_or in Hj as [Hj | [-> | []]]; [| by destruct He].
  destruct (Hf i j t id c found Hi Hj Hij) as (env & -> & Hcap).
  exists env. split; [done | by apply captured_snoc].
Qed.

Lemma found_ok_getEnv hist pend latest es t o id :
  found_ok hist -> stored_ok hist pend latest es -> upto o latest ->
  found_ok (hist ++ [mkEntry_ t o (l_getEnv id (es !! id))]).
Proof.
  intros Hf Hst Ho i j t' id' c found Hi Hj Hij.
  apply in_app_or in Hi as [Hi | [[=] | []]].
  apply in_app_or in Hj as [Hj | [[= <- -> <- <-] | []]].
  - destruct (Hf i j t' id' c found Hi Hj Hij) as (env & -> & Hcap).
    exists env. split; [done | by apply captured_snoc].
  - destruct (Hst (Some i) id c Hi) as [[_ <-] | (env & Hes & Hcap)].
    + simpl in Ho. lia.
    + exists env. split; [done | by apply captured_snoc].
Qed.

Lemma found_ok_inspect hist latest id answer :
  found_ok hist ->
  Forall (fun e => upto (e_origin e) latest) hist ->
  found_ok (hist ++ [mkEntry_ 0 latest (l_inspect id answer)]).
Proof.
  intros Hf Hup i j t id' c found Hi Hj Hij.
  apply in_app_or in Hj as [Hj | [[=] | []]].
  apply in_app_or in Hi as [Hi | [[= -> <- ->] | []]].
  - destruct (Hf i j t id' c found Hi Hj Hij) as (env & -> & Hcap).
    exists env. split; [done | by apply captured_snoc].
  - rewrite List.Forall_forall in Hup. specialize (Hup _ Hj). simpl in Hup. lia.
Qed.

Lemma replace_Forall {A} (P : A -> Prop) l i x :
  Forall P l -> P x -> Forall P (replace l i x).
Proof.
  intros Hl Hx. revert i; induction Hl as [| y l Hy Hl IH]; intros i; [done |].
  destruct i; simpl; constructor; auto.
Qed.

Lemma nth_error_Forall {A} (P : A -> Prop) l i x :
  Forall P l -> nth_error l i = Some x -> P x.
Proof. rewrite List.Forall_forall. intros Hl Hi. apply Hl. by eapply nth_error_In. Qed.

(** What holds of every state the agent reaches. *)
Definition invariant (s : state) : Prop :=
  exists pend p0 rest,
    pool s = mkThread (loop_origin (received s)) p0 :: rest
    /\ stretch pend p0 (fun _ pd => pd = None)
    /\ Forall (fun th => obeys task (code th) /\ upto (origin th) (loop_origin (received s))) rest
    /\ Forall (fun e => upto (e_origin e) (loop_origin (received s))) (history s)
    /\ (forall id env, pend = Some (id, env) -> captured (history s) id env)
    /\ stored_ok (history s) pend (loop_origin (received s)) (envs (shared s))
    /\ found_ok (history s).

(** A step that leaves the environments and what is owed as they are. *)
Lemma invariant_frame s pend p0 rest p1 rest' m' e :
  pool s = mkThread (loop_origin (received s)) p0 :: rest ->
  Forall (fun e => upto (e_origin e) (loop_origin (received s))) (history s) ->
  (forall id env, pend = Some (id, env) -> captured (history s) id env) ->
  stored_ok (history s) pend (loop_origin (received s)) (envs (shared s)) ->
  found_ok (history s) ->
  stretch pend p1 (fun _ pd => pd = None) ->
  Forall (fun th => obeys task (code th) /\ upto (origin th) (loop_origin (received s))) rest' ->
  envs m' = envs (shared s) ->
  upto (e_origin e) (loop_origin (received s)) ->
  neutral e \/ (exists id, e_label e = l_getEnv id (envs (shared s) !! id)) ->
  invariant (mkState m' (mkThread (loop_origin (received s)) p1 :: rest') (received s)
               (history s ++ [e])).
Proof.
  intros Hpool Hhist Hpend Hst Hf Hloop Htasks Henvs Hup He.
  exists pend, p1, rest'. simpl. rewrite Henvs.
  split; [done | split; [done | split; [done |]]].
  split; [apply Forall_app; split; [done | by constructor] |].
  split; [intros id env Hp; by apply captured_snoc, Hpend |].
  split.
  - apply stored_ok_snoc; [done |]. intros o id c ->.
    destruct He as [He | (id' & He)]; [by apply He | discriminate He].
  - destruct He as [He | (id & He)]; [by apply found_ok_neutral |].
    destruct e as [t o lbl]. simpl in He, Hup. subst lbl. by eapply found_ok_getEnv.
Qed.

Lemma kind_keeps {X} (op : mem X) : kind_of_mem op = k_keeps -> keeps_envs X op = true.
Proof. by destruct op. Qed.

Lemma label_mem_keeps {X} (op : mem X) m t o :
  keeps_envs X op = true ->
  envs (mem_sem op m).2 = envs m
  /\ (neutral (mkEntry_ t o (label_mem op (mem_sem op m).1))
      \/ exists id, label_mem op (mem_sem op m).1 = l_getEnv id (envs m !! id)).
Proof.
  intros Hop. split; [by apply keeps_envs_mem_sem |].
  destruct op; simpl in *; try discriminate; try (by left).
  right. by eexists.
Qed.

Lemma label_call_task {X} (c : ext X) x t o :
  not_receiving X c = true -> neutral (mkEntry_ (S t) o (label_call c x)).
Proof. destruct c; simpl; try done. by destruct x. Qed.

Lemma label_call_plain {X} (c : ext X) x t o :
  kind_of_call c = k_plain -> receives c = false /\ neutral (mkEntry_ t o (label_call c x)).
Proof. by destruct c. Qed.

Lemma invariant_step w t s s' : invariant s -> step w t s = Some s' -> invariant s'.
Proof.
  intros (pend & p0 & rest & Hpool & Hloop & Htasks & Hhist & Hpend & Hst & Hf) Hstep.
  unfold step in Hstep. rewrite Hpool in Hstep. destruct t as [| t]; simpl in Hstep.
  - destruct p0 as [a | f | X op k | X c k | child k]; try discriminate.
    + (* an access of the loop to the memory *)
      destruct (mem_sem op (shared s)) as [x m'] eqn:Hsem. injection Hstep as <-.
      simpl in Hloop. destruct (kind_of_mem op) as [id env | |] eqn:Hkind; [| done |].
      * destruct Hloop as [-> Hk].
        assert (Hop : m' = Registry.setEnv (shared s) id env
                      /\ label_mem op x = l_setEnv id env).
        { destruct op; try discriminate Hkind. injection Hkind as -> ->.
          simpl in Hsem. by injection Hsem as <- <-. }
        destruct Hop as (-> & Hlabel). rewrite Hlabel.
        exists None, (k x), rest. simpl.
        split; [done | split; [apply Hk | split; [done |]]].
        split; [apply Forall_app; split; [done | constructor; [apply upto_refl | done]] |].
        split; [done |].
        split; [| by apply found_ok_neutral].
        eapply stored_ok_setEnv; [done | by apply Hpend | done].
      * destruct (label_mem_keeps op (shared s) 0 (loop_origin (received s)) (kind_keeps op Hkind))
          as [Henvs Hlabel].
        rewrite Hsem in Henvs, Hlabel. simpl in Henvs, Hlabel.
        exact (invariant_frame s pend _ rest (k x) rest m'
                 (mkEntry_ 0 (loop_origin (received s)) (label_mem op x))
                 Hpool Hhist Hpend Hst Hf (Hloop x) Htasks Henvs (upto_refl _) Hlabel).
    + (* a call of the loop *)
      simpl in Hloop. destruct (kind_of_call c) as [id answer | |] eqn:Hkind.
      * destruct Hloop as [-> Hk].
        assert (Hc : receives c = false
                     /\ forall x, label_call c x = l_inspect id (answer x)).
        { destruct c; try discriminate Hkind. injection Hkind as -> <-. by split. }
        destruct Hc as [Hrecv Hlabel]. rewrite Hrecv in Hstep. injection Hstep as <-.
        rewrite Hlabel.
        exists (owed id (answer (w X c))), (k (w X c)), rest. simpl.
        split; [done | split; [apply Hk | split; [done |]]].
        split; [apply Forall_app; split; [done | constructor; [apply upto_refl | done]] |].
        split.
        { intros id' env Howed. unfold owed in Howed.
          destruct (answer (w X c)) as [ct | e] eqn:Hanswer; [| discriminate].
          injection Howed as <- <-. exists (loop_origin (received s)), ct.
          split; [| done]. apply in_or_app. right. by left. }
        split; [by apply stored_ok_inspect | by apply found_ok_inspect].
      * destruct Hloop as [-> Hk].
        assert (Hc : receives c = true /\ forall x o, neutral (mkEntry_ 0 o (label_call c x))).
        { destruct c; try discriminate Hkind. by split. }
        destruct Hc as [Hrecv Hneutral]. rewrite Hrecv in Hstep. injection Hstep as <-.
        exists None, (k (w X c)), rest. simpl.
        split; [done | split; [apply Hk |]].
        split.
        { eapply List.Forall_impl; [| exact Htasks]. intros th [H1 H2]. split; [done |].
          by apply upto_next. }
        split.
        { apply Forall_app. split.
          - eapply List.Forall_impl; [| exact Hhist]. intros e He. by apply upto_next.
          - constructor; [simpl; lia | done]. }
        split; [done |].
        split; [| by apply found_ok_neutral].
        apply stored_ok_snoc; [by eapply stored_ok_settled |].
        intros o id ct Heq. specialize (Hneutral (w X c) (Some (received s))).
        rewrite Heq in Hneutral. by apply Hneutral.
      * destruct (label_call_plain c (w X c) 0 (loop_origin (received s)) Hkind)
          as [Hrecv Hneutral].
        rewrite Hrecv in Hstep. injection Hstep as <-.
        exact (invariant_frame s pend _ rest (k (w X c)) rest (shared s)
                 (mkEntry_ 0 (loop_origin (received s)) (label_call c (w X c)))
                 Hpool Hhist Hpend Hst Hf (Hloop _) Htasks eq_refl (upto_refl _)
                 (or_introl Hneutral)).
    + (* a goroutine started by the loop *)
      injection Hstep as <-. simpl in Hloop. destruct Hloop as (-> & Hchild & Hk).
      refine (invariant_frame s None _ rest k
                (rest ++ [mkThread (loop_origin (received s)) child]) (shared s)
                (mkEntry_ 0 (loop_origin (received s)) (l_go _))
                Hpool Hhist Hpend Hst Hf Hk _ eq_refl (upto_refl _) (or_introl I)).
      apply List.Forall_app. split; [done |]. constructor; [| done]. split; [done |].
      apply upto_refl.
  - destruct (nth_error rest t) as [th |] eqn:Hth; [| discriminate].
    destruct (nth_error_Forall _ _ _ _ Htasks Hth) as [Htask Hup].
    destruct (code th) as [a | f | X op k | X c k | child k] eqn:Hcode; try discriminate.
    + (* an access of a handler to the memory *)
      destruct (mem_sem op (shared s)) as [x m'] eqn:Hsem. injection Hstep as <-.
      simpl in Htask. destruct Htask as [Hop Hk].
      destruct (label_mem_keeps op (shared s) (S t) (origin th) Hop) as [Henvs Hlabel].
      rewrite Hsem in Henvs, Hlabel. simpl in Henvs, Hlabel.
      refine (invariant_frame s pend p0 rest p0
                (replace rest t (mkThread (origin th) (k x))) m'
                (mkEntry_ (S t) (origin th) (label_mem op x))
                Hpool Hhist Hpend Hst Hf Hloop _ Henvs Hup Hlabel).
      apply replace_Forall; [done |]. split; [apply Hk | done].
    + (* a call of a handler *)
      simpl in Htask. destruct Htask as [Hc Hk].
      assert (Hrecv : receives c = false).
      { unfold not_receiving in Hc. by destruct (receives c). }
      rewrite Hrecv in Hstep. injection Hstep as <-.
      refine (invariant_frame s pend p0 rest p0
                (replace rest t (mkThread (origin th) (k (w X c)))) (shared s)
                (mkEntry_ (S t) (origin th) (label_call c (w X c)))
                Hpool Hhist Hpend Hst Hf Hloop _ eq_refl Hup
                (or_introl (label_call_task c _ t _ Hc))).
      apply replace_Forall; [done |]. split; [apply Hk | done].
    + (* a goroutine started by a handler *)
      injection Hstep as <-. simpl in Htask. destruct Htask as (_ & Hchild & Hk).
      refine (invariant_frame s pend p0 rest p0
                (replace rest t (mkThread (origin th) k) ++ [mkThread (origin th) child])
                (shared s) (mkEntry_ (S t) (origin th) (l_go _))
                Hpool Hhist Hpend Hst Hf Hloop _ eq_refl Hup (or_introl I)).
      apply List.Forall_app. split.
      * apply replace_Forall; [done |]. by split.
      * constructor; [| done]. split; [by apply Hchild | done].
Qed.

Lemma invariant_boot time_Parse rounds m tasks :
  Forall (fun p => obeys task p) tasks -> invariant (boot time_Parse rounds m tasks).
Proof.
  intros Htasks. exists None, (handleEvents time_Parse rounds), (List.map (mkThread None) tasks).
  simpl. split; [done | split; [apply settled_handleEvents |]].
  split.
  { induction Htasks as [| p tasks Hp _ IH]; simpl; [constructor |].
    constructor; [by split | exact IH]. }
  split; [done | split; [done |]].
  split; [by intros ? ? ? [] | by intros ? ? ? ? ? ? []].
Qed.

Lemma invariant_reachable s0 s : invariant s0 -> reachable s0 s -> invariant s.
Proof. intros H0. induction 1 as [| s w t s' _ IH Hstep]; [done |]. by eapply invariant_step. Qed.

(** X15.  The loop of the events handles a creation before it receives the
    next event, and nothing but that loop stores an environment.  So in
    every state the agent reaches, however its goroutines take turns and
    whatever the world answers: when the loop has inspected a container
    with success while at one event, a lookup of that container made on
    behalf of a later event, by the loop or by the handler of a start or
    any other goroutine, finds an environment, and it is one the loop
    captured from an inspection of that container; when all inspections
    of the container by the loop report the same variables, it is the
    environment captured from this one.  The goroutines started before
    the loop are held to what the handlers do: they store no environment
    and do not receive events. *)
Theorem lookup_follows_creation (time_Parse : string -> Time + error) (rounds : nat)
    (m : Monitor) (tasks : list (prog unit)) (s : state)
    (i j t : nat) (id : string) (c : Container) (found : option Env) :
  Forall (fun p => obeys task p) tasks ->
  reachable (boot time_Parse rounds m tasks) s ->
  In (mkEntry_ 0 (Some i) (l_inspect id (inl c))) (history s) ->
  In (mkEntry_ t (Some j) (l_getEnv id found)) (history s) ->
  i < j ->
  (exists env, found = Some env /\ captured (history s) id env)
  /\ ((forall o c', In (mkEntry_ 0 o (l_inspect id (inl c'))) (history s) ->
         ct_Config_Env c' = ct_Config_Env c) ->
      found = Some (capture (ct_Config_Env c))).
Proof.
  intros Htasks Hs Hi Hj Hij.
  destruct (invariant_reachable _ s (invariant_boot time_Parse rounds m tasks Htasks) Hs)
    as (pend & p0 & rest & _ & _ & _ & _ & _ & _ & Hf).
  destruct (Hf i j t id c found Hi Hj Hij) as (env & -> & o & c' & Hin & ->).
  split; [exists (capture (ct_Config_Env c')); split; [done | by exists o, c'] |].
  intros Hsame. by rewrite (Hsame o c' Hin).
Qed.

(** A creation and a start of the container of the example. *)
Definition created : APIEvents := mkAPIEvents "create" "abcdef012345678" 1446541200.
Definition restarted : APIEvents := mkAPIEvents "start" "abcdef012345678" 1446541201.

(** A world like the silent one in which Docker knows the container and
    the channel delivers the creation, then the start, and is closed. *)
Definition lively : world :=
  fun X c n =>
    match c in ext X return X with
    | InspectContainer _ => inl web_container
    | chan_recv => match n with 0 => Some created | 1 => Some restarted | _ => None end
    | c => silent _ c n
    end.

(** The loop runs until the channel is closed, then the handler of the
    start takes its first steps. *)
Definition loop_first : list nat := repeat 0 40 ++ repeat 1 12.

(** The handler of the start, the second goroutine, looks the container
    up on behalf of the second event and finds what the loop captured
    at the first. *)
Lemma lookup_follows_creation_witness :
  let s := play lively loop_first (boot RFC3339.Parse 3 dev []) in
  In (mkEntry_ 1 (Some 1)
        (l_getEnv "abcdef012345678" (Some (capture (ct_Config_Env web_container)))))
     (history s).
Proof.
  cbv zeta.
  assert (Hj : nth_error (history (play lively loop_first (boot RFC3339.Parse 3 dev []))) 41
               = Some (mkEntry_ 1 (Some 1)
                         (l_getEnv "abcdef012345678"
                            (Some (capture (ct_Config_Env web_container))))))
    by (by vm_compute).
  apply nth_error_In in Hj.
  assert (Hi : nth_error (history (play lively loop_first (boot RFC3339.Parse 3 dev []))) 9
               = Some (mkEntry_ 0 (Some 0) (l_inspect "abcdef012345678" (inl web_container))))
    by (by vm_compute).
  apply nth_error_In in Hi.
  destruct (lookup_follows_creation RFC3339.Parse 3 dev []
              (play lively loop_first (boot RFC3339.Parse 3 dev []))
              0 1 1 "abcdef012345678" web_container
              (Some (capture (ct_Config_Env web_container))))
    as [(env & Henv & _) _].
  - constructor.
  - apply play_reachable. constructor.
  - exact Hi.
  - exact Hj.
  - lia.
  - injection Henv as <-. exact Hj.
Defined.

(** ** More on the batched forwarder *)

(** The forwarder of the example stops on the nil answer. *)
Lemma streamLogs_after_transport_error_witness :
  outcome (run (streamLogs_stream "logs") unreachable 0 one_pending)
  = inr nil_pointer_dereference.
Proof.
  destruct (streamLogs_after_transport_error "logs"
              [mkRequestEntry "2015-11-03 09:15:00 hello" epoch]
              (errorString "RequestError: send request failed") None unreachable 0 one_pending)
    as [_ [H _]]; [by vm_compute | exact H].
Defined.

(** Every batch of a run has at least one record and at most 500. *)
Definition bounded {A} (r : result A) : Prop :=
  Forall (fun p : string * list PutRecordsRequestEntry * (option PutRecordsOutput * option error)
          => 1 <= length p.1.2 <= 500)
    (puts (calls r)).

Lemma bounded_bind {A B} (p : prog A) (q : A -> prog B) w n m :
  (forall w n m, bounded (run p w n m)) ->
  (forall a w n m, bounded (run (q a) w n m)) ->
  bounded (run (p ≫= q) w n m).
Proof.
  intros Hp Hq. unfold bounded. rewrite run_bind. unfold then_.
  specialize (Hp w n m). unfold bounded in Hp.
  destruct (run p w n m) as [[a | f] m1 tr1 sp1]; cbn [outcome memory calls started] in *;
    [| done].
  rewrite calls_after, omap_app. apply Forall_app. split; [done | apply Hq].
Qed.

Lemma streamLogs_stream_bounded stream w n m : bounded (run (streamLogs_stream stream) w n m).
Proof.
  unfold bounded.
  destruct (streamLogs_stream_run stream w n m) as (_ & _ & Hbatch).
  pose proof (getLines_take m stream) as Htake.
  destruct (Registry.getLines m stream).1 as [| line l] eqn:Hl.
  - destruct Hbatch as [-> _]. constructor.
  - destruct Hbatch as (records & answer & -> & Hdata & _).
    constructor; [| constructor]. simpl.
    rewrite <- (length_map Data), Hdata, Htake, length_firstn.
    assert (length (firstn 500 (Registry.pending m stream)) = S (length l))
      by (by rewrite <- Htake).
    rewrite length_firstn in *. lia.
Qed.

(** X16.  The forwarder never submits an empty batch and never one of more than
    500 records, the most a call to PutRecords may carry: over any number
    of ticks every batch it hands to Kinesis has between 1 and 500
    records. *)
Theorem streamLogs_batches_bounded (ticks : nat) (w : world) (n : nat) (m : Monitor) :
  Forall (fun p : string * list PutRecordsRequestEntry * (option PutRecordsOutput * option error)
          => 1 <= length p.1.2 <= 500)
    (puts (calls (run (streamLogs_for ticks) w n m))).
Proof.
  change (bounded (run (streamLogs_for ticks) w n m)).
  revert w n m. induction ticks as [| ticks IH]; intros w n m; [constructor |].
  cbn [streamLogs_for].
  apply bounded_bind; [intros; by repeat constructor |]. intros _ w1 n1 m1.
  apply bounded_bind; [| auto]. intros w2 n2 m2. unfold streamLogs_tick.
  apply bounded_bind; [intros w3 n3 m3; rewrite run_mem; constructor |].
  intros streams w3 n3 m3.
  revert w3 n3 m3. induction streams as [| stream streams IHs]; intros w3 n3 m3; [constructor |].
  cbn [streamLogs_range]. apply bounded_bind; [apply streamLogs_stream_bounded | auto].
Qed.

(** A record that carries an error code and no message. *)
Definition incomplete (r : PutRecordsResultEntry) : Prop :=
  flagged r = true /\ ErrorMessage r = None.

Lemma tally_incomplete rs : forall errorCount errorMsg w k m,
  Exists incomplete rs ->
  outcome (run (tally rs errorCount errorMsg) w k m) = inr nil_pointer_dereference.
Proof.
  induction rs as [| r rs IH]; intros errorCount errorMsg w k m Hex; [by inversion Hex |].
  cbn [tally]. unfold incomplete, flagged in *.
  destruct (ErrorCode r) as [code |] eqn:Hcode.
  - destruct (ErrorMessage r) as [message |] eqn:Hmessage; [| reflexivity].
    rewrite run_bind, run_checked_Some, then_done, outcome_after. apply IH.
    inversion Hex as [? ? [_ H] | ? ? H]; subst; [| done].
    rewrite Hmessage in H. discriminate H.
  - apply IH. inversion Hex as [? ? [H _] | ? ? H]; subst; [| done].
    rewrite Hcode in H. discriminate H.
Qed.

(** X17.  The forwarder reads the message of every record that carries an error
    code without looking whether there is one: an answer in which a
    flagged record has no message stops it on a nil pointer, after the
    batch has left the buffer. *)
Theorem streamLogs_flagged_without_message (stream : string)
    (records : list PutRecordsRequestEntry) (res : PutRecordsOutput) (e : option error)
    (w : world) (n : nat) (m : Monitor) :
  let r := run (streamLogs_stream stream) w n m in
  puts (calls r) = [(stream, records, (Some res, e))] ->
  Exists incomplete (Records res) ->
  outcome r = inr nil_pointer_dereference
  /\ Registry.pending (memory r) stream = skipn 500 (Registry.pending m stream).
Proof.
  cbv zeta. intros Hputs Hex.
  destruct (streamLogs_stream_run stream w n m) as (Hm & _ & _).
  split; [| by rewrite Hm, getLines_drop].
  revert Hputs. unfold streamLogs_stream.
  rewrite run_bind, run_mem, then_done. cbn [mem_sem].
  destruct (Registry.getLines m stream) as [l m'] eqn:Hget. cbn [fst snd].
  destruct l as [| line l]; [by rewrite run_ret, after_done |].
  rewrite run_bind.
  match goal with |- context [run (requests ?b) w ?k m'] =>
    destruct (requests_run b w k m') as (records' & tr & -> & Hdata & Hputs & Hprinted) end.
  rewrite then_done, run_bind, run_call, then_done.
  match goal with |- context [w _ (Kinesis_PutRecords stream records') ?k] =>
    destruct (w _ (Kinesis_PutRecords stream records') k) as [res' e'] eqn:Hanswer end.
  rewrite !calls_after, !outcome_after, !omap_app, Hputs, omap_cons_.
  cbn [app put c_call c_answer]. intros [= <- -> ->].
  rewrite run_bind, outcome_then.
  assert (Hlog : forall j, exists tr1,
    run (match e with
         | Some e =>
             logSystemf "container streamLogs stream=%s count#KinesisPutRecordsError=1 err=%q"
               [str stream; err e]
         | None => mret tt
         end) w j m'
    = mkResult (inl tt) m' tr1 []).
  { intros j. destruct e; [rewrite run_logSystemf | rewrite run_ret]; by eexists. }
  match goal with |- context [run (match e with Some _ => _ | None => _ end) w ?j m'] =>
    destruct (Hlog j) as (tr1 & ->) end.
  cbn [outcome memory calls].
  rewrite run_bind, run_checked_Some, then_done, outcome_after.
  rewrite run_bind, outcome_then. by rewrite tally_incomplete.
Qed.

(** Kinesis flags the second record of two and says no more about it. *)
Lemma streamLogs_flagged_without_message_witness :
  let mute : world :=
    fun X c n =>
      match c in ext X return X with
      | Kinesis_PutRecords _ _ =>
          (Some (mkOutput [accepted; mkEntry (Some "InternalFailure") None]), None)
      | c => silent _ c n
      end in
  outcome (run (streamLogs_stream "logs") mute 0 (Registry.addLine one_pending "logs" "again"))
  = inr nil_pointer_dereference.
Proof.
  cbv zeta.
  match goal with |- outcome (run _ ?w 0 ?m) = _ =>
    destruct (streamLogs_flagged_without_message "logs"
                [mkRequestEntry "2015-11-03 09:15:00 hello" epoch; mkRequestEntry "again" epoch]
                (mkOutput [accepted; mkEntry (Some "InternalFailure") None]) None w 0 m)
      as [H _] end.
  - by vm_compute.
  - apply Exists_cons_tl, Exists_cons_hd. by split.
  - exact H.
Defined.

(** ** The rounds of a subscription *)

Definition wait (c : called) : option nat :=
  match c_call c with wg_Wait wg => Some wg | _ => None end.

(** The wait groups a run has waited for. *)
Abbreviation waits := (omap wait).

Lemma idle_reconcile id answer : obeys idle (reconcile id answer).
Proof. unfold reconcile. obeys_auto. Qed.

(** *** The order of a round *)

(** What a program lets be seen as it goes: a call with the answer it
    got, or a goroutine it started. *)
Inductive happening :=
| did (c : called)
| began (t : prog unit).

(** [script p w n m]: the calls and the goroutines of the run of [p] from
    the memory [m], in one list and in the order of the program; [run]
    keeps the same calls and the same goroutines in two lists. *)
Fixpoint script {A} (p : prog A) (w : world) (n : nat) (m : Monitor) : list happening :=
  match p with
  | Ret _ => []
  | Abort _ => []
  | Mem op k => let '(x, m') := mem_sem op m in script (k x) w n m'
  | Call c k => let x := w _ c n in did (Called c x) :: script (k x) w (S n) m
  | Go t k => began t :: script k w n m
  end.

Fixpoint dids (l : list happening) : list called :=
  match l with
  | [] => []
  | did c :: l => c :: dids l
  | began _ :: l => dids l
  end.

Fixpoint begans (l : list happening) : list (prog unit) :=
  match l with
  | [] => []
  | did _ :: l => begans l
  | began t :: l => t :: begans l
  end.

Lemma script_run {A} (p : prog A) w : forall n m,
  dids (script p w n m) = calls (run p w n m)
  /\ begans (script p w n m) = started (run p w n m).
Proof.
  induction p as [A a | A e | A X op k IH | A X c k IH | A t _ k IH]; intros n m; simpl.
  - done.
  - done.
  - destruct (mem_sem op m) as [x m']. apply IH.
  - destruct (IH (w X c n) (S n) m) as [H1 H2]. by rewrite H1, H2.
  - destruct (IH n m) as [H1 H2]. by rewrite H1, H2.
Qed.

Lemma script_bind {A B} (p : prog A) (f : A -> prog B) w : forall n m,
  script (p ≫= f) w n m
  = script p w n m
    ++ match outcome (run p w n m) with
       | inl a => script (f a) w (n + length (calls (run p w n m))) (memory (run p w n m))
       | inr _ => []
       end.
Proof.
  unfold mbind, prog_bind.
  induction p as [A a | A e | A X op k IH | A X c k IH | A t _ k IH]; intros n m; simpl.
  - by rewrite Nat.add_0_r.
  - done.
  - destruct (mem_sem op m) as [x m']. apply IH.
  - rewrite IH. unfold record; simpl. by rewrite Nat.add_succ_r.
  - rewrite IH. unfold spawn; simpl. done.
Qed.

(** What matters to the wiring of a round: the wait group, the channel
    and the pipe that were made, as the world handed them over, a
    goroutine started, a wait for a wait group, an inspection. *)
Inductive mark :=
| group_made (wg : nat)
| channel_made (exit : nat)
| pipe_made (pipe : nat)
| goroutine (t : prog unit)
| waited (wg : nat)
| inspected (id : string).

Definition mark_of (h : happening) : option mark :=
  match h with
  | began t => Some (goroutine t)
  | did c =>
      match c_call c in ext X return X -> option mark with
      | new_WaitGroup => fun wg => Some (group_made wg)
      | make_chan => fun exit => Some (channel_made exit)
      | io_Pipe => fun pipe => Some (pipe_made pipe)
      | wg_Wait wg => fun _ => Some (waited wg)
      | InspectContainer id => fun _ => Some (inspected id)
      | _ => fun _ => None
      end (c_answer c)
  end.

(** The marks of a script, in its order. *)
Fixpoint wiring (l : list happening) : list mark :=
  match l with
  | [] => []
  | h :: l =>
      match mark_of h with
      | Some k => k :: wiring l
      | None => wiring l
      end
  end.

Lemma wiring_app l l' : wiring (l ++ l') = wiring l ++ wiring l'.
Proof.
  induction l as [| h l IH]; [done |].
  change ((h :: l) ++ l') with (h :: (l ++ l')). cbn [wiring]. rewrite IH.
  by destruct (mark_of h).
Qed.

(** The calls that leave a mark. *)
Definition wired : forall X, ext X -> bool :=
  fun X c =>
    match c with
    | new_WaitGroup | make_chan | io_Pipe | wg_Wait _ | InspectContainer _ => true
    | _ => false
    end.

(** A program that starts no goroutine and makes none of these calls
    leaves no mark. *)
Lemma obeys_wiring π {A} (p : prog A) w :
  obeys π p -> ok_go π = false ->
  (forall X c, ok_call π X c = true -> wired X c = false) ->
  forall n m, wiring (script p w n m) = [].
Proof.
  intros Hp Hgo Hcalls.
  induction p as [A a | A e | A X op k IH | A X c k IH | A t _ k IH]; intros n m; simpl in *.
  - done.
  - done.
  - destruct Hp as [_ Hk]. destruct (mem_sem op m) as [x m']. by apply IH.
  - destruct Hp as [Hc Hk]. apply Hcalls in Hc.
    rewrite (IH _ (Hk _)). by destruct c.
  - destruct Hp as (Hp & _). congruence.
Qed.

Lemma housekeeping_wired X (c : ext X) : housekeeping X c = true -> wired X c = false.
Proof. by destruct c. Qed.

Lemma logSystemf_wiring format a w n m : wiring (script (logSystemf format a) w n m) = [].
Proof.
  apply (obeys_wiring idle); [apply idle_logSystemf | done | apply housekeeping_wired].
Qed.

Lemma reconcile_wiring id answer w n m : wiring (script (reconcile id answer) w n m) = [].
Proof.
  apply (obeys_wiring idle); [apply idle_reconcile | done | apply housekeeping_wired].
Qed.

(** Housekeeping and the closing of a sink. *)
Definition closing : policy :=
  mkPolicy (fun X c => housekeeping X c || match c with Logger_Close _ => true | _ => false end)
    reads (fun _ => false) false false.

Lemma closing_idle {A} (p : prog A) : obeys idle p -> obeys closing p.
Proof.
  apply obeys_weaken; try done.
  intros X c H. simpl in *. by rewrite H.
Qed.

Lemma closeLogger_wiring id w n m : wiring (script (closeLogger id) w n m) = [].
Proof.
  apply (obeys_wiring closing); [| done |].
  - unfold closeLogger. obeys_auto;
      first [apply closing_idle, idle_logSystemf | apply closing_idle, idle_ReportError].
  - intros X c. by destruct c.
Qed.

(** What the marks hold of the lists a run keeps. *)
Fixpoint marked_goroutines (l : list mark) : list (prog unit) :=
  match l with
  | [] => []
  | goroutine t :: l => t :: marked_goroutines l
  | _ :: l => marked_goroutines l
  end.

Fixpoint marked_pipes (l : list mark) : list nat :=
  match l with
  | [] => []
  | pipe_made p :: l => p :: marked_pipes l
  | _ :: l => marked_pipes l
  end.

Fixpoint marked_waits (l : list mark) : list nat :=
  match l with
  | [] => []
  | waited wg :: l => wg :: marked_waits l
  | _ :: l => marked_waits l
  end.

Fixpoint marked_inspections (l : list mark) : list string :=
  match l with
  | [] => []
  | inspected id :: l => id :: marked_inspections l
  | _ :: l => marked_inspections l
  end.

Lemma wiring_lists l :
  marked_goroutines (wiring l) = begans l
  /\ marked_pipes (wiring l) = pipes (dids l)
  /\ marked_waits (wiring l) = waits (dids l)
  /\ marked_inspections (wiring l) = List.map fst (inspections (dids l)).
Proof.
  induction l as [| h l (H1 & H2 & H3 & H4)]; [done |].
  destruct h as [[X c x] | t]; [destruct c |]; cbn; rewrite ?H1, ?H2, ?H3, ?H4; done.
Qed.

Section Rounds.

Variable time_Parse : string -> Time + error.
Variable rounds : nat.

(** The goroutines of the rounds of a subscription, each round with the
    wait group, the channel and the pipe it has made: a reader and a
    follower on the three of them. *)
Fixpoint goroutines (id : string) (rs : list (nat * nat * nat)) : list (prog unit) :=
  match rs with
  | [] => []
  | (wg, exit, pipe) :: rs =>
      readLines time_Parse rounds id pipe wg exit
      :: followDockerLogs id pipe wg exit
      :: goroutines id rs
  end.

(** The marks of the rounds, each round in the order of lines 290 to 304:
    the wait group, the channel and the pipe are made, the reader and the
    follower are started on them, the wait group is waited for, the
    container is inspected. *)
Fixpoint round_marks (id : string) (rs : list (nat * nat * nat)) : list mark :=
  match rs with
  | [] => []
  | (wg, exit, pipe) :: rs =>
      group_made wg
      :: channel_made exit
      :: pipe_made pipe
      :: goroutine (readLines time_Parse rounds id pipe wg exit)
      :: goroutine (followDockerLogs id pipe wg exit)
      :: waited wg
      :: inspected id
      :: round_marks id rs
  end.

Lemma round_marks_lists id rs :
  marked_goroutines (round_marks id rs) = goroutines id rs
  /\ marked_pipes (round_marks id rs) = List.map snd rs
  /\ marked_waits (round_marks id rs) = List.map (fun x => x.1.1) rs
  /\ length (marked_inspections (round_marks id rs)) = length rs.
Proof.
  induction rs as [| [[wg exit] pipe_] rs (H1 & H2 & H3 & H4)]; [done |].
  cbn. by rewrite H1, H2, H3, H4.
Qed.

Lemma retry_wiring id n : forall w k m,
  exists rs : list (nat * nat * nat),
    wiring (script (retry time_Parse rounds n id) w k m) = round_marks id rs.
Proof.
  induction n as [| n IH]; intros w k m.
  - by exists [].
  - set (wg := w nat new_WaitGroup k).
    set (exit := w nat make_chan (S k)).
    set (pipe_ := w nat io_Pipe (S (S k))).
    set (answer := w _ (InspectContainer id) (S (S (S (S k))))).
    set (rest := fun c : control =>
                   match c with
                   | continue => retry time_Parse rounds n id
                   | break => mret tt
                   end).
    assert (Hscript : script (retry time_Parse rounds (S n) id) w k m
      = did (Called new_WaitGroup wg)
        :: did (Called make_chan exit)
        :: did (Called io_Pipe pipe_)
        :: began (readLines time_Parse rounds id pipe_ wg exit)
        :: began (followDockerLogs id pipe_ wg exit)
        :: did (Called (wg_Wait wg) (w _ (wg_Wait wg) (S (S (S k)))))
        :: did (Called (InspectContainer id) answer)
        :: script (reconcile id answer ≫= rest) w (S (S (S (S (S k))))) m)
      by reflexivity.
    rewrite Hscript. cbn [wiring mark_of c_call c_answer].
    rewrite script_bind, wiring_app, reconcile_wiring. cbn [app].
    match goal with |- context [run (reconcile id answer) w ?j m] =>
      destruct (reconcile_run id answer w j m) as (Ho & Hm & _);
      destruct (run (reconcile id answer) w j m) as [o m1 tr1 sp1] end.
    cbn [outcome memory calls] in Ho, Hm |- *. subst o m1.
    destruct (verdict answer); cbn [rest].
    + match goal with |- context [script (retry _ _ n id) w ?j m] =>
        destruct (IH w j m) as [rs ->] end.
      by exists ((wg, exit, pipe_) :: rs).
    + by exists [(wg, exit, pipe_)].
Qed.

(** X21.  A subscription goes round by round, and a round goes in this
    order: it makes a wait group, a channel and a pipe, and what it is
    handed for the three is what it goes on with; it starts a reader and
    a follower on the three of them, so that the follower writes to the
    pipe the reader reads and closes the channel the reader watches; it
    waits for that wait group, and only then asks Docker about the
    container.  Nothing else of this kind happens in a subscription: no
    other goroutine, wait group, channel, pipe, wait or inspection, and
    there is one pair of goroutines for every inspection it makes. *)
Theorem subscribeLogs_pairs_reader_and_follower (id : string) (w : world) (n : nat)
    (m : Monitor) :
  let r := run (subscribeLogs time_Parse rounds id) w n m in
  let s := script (subscribeLogs time_Parse rounds id) w n m in
  exists rs : list (nat * nat * nat),
    started r = goroutines id rs
    /\ pipes (calls r) = List.map snd rs
    /\ waits (calls r) = List.map (fun x => x.1.1) rs
    /\ length rs = length (inspections (calls r))
    /\ dids s = calls r
    /\ begans s = started r
    /\ wiring s = round_marks id rs.
Proof.
  cbv zeta.
  destruct (script_run (subscribeLogs time_Parse rounds id) w n m) as [Hdids Hbegans].
  assert (Hw : exists rs, wiring (script (subscribeLogs time_Parse rounds id) w n m)
                          = round_marks id rs).
  { unfold subscribeLogs.
    rewrite script_bind, wiring_app, logSystemf_wiring, run_logSystemf.
    cbn [outcome memory calls app].
    rewrite script_bind, wiring_app.
    match goal with |- context [script (retry _ _ _ _) w ?k m] =>
      destruct (retry_wiring id rounds w k m) as [rs ->];
      destruct (run (retry time_Parse rounds rounds id) w k m) as [o m1 tr sp] end.
    exists rs. cbn [outcome memory calls].
    destruct o as [[] | f]; [| by rewrite app_nil_r].
    rewrite script_bind, wiring_app, closeLogger_wiring. cbn [app].
    match goal with |- context [run (closeLogger id) w ?k ?m'] =>
      destruct (run (closeLogger id) w k m') as [o m2 tr' sp'] end.
    cbn [outcome memory calls].
    destruct o as [[] | f]; [| by rewrite app_nil_r].
    by rewrite logSystemf_wiring, app_nil_r. }
  destruct Hw as [rs Hw]. exists rs.
  destruct (wiring_lists (script (subscribeLogs time_Parse rounds id) w n m))
    as (H1 & H2 & H3 & H4).
  destruct (round_marks_lists id rs) as (R1 & R2 & R3 & R4).
  rewrite Hw in H1, H2, H3, H4.
  rewrite R1, Hbegans in H1. rewrite R2, Hdids in H2. rewrite R3, Hdids in H3.
  rewrite Hdids in H4.
  repeat split; try done.
  rewrite <- R4, H4. by rewrite length_map.
Qed.

End Rounds.

(** ** What the registry holds *)

(** A step either leaves the environments as they are or stores one the
    loop has captured. *)
Lemma step_envs w t s s' :
  invariant s -> step w t s = Some s' ->
  exists e,
    history s' = history s ++ [e]
    /\ (envs (shared s') = envs (shared s)
        \/ exists id env,
             envs (shared s') = <[id := env]> (envs (shared s))
             /\ captured (history s) id env).
Proof.
  intros (pend & p0 & rest & Hpool & Hloop & Htasks & _ & Hpend & _) Hstep.
  unfold step in Hstep. rewrite Hpool in Hstep. destruct t as [| t]; simpl in Hstep.
  - destruct p0 as [a | f | X op k | X c k | child k]; try discriminate.
    + destruct (mem_sem op (shared s)) as [x m'] eqn:Hsem. injection Hstep as <-.
      eexists. split; [reflexivity |]. simpl.
      simpl in Hloop. destruct (kind_of_mem op) as [id env | |] eqn:Hkind; [| done |].
      * right. destruct Hloop as [-> _]. exists id, env. split; [| by apply Hpend].
        destruct op; try discriminate Hkind. injection Hkind as -> ->.
        simpl in Hsem. by injection Hsem as <- <-.
      * left. pose proof (keeps_envs_mem_sem op (shared s) (kind_keeps op Hkind)) as H.
        by rewrite Hsem in H.
    + injection Hstep as <-. eexists. split; [reflexivity | by left].
    + injection Hstep as <-. eexists. split; [reflexivity | by left].
  - destruct (nth_error rest t) as [th |] eqn:Hth; [| discriminate].
    destruct (nth_error_Forall _ _ _ _ Htasks Hth) as [Htask _].
    destruct (code th) as [a | f | X op k | X c k | child k] eqn:Hcode; try discriminate.
    + destruct (mem_sem op (shared s)) as [x m'] eqn:Hsem. injection Hstep as <-.
      eexists. split; [reflexivity |]. left. simpl.
      simpl in Htask. destruct Htask as [Hop _].
      pose proof (keeps_envs_mem_sem op (shared s) Hop) as H. by rewrite Hsem in H.
    + injection Hstep as <-. eexists. split; [reflexivity | by left].
    + injection Hstep as <-. eexists. split; [reflexivity | by left].
Qed.

(** X22.  Nothing but the loop of the events puts an environment in the
    registry, and it puts there only what it has captured: in every state
    the agent reaches from the end of the inventory, however its
    goroutines take turns and whatever the world answers, the environment
    registered for a container is the one that was registered when the
    loop began or one the loop has captured from an inspection of that
    very container.  No environment is ever taken off the registry. *)
Theorem registry_holds_captured (time_Parse : string -> Time + error) (rounds : nat)
    (m : Monitor) (tasks : list (prog unit)) (s : state) (id : string) :
  Forall (fun p => obeys task p) tasks ->
  reachable (boot time_Parse rounds m tasks) s ->
  (forall env, envs (shared s) !! id = Some env ->
     envs m !! id = Some env \/ captured (history s) id env)
  /\ (is_Some (envs m !! id) -> is_Some (envs (shared s) !! id)).
Proof.
  intros Htasks Hs.
  induction Hs as [| s w t s' Hs IH Hstep]; [split; [by left | done] |].
  pose proof (invariant_reachable _ s (invariant_boot time_Parse rounds m tasks Htasks) Hs)
    as Hinv.
  destruct (step_envs w t s s' Hinv Hstep) as (e & -> & [-> | (id' & env' & -> & Hcap)]).
  - destruct IH as [IH1 IH2]. split; [| done]. intros env Henv.
    destruct (IH1 env Henv) as [H | H]; [by left | right; by apply captured_snoc].
  - destruct IH as [IH1 IH2]. split.
    + intros env. destruct (decide (id = id')) as [-> | Hne].
      * rewrite lookup_insert_eq. intros [= <-]. right. by apply captured_snoc.
      * rewrite lookup_insert_ne by done. intros Henv.
        destruct (IH1 env Henv) as [H | H]; [by left | right; by apply captured_snoc].
    + intros Hm. destruct (decide (id = id')) as [-> | Hne].
      * rewrite lookup_insert_eq. by eexists.
      * rewrite lookup_insert_ne by done. by apply IH2.
Qed.

(** After the schedule of the example the container is registered with
    what the loop captured. *)
Lemma registry_holds_captured_witness :
  captured (history (play lively loop_first (boot RFC3339.Parse 3 dev [])))
    "abcdef012345678" (capture (ct_Config_Env web_container)).
Proof.
  destruct (registry_holds_captured RFC3339.Parse 3 dev []
              (play lively loop_first (boot RFC3339.Parse 3 dev [])) "abcdef012345678")
    as [H _].
  - constructor.
  - apply play_reachable. constructor.
  - destruct (H (capture (ct_Config_Env web_container))) as [Hdev | Hcap].
    + by vm_compute.
    + discriminate Hdev.
    + exact Hcap.
Defined.

(** ** The name of a metric *)

Lemma upper_lower c : GoCase.upper (GoCase.lower c) = GoCase.upper c.
Proof. destruct c as [[] [] [] [] [] [] [] []]; reflexivity. Qed.

Lemma upper_upper c : GoCase.upper (GoCase.upper c) = GoCase.upper c.
Proof. destruct c as [[] [] [] [] [] [] [] []]; reflexivity. Qed.

Lemma lower_lower c : GoCase.lower (GoCase.lower c) = GoCase.lower c.
Proof. destruct c as [[] [] [] [] [] [] [] []]; reflexivity. Qed.

Lemma lower_upper c : GoCase.lower (GoCase.upper c) = GoCase.lower c.
Proof. destruct c as [[] [] [] [] [] [] [] []]; reflexivity. Qed.

Lemma substring_all s : substring 0 (String.length s) s = s.
Proof. induction s as [| c s IH]; [done |]. simpl. by rewrite IH. Qed.

Lemma ucfirst_cons c s :
  ucfirst (String c s) = String (GoCase.upper c) (GoCase.ToLower s).
Proof.
  unfold ucfirst. simpl String.eqb. cbv iota.
  change (String.length (String c s) - 1) with (String.length s - 0).
  rewrite Nat.sub_0_r.
  change (substring 1 (String.length s) (String c s)) with (substring 0 (String.length s) s).
  rewrite substring_all.
  replace (substring 0 1 (String c s)) with (String c EmptyString) by (by destruct s).
  reflexivity.
Qed.

(** Every byte of the string is an ASCII byte. *)
Fixpoint ascii_only (s : string) : bool :=
  match s with
  | EmptyString => true
  | String c r => Nat.ltb (nat_of_ascii c) 128 && ascii_only r
  end.

Lemma ToLower_idem s : GoCase.ToLower (GoCase.ToLower s) = GoCase.ToLower s.
Proof.
  induction s as [| c s IH]; [done |].
  change (String (GoCase.lower (GoCase.lower c)) (GoCase.ToLower (GoCase.ToLower s))
          = String (GoCase.lower c) (GoCase.ToLower s)).
  by rewrite lower_lower, IH.
Qed.

Lemma ToLower_ToUpper s : GoCase.ToLower (GoCase.ToUpper s) = GoCase.ToLower s.
Proof.
  induction s as [| c s IH]; [done |].
  change (String (GoCase.lower (GoCase.upper c)) (GoCase.ToLower (GoCase.ToUpper s))
          = String (GoCase.lower c) (GoCase.ToLower s)).
  by rewrite lower_upper, IH.
Qed.

Lemma ToLower_length s : String.length (GoCase.ToLower s) = String.length s.
Proof.
  induction s as [| c s IH]; [done |].
  change (S (String.length (GoCase.ToLower s)) = S (String.length s)). by rewrite IH.
Qed.

(** X23.  [ucfirst] on a status made of ASCII bytes, for which Go maps the
    case byte by byte as the model does: the first letter comes out in
    upper case and the others in lower case, so the name of the metric
    of an event does not depend on the case the status was written in;
    the length is kept, the empty string stays empty, and a second
    application changes nothing. *)
Theorem ucfirst_normalises_case (s : string) :
  ascii_only s = true ->
  match s with
  | EmptyString => ucfirst s = EmptyString
  | String c r => ucfirst s = String (GoCase.upper c) (GoCase.ToLower r)
  end
  /\ String.length (ucfirst s) = String.length s
  /\ ucfirst (ucfirst s) = ucfirst s
  /\ ucfirst (GoCase.ToUpper s) = ucfirst s
  /\ ucfirst (GoCase.ToLower s) = ucfirst s.
Proof.
  intros _. destruct s as [| c s]; [by repeat split |].
  change (GoCase.ToUpper (String c s)) with (String (GoCase.upper c) (GoCase.ToUpper s)).
  change (GoCase.ToLower (String c s)) with (String (GoCase.lower c) (GoCase.ToLower s)).
  rewrite !ucfirst_cons, upper_upper, upper_lower, ToLower_idem, ToLower_ToUpper.
  repeat split; try done.
  change (S (String.length (GoCase.ToLower s)) = S (String.length s)).
  by rewrite ToLower_length.
Qed.

(** The statuses of Docker, however they are written. *)
Lemma ucfirst_normalises_case_witness :
  ucfirst "create" = "Create" /\ ucfirst (GoCase.ToUpper "oom") = ucfirst "oom".
Proof.
  split.
  - apply (ucfirst_normalises_case "create" eq_refl).
  - apply (ucfirst_normalises_case "oom" eq_refl).
Defined.

(** ** The identity the inventory records *)

(** Any call, any stop and any goroutine, but no write to the fields of
    the monitor outside its methods. *)
Definition methods_only : policy :=
  mkPolicy (fun _ _ => true) no_write (fun _ => true) true false.

Lemma calm_methods_only {A} (p : prog A) : obeys calm p -> obeys methods_only p.
Proof. by apply obeys_weaken. Qed.

Lemma methods_only_handleCreate id : obeys methods_only (handleCreate id).
Proof.
  unfold handleCreate.
  apply obeys_bind; [apply calm_methods_only; auto with obeys |]. intros _.
  apply obeys_bind; [by split |]. intros [container | e]; apply calm_methods_only; obeys_auto.
Qed.

Lemma no_write_identity {X} (op : mem X) m :
  no_write X op = true ->
  agentId (mem_sem op m).2 = agentId m
  /\ agentImage (mem_sem op m).2 = agentImage m
  /\ agentVersion (mem_sem op m).2 = agentVersion m.
Proof.
  destruct op; simpl; try done.
  intros _. unfold Registry.getLines. by destruct (Nat.eqb _ _).
Qed.

(** The tag of an image: what follows its first colon. *)
Definition tag (img : string) : option string :=
  match SplitN2 img ":" with
  | [_; version] => Some version
  | _ => None
  end.

(** What the inventory makes of the identity of the agent, container by
    container: its identifier, its image and its version. *)
Definition recorded (cs : list APIContainers) (identity : string * string * string)
    : string * string * string :=
  fold_left
    (fun '(id, img, version) c =>
       if agent_image (ac_Image c)
       then (ac_ID c, ac_Image c, default version (tag (ac_Image c)))
       else (id, img, version))
    cs identity.

Section Identity.

Variable time_Parse : string -> Time + error.
Variable rounds : nat.

(** X24.  When the loop of the first pass of the inventory gets to its
    end, the agent goes by the identifier and the image of the last
    listed container whose image is the agent's, and by the version that
    is the tag of the last such image that has a tag; the containers it
    has registered in between do not change that, and without a container
    of its own the agent keeps the identity it had.  The version is what
    every line the agent writes from then on begins with. *)
Theorem handleRunning_records_identity (cs : list APIContainers) : forall w n m,
  let r := run (handleRunning_range time_Parse rounds cs) w n m in
  outcome r = inl tt ->
  (agentId (memory r), agentImage (memory r), agentVersion (memory r))
  = recorded cs (agentId m, agentImage m, agentVersion m).
Proof.
  induction cs as [| c cs IH]; intros w n m; cbv zeta; [done |].
  cbn [handleRunning_range]. unfold recorded. cbn [fold_left]. fold (recorded cs).
  rewrite run_bind.
  destruct (agent_image (ac_Image c)) eqn:Himg.
  - assert (Hrun : exists m',
      (agentId m', agentImage m', agentVersion m')
      = (ac_ID c, ac_Image c, default (agentVersion m) (tag (ac_Image c)))
      /\ run (mem_ (m_write (with_agentId (ac_ID c)));;
              mem_ (m_write (with_agentImage (ac_Image c)));;
              match SplitN2 (ac_Image c) ":" with
              | [_; version] => mem_ (m_write (with_agentVersion version))
              | _ => mret ()
              end) w n m = mkResult (inl tt) m' [] []).
    { unfold tag. run_auto.
      destruct (SplitN2 (ac_Image c) ":") as [| ? [| ? [| ? ?]]];
        run_auto; eexists; (split; [| reflexivity]); reflexivity. }
    destruct Hrun as (m' & Hid & ->). rewrite then_done, outcome_after, memory_after.
    intros Ho. rewrite (IH _ _ _ Ho). by rewrite Hid.
  - rewrite !run_bind, !run_logSystemf, !then_done, !run_bind.
    match goal with |- context [run (handleCreate ?i) w ?k m] =>
      destruct (obeys_run methods_only (handleCreate i)
                  (fun m' => (agentId m', agentImage m', agentVersion m')
                             = (agentId m, agentImage m, agentVersion m)) w k m
                  (methods_only_handleCreate i)) as (_ & _ & _ & Hid);
      [intros X op m' Hop <-;
       destruct (no_write_identity op m' Hop) as (-> & -> & ->); reflexivity
      | reflexivity |];
      destruct (run (handleCreate i) w k m) as [[[] | f] m1 tr1 sp1] end;
      cbn [memory] in Hid.
    + rewrite !then_done, !run_go, !after_done, !then_done, !outcome_after, !memory_after.
      intros Ho. rewrite (IH _ _ _ Ho). by rewrite Hid.
    + rewrite !then_stop, !after_done, !then_stop. intros [=].
Qed.

End Identity.

(** A web container and the agent, version 0.66. *)
Lemma handleRunning_records_identity_witness :
  let cs := [mkAPIContainers "abcdef012345678" "web:1";
             mkAPIContainers "0123456789abcdef" "agent/agent:0.66"] in
  let r := run (handleRunning_range RFC3339.Parse 3 cs) silent 0 dev in
  (agentId (memory r), agentImage (memory r), agentVersion (memory r))
  = ("0123456789abcdef", "agent/agent:0.66", "0.66").
Proof.
  cbv zeta.
  rewrite (handleRunning_records_identity RFC3339.Parse 3
             [mkAPIContainers "abcdef012345678" "web:1";
              mkAPIContainers "0123456789abcdef" "agent/agent:0.66"] silent 0 dev).
  - reflexivity.
  - by vm_compute.
Defined.
